(** * Snapgen: generation orchestration engine

    A shallow embedding of the dependency sorter (engine/topo-sort.ts), the
    level grouper (engine/parallel.ts), the foreign-key transformer
    (engine/transformer.ts), the PostgreSQL inserter (engine/inserter.ts) and
    the batching part of the AI generator (generators/ai.ts), followed by the
    properties established about them. *)

From stdpp Require Import base decidable option numbers list strings gmap sets sorting.
From Stdlib Require Import ZArith Lia Ascii DecimalString.

Local Open Scope string_scope.
Local Open Scope Z_scope.
Local Open Scope list_scope.

(** ** Insertion-ordered maps

    A JavaScript [Map] (and the own properties of a plain object) iterate in
    insertion order, and [set] on an existing key keeps the key's position.
    The sorter's queue discipline depends on that order, so such maps are
    association lists here rather than extensional finite maps. *)

Module OMap.
Section defs.
Context {V : Type}.

Definition t := list (string * V).

Fixpoint get (m : t) (k : string) : option V :=
match m with
| [] => None
| (k', v) :: m' => if decide (k' = k) then Some v else get m' k
end.

Fixpoint set (m : t) (k : string) (v : V) : t :=
match m with
| [] => [(k, v)]
| (k', v') :: m' =>
    if decide (k' = k) then (k', v) :: m' else (k', v') :: set m' k v
end.

Definition keys (m : t) : list string := m.*1.

Definition has (m : t) (k : string) : bool :=
match get m k with Some _ => true | None => false end.
End defs.
Arguments t : clear implicits.
End OMap.

(** ** types/schema.ts *)

Inductive FieldType :=
  | TString | TInt | TBigInt | TFloat | TDecimal | TBoolean | TDateTime
  | TDate | TTime | TJson | TBytes | TUuid | TEnum.

Inductive RelationType := OneToOne | OneToMany | ManyToOne | ManyToMany.

Record RelationInfo := {
  relType : RelationType;
  relatedTable : string;
  foreignKeyField : option string;
  referencedField : option string;
  isNullable : bool;
}.

Record FieldDefinition := {
  fieldName : string;
  fieldType : FieldType;
  isArray : bool;
  isRequired : bool;
  isUnique : bool;
  isId : bool;
  enumName : option string;
  relation : option RelationInfo;
}.

Record TableDefinition := {
  name : string;
  fields : list FieldDefinition;
  primaryKey : list string;
  uniqueConstraints : list (list string);
}.

Record DependencyNode := {
  table : string;
  dependencies : list string;
  dependents : list string;
}.

Record TopologicalOrder := {
  order : list string;
  cycles : list (list string);
}.

(** An optional string used as a condition: [undefined] and the empty string
    are falsy. *)
Definition truthy (s : option string) : bool :=
  match s with
  | Some s' => negb (bool_decide (s' = ""))
  | None => false
  end.

(** [Array.prototype.includes] on an array of strings. *)
Definition includes (l : list string) (x : string) : bool :=
  bool_decide (x ∈ l).

(** ** engine/topo-sort.ts *)

Module TopoSort.

Definition Graph := OMap.t DependencyNode.

Definition initNode (g : Graph) (t : TableDefinition) : Graph :=
  OMap.set g (name t)
    {| table := name t; dependencies := []; dependents := [] |}.

Definition pushDependency (n : DependencyNode) (x : string) : DependencyNode :=
  {| table := table n; dependencies := dependencies n ++ [x];
     dependents := dependents n |}.

Definition pushDependent (n : DependencyNode) (x : string) : DependencyNode :=
  {| table := table n; dependencies := dependencies n;
     dependents := dependents n ++ [x] |}.

(** Body of [table.fields.forEach] in the second pass; [tname] is
    [table.name], whose node the first pass has created. *)
Definition addEdge (tname : string) (g : Graph) (field : FieldDefinition)
  : Graph :=
  match relation field with
  | Some rel =>
      if truthy (foreignKeyField rel) then
        let related := relatedTable rel in
        if decide (related = tname) then g
        else
          match OMap.get g tname with
          | None => g
          | Some node =>
              let g1 :=
                if includes (dependencies node) related then g
                else OMap.set g tname (pushDependency node related) in
              match OMap.get g1 related with
              | Some relatedNode =>
                  if includes (dependents relatedNode) tname then g1
                  else OMap.set g1 related (pushDependent relatedNode tname)
              | None => g1
              end
          end
      else g
  | None => g
  end.

Definition addTableEdges (g : Graph) (t : TableDefinition) : Graph :=
  foldl (addEdge (name t)) g (fields t).

Definition buildDependencyGraph (tables : list TableDefinition) : Graph :=
  foldl addTableEdges (foldl initNode [] tables) tables.

(** [inDegree.get(dependent) || 0] *)
Definition orZero (d : option Z) : Z := default 0 d.

(** Body of [dependents.forEach] inside the queue loop. *)
Definition relax (st : list string * OMap.t Z) (dependent : string)
  : list string * OMap.t Z :=
  let newDegree := orZero (OMap.get st.2 dependent) - 1 in
  (if decide (newDegree = 0) then st.1 ++ [dependent] else st.1,
   OMap.set st.2 dependent newDegree).

(** The [while (queue.length > 0)] loop; [None] when the fuel runs out. *)
Fixpoint processQueue (fuel : nat) (adjList : OMap.t (list string))
    (queue ord : list string) (inDegree : OMap.t Z)
  : option (list string * OMap.t Z) :=
  match queue with
  | [] => Some (ord, inDegree)
  | current :: rest =>
      match fuel with
      | O => None
      | S fuel' =>
          let deps := default [] (OMap.get adjList current) in
          let st := foldl relax (rest, inDegree) deps in
          processQueue fuel' adjList st.1 (ord ++ [current]) st.2
      end
  end.

(** [graph.get(a)?.dependencies.length || 0] *)
Definition depCount (g : Graph) (a : string) : Z :=
  match OMap.get g a with
  | Some n => Z.of_nat (length (dependencies n))
  | None => 0
  end.

(** [adjList.get(current) || []] for the adjacency list copied from the
    graph. *)
Definition dependentsOf (g : Graph) (node : string) : list string :=
  match OMap.get g node with
  | Some n => dependents n
  | None => []
  end.

(** [Array.prototype.sort] with the comparator [key a - key b]; the sort is
    stable, so it is determined by the keys: insertion sort that places an
    element before the first one whose key is not smaller. *)
Fixpoint insertByKey (key : string → Z) (x : string) (l : list string)
  : list string :=
  match l with
  | [] => [x]
  | y :: l' =>
      if decide (key x ≤ key y) then x :: y :: l'
      else y :: insertByKey key x l'
  end.

Definition sortByKey (key : string → Z) (l : list string) : list string :=
  foldr (insertByKey key) [] l.

Record DfsState := {
  visited : gset string;
  recStack : gset string;
  cycle : list string;
}.

Definition enter (node : string) (st : DfsState) : DfsState :=
  {| visited := {[node]} ∪ visited st; recStack := {[node]} ∪ recStack st;
     cycle := cycle st |}.

Definition leave (node : string) (st : DfsState) : DfsState :=
  {| visited := visited st; recStack := recStack st ∖ {[node]};
     cycle := cycle st |}.

Definition unshiftCycle (node : string) (st : DfsState) : DfsState :=
  {| visited := visited st; recStack := recStack st;
     cycle := node :: cycle st |}.

Definition pushCycle (dep : string) (st : DfsState) : DfsState :=
  {| visited := visited st; recStack := recStack st;
     cycle := cycle st ++ [dep] |}.

(** The [for (const dep of dependencies)] loop of the inner function
    [dfs]; [rec] is the recursive call. *)
Fixpoint visitDeps (rec : string → DfsState → option (bool * DfsState))
    (node : string) (deps : list string) (st : DfsState)
  : option (bool * DfsState) :=
  match deps with
  | [] => Some (false, leave node st)
  | dep :: deps' =>
      if bool_decide (dep ∉ visited st) then
        match rec dep st with
        | None => None
        | Some (true, st') => Some (true, unshiftCycle node st')
        | Some (false, st') => visitDeps rec node deps' st'
        end
      else if bool_decide (dep ∈ recStack st) then
        Some (true, unshiftCycle node (pushCycle dep st))
      else visitDeps rec node deps' st
  end.

(** [graph.get(node)?.dependencies || []] *)
Definition depsOf (g : Graph) (node : string) : list string :=
  match OMap.get g node with
  | Some n => dependencies n
  | None => []
  end.

(** The inner function [dfs] of [detectCycle]; the fuel bounds the depth of
    the recursion, [None] when it runs out. *)
Fixpoint dfs (fuel : nat) (g : Graph) (node : string) (st : DfsState)
  : option (bool * DfsState) :=
  match fuel with
  | O => None
  | S fuel' => visitDeps (dfs fuel' g) node (depsOf g node) (enter node st)
  end.

(** [for (const startNode of startNodes)] of [detectCycle]. *)
Fixpoint dfsFrom (fuel : nat) (g : Graph) (startNodes : list string)
    (st : DfsState) : option DfsState :=
  match startNodes with
  | [] => Some st
  | startNode :: rest =>
      if bool_decide (startNode ∉ visited st) then
        match dfs fuel g startNode st with
        | None => None
        | Some (true, st') => Some st'
        | Some (false, st') => dfsFrom fuel g rest st'
        end
      else dfsFrom fuel g rest st
  end.

(** Every call of [dfs] marks a node that was not yet visited, and a node
    is a key of the graph or is named by some dependency list. *)
Definition dfsFuel (g : Graph) : nat :=
  S (length g + length (concat (map (λ kv, dependencies kv.2) g))).

Definition detectCycle (g : Graph) (startNodes : list string)
  : option (list string) :=
  cycle <$>
    dfsFrom (dfsFuel g) g startNodes
      {| visited := ∅; recStack := ∅; cycle := [] |}.

Definition initialInDegree (g : Graph) : OMap.t Z :=
  map (λ kv, (kv.1, Z.of_nat (length (dependencies kv.2)))) g.

Definition initialAdjList (g : Graph) : OMap.t (list string) :=
  map (λ kv, (kv.1, dependents kv.2)) g.

Definition zeroDegree (inDegree : OMap.t Z) : list string :=
  (filter (λ kv, kv.2 = 0) inDegree).*1.

Definition positiveDegree (inDegree : OMap.t Z) : list string :=
  (filter (λ kv, 0 < kv.2) inDegree).*1.

(** Kahn's phase of [topologicalSort]: the order built by the queue loop
    and the final in-degrees. *)
Definition kahn (g : Graph) : option (list string * OMap.t Z) :=
  let inDegree := initialInDegree g in
  processQueue (S (length g)) (initialAdjList g) (zeroDegree inDegree) []
    inDegree.

Definition topologicalSort (g : Graph) : option TopologicalOrder :=
  '(ord, inDegree) ← kahn g;
  let remaining := positiveDegree inDegree in
  match remaining with
  | [] => Some {| order := ord; cycles := [] |}
  | _ =>
      found ← detectCycle g remaining;
      Some {| order := ord ++ sortByKey (depCount g) remaining;
              cycles := [found] |}
  end.

(** The test of [table.fields.some] in [identifySelfReferences]. *)
Definition selfReferencing (t : TableDefinition) (field : FieldDefinition)
  : bool :=
  match relation field with
  | Some rel => bool_decide (relatedTable rel = name t)
  | None => false
  end.

Definition identifySelfReferences (tables : list TableDefinition)
  : list string :=
  name <$> filter (λ t, existsb (selfReferencing t) (fields t) = true) tables.

End TopoSort.

(** ** engine/parallel.ts *)

Module Parallel.
Import TopoSort.

(** The test made on one table by the [for (const table of tables)] loop:
    not yet processed, present in the graph, every dependency processed. *)
Definition ready (g : Graph) (processed : gset string)
    (t : TableDefinition) : bool :=
  if bool_decide (name t ∈ processed) then false
  else
    match OMap.get g (name t) with
    | None => false
    | Some node =>
        forallb (λ dep, bool_decide (dep ∈ processed)) (dependencies node)
    end.

(** The [while (processed.size < tables.length)] loop; [None] when the
    fuel runs out. *)
Fixpoint levelLoop (fuel : nat) (tables : list TableDefinition) (g : Graph)
    (processed : gset string) (levels : list (list string))
  : option (list (list string)) :=
  if bool_decide (size processed < length tables)%nat then
    match fuel with
    | O => None
    | S fuel' =>
        let currentLevel :=
          name <$> filter (λ t, ready g processed t = true) tables in
        match currentLevel with
        | [] =>
            let remaining :=
              name <$> filter (λ t, name t ∉ processed) tables in
            Some (match remaining with
                  | [] => levels
                  | _ => levels ++ [remaining]
                  end)
        | _ =>
            levelLoop fuel' tables g (processed ∪ list_to_set currentLevel)
              (levels ++ [currentLevel])
        end
    end
  else Some levels.

Definition groupTablesByLevel (tables : list TableDefinition)
  : option (list (list string)) :=
  levelLoop (S (length tables)) tables (buildDependencyGraph tables) ∅ [].

End Parallel.

(** ** Generated rows

    A [GeneratedRow] is an open mapping from field names to values of any
    type.  Numbers are integers here; an object or array value is a reference
    (compared by identity), an object carrying the text [JSON.stringify]
    gives for it. *)

Inductive Value :=
  | VUndefined
  | VNull
  | VBool (b : bool)
  | VNum (n : Z)
  | VStr (s : string)
  | VObject (ref : nat) (json : string)
  | VArray (ref : nat).

Global Instance Value_eq_dec : EqDecision Value.
Proof. solve_decision. Defined.

Definition Row := OMap.t Value.

(** [row[key]] *)
Definition prop (row : Row) (key : string) : Value :=
  default VUndefined (OMap.get row key).

(** [value === null || value === undefined] *)
Definition nullish (v : Value) : bool :=
  match v with
  | VUndefined | VNull => true
  | _ => false
  end.

(** [array[index]] for a numeric index. *)
Definition at_index (l : list Value) (index : Z) : Value :=
  if decide (index < 0) then VUndefined
  else default VUndefined (l !! Z.to_nat index).

(** [Array.prototype.slice(start, end)] *)
Definition slice {A} (l : list A) (start stop : Z) : list A :=
  let len := Z.of_nat (length l) in
  let clamp i := if decide (i < 0) then Z.max (len + i) 0 else Z.min i len in
  take (Z.to_nat (clamp stop - clamp start)) (drop (Z.to_nat (clamp start)) l).

(** ** engine/transformer.ts *)

Module Transformer.

(** [\w] and [\d] of a regular expression without flags. *)
Definition isDigit (c : ascii) : bool :=
  let n := nat_of_ascii c in (48 <=? n)%nat && (n <=? 57)%nat.

Definition isWordChar (c : ascii) : bool :=
  let n := nat_of_ascii c in
  isDigit c || ((65 <=? n)%nat && (n <=? 90)%nat)
  || ((97 <=? n)%nat && (n <=? 122)%nat) || (n =? 95)%nat.

(** A greedy [+] over a character class with backtracking: the longest run
    is tried first, then shorter ones, each handed to the continuation [k]
    with the text captured so far and the rest of the input. *)
Fixpoint greedyPlus {R} (p : ascii → bool)
    (k : string → string → option R) (taken s : string) : option R :=
  match s with
  | String c s' =>
      if p c then
        let taken' := taken +:+ String c "" in
        match greedyPlus p k taken' s' with
        | Some r => Some r
        | None => k taken' s'
        end
      else None
  | EmptyString => None
  end.

(** [/\{\{(\w+)[_.](\d+)\}\}/] anchored at the start of [s]; the result is
    the pair of captures. *)
Definition matchHere (s : string) : option (string * string) :=
  match s with
  | String "{" (String "{" r) =>
      greedyPlus isWordChar
        (λ tableName r1,
           match r1 with
           | String c r2 =>
               if bool_decide (c = "_"%char ∨ c = "."%char) then
                 greedyPlus isDigit
                   (λ indexStr r3,
                      match r3 with
                      | String "}" (String "}" _) =>
                          Some (tableName, indexStr)
                      | _ => None
                      end)
                   "" r2
               else None
           | EmptyString => None
           end)
        "" r
  | _ => None
  end.

(** [value.match(/\{\{(\w+)[_.](\d+)\}\}/)]: the leftmost match. *)
Fixpoint matchPlaceholder (s : string) : option (string * string) :=
  match matchHere s with
  | Some r => Some r
  | None =>
      match s with
      | String _ s' => matchPlaceholder s'
      | EmptyString => None
      end
  end.

(** [parseInt(indexStr, 10)] on a run of decimal digits. *)
Fixpoint parseDigits (acc : Z) (s : string) : Z :=
  match s with
  | String c s' =>
      parseDigits (10 * acc + Z.of_nat (nat_of_ascii c - 48)) s'
  | EmptyString => acc
  end.

Definition parseInt (s : string) : Z := parseDigits 0 s.

(** [value.includes('{{')] *)
Definition includesBraces (s : string) : bool :=
  bool_decide (is_Some (String.index 0 "{{" s)).

Definition IdMappings := gmap string (list Value).

(** A result of [Math.random()]: the fraction
    [numer / (numer + slack + 1)], which ranges over the rationals of the
    interval from 0 (included) to 1 (excluded). *)
Record UnitFraction := { numer : nat; slack : nat }.

(** [Math.floor(x * len)] *)
Definition scaleFloor (x : UnitFraction) (len : nat) : nat :=
  (numer x * len / (numer x + slack x + 1))%nat.

(** The mutable state the function works on: the object store, whose
    locations are the object references, and the number of calls made to
    [Math.random] so far. *)
Record World := {
  heap : list Row;
  randomCalls : nat;
}.

(** [object[key] = v] on the object at [loc]. *)
Definition write (loc : nat) (key : string) (v : Value) (w : World)
  : World :=
  {| heap := alter (λ row, OMap.set row key v) loc (heap w);
     randomCalls := randomCalls w |}.

(** The object a reference denotes. *)
Definition content (w : World) (loc : nat) : Row :=
  default ([] : Row) (heap w !! loc).

(** [object[key]] on the object at [loc]. *)
Definition read (loc : nat) (key : string) (w : World) : Value :=
  prop (content w loc) key.

Section transform.
(** The results of the successive calls of [Math.random]. *)
Variable random : nat → UnitFraction.
Variable idMappings : IdMappings.

(** The placeholder branch of the field loop. *)
Definition substitutePlaceholder (transformedRow : nat)
    (foreignKeyField : string) (value : Value) (w : World) : World :=
  match value with
  | VStr text =>
      if includesBraces text then
        match matchPlaceholder text with
        | Some (tableName, indexStr) =>
            let index := parseInt indexStr - 1 in
            match idMappings !! tableName with
            | Some availableIds =>
                if decide (at_index availableIds index ≠ VUndefined) then
                  write transformedRow foreignKeyField
                    (at_index availableIds index) w
                else w
            | None => w
            end
        | None => w
        end
      else w
  | _ => w
  end.

(** The validation branch of the field loop: [value] is the value read
    at the top of the loop body. *)
Definition replaceUnknown (transformedRow : nat)
    (foreignKeyField relatedTable : string) (value : Value) (w : World)
  : World :=
  match idMappings !! relatedTable with
  | Some availableIds =>
      if decide (0 < length availableIds)%nat then
        if decide (value ∈ availableIds) then w
        else
          let randomId :=
            default VUndefined
              (availableIds !!
                 scaleFloor (random (randomCalls w)) (length availableIds))
          in
          {| heap := heap (write transformedRow foreignKeyField randomId w);
             randomCalls := S (randomCalls w) |}
      else w
  | None => w
  end.

(** Body of [tableSchema.fields.forEach]. *)
Definition processField (transformedRow : nat) (w : World)
    (field : FieldDefinition) : World :=
  match relation field with
  | None => w
  | Some rel =>
      match foreignKeyField rel with
      | None => w
      | Some foreignKeyField =>
          if bool_decide (foreignKeyField = "") then w
          else
            let value := read transformedRow foreignKeyField w in
            if nullish value then w
            else
              replaceUnknown transformedRow foreignKeyField
                (relatedTable rel) value
                (substitutePlaceholder transformedRow foreignKeyField
                   value w)
      end
  end.

(** Body of [rows.map]: [{ ...row }] allocates the copy, the field loop
    writes to it, and its reference is the result. *)
Definition transformRow (tableSchema : TableDefinition) (w : World)
    (row : nat) : nat * World :=
  let transformedRow := length (heap w) in
  let w1 := {| heap := heap w ++ [content w row];
               randomCalls := randomCalls w |} in
  (transformedRow, foldl (processField transformedRow) w1 (fields tableSchema)).

Fixpoint transformForeignKeys (rows : list nat)
    (tableSchema : TableDefinition) (w : World) : list nat * World :=
  match rows with
  | [] => ([], w)
  | row :: rows' =>
      let '(out, w1) := transformRow tableSchema w row in
      let '(outs, w2) := transformForeignKeys rows' tableSchema w1 in
      (out :: outs, w2)
  end.
End transform.

End Transformer.

(** ** engine/inserter.ts *)

Record JsError := { errName : string; errMessage : string }.

(** [`${error}`], that is [Error.prototype.toString]. *)
Definition errorToString (e : JsError) : string :=
  if bool_decide (errName e = "") then errMessage e
  else if bool_decide (errMessage e = "") then errName e
  else errName e +:+ ": " +:+ errMessage e.

(** [`${n}`] for an integer. *)
Definition numberToString (n : Z) : string :=
  NilZero.string_of_int (Z.to_int n).

(** The outcome of an awaited or called operation. *)
Inductive Completion (A : Type) :=
  | Returns (a : A)
  | Throws (e : JsError).
Arguments Returns {A} a.
Arguments Throws {A} e.

Record InsertResult := {
  resultTable : string;
  inserted : Z;
  failed : Z;
  errors : list string;
  ids : list Value;
}.

(** [validateReferentialIntegrity] of engine/transformer.ts. *)
Module Validation.
Import Transformer.

Section validate.
(** The text a template literal gives for a value, [`${value}`]. *)
Variable valueToString : Value → string.
Variable idMappings : IdMappings.

Definition noIdsMessage (index : nat) (foreignKeyField relatedTable : string)
  : string :=
  "Row " +:+ numberToString (Z.of_nat index) +:+ ": " +:+ foreignKeyField
  +:+ " references " +:+ relatedTable +:+ " but no IDs available".

Definition notFoundMessage (index : nat) (foreignKeyField : string)
    (value : Value) (relatedTable : string) : string :=
  "Row " +:+ numberToString (Z.of_nat index) +:+ ": " +:+ foreignKeyField
  +:+ "=" +:+ valueToString value +:+ " not found in " +:+ relatedTable
  +:+ " IDs".

(** Body of [tableSchema.fields.forEach]; [errors] is the array the
    messages are pushed to. *)
Definition validateField (index : nat) (row : Row) (errors : list string)
    (field : FieldDefinition) : list string :=
  match relation field with
  | None => errors
  | Some rel =>
      match foreignKeyField rel with
      | None => errors
      | Some foreignKeyField =>
          if bool_decide (foreignKeyField = "") then errors
          else
            let value := prop row foreignKeyField in
            if nullish value && negb (isRequired field) then errors
            else
              match idMappings !! relatedTable rel with
              | None =>
                  errors ++ [noIdsMessage index foreignKeyField
                               (relatedTable rel)]
              | Some availableIds =>
                  if decide (length availableIds = 0%nat) then
                    errors ++ [noIdsMessage index foreignKeyField
                                 (relatedTable rel)]
                  else if decide (value ∈ availableIds) then errors
                  else
                    errors ++ [notFoundMessage index foreignKeyField value
                                 (relatedTable rel)]
              end
      end
  end.

(** Body of [rows.forEach((row, index) => ...)]. *)
Definition validateRow (tableSchema : TableDefinition)
    (errors : list string) (indexed : nat * Row) : list string :=
  foldl (validateField indexed.1 indexed.2) errors (fields tableSchema).

Definition validateReferentialIntegrity (rows : list Row)
    (tableSchema : TableDefinition) : list string :=
  foldl (validateRow tableSchema) [] (imap pair rows).
End validate.

End Validation.

Module Inserter.

(** The statements sent through [client.query]: the three transaction
    commands and the parameterised insert (with [ON CONFLICT DO NOTHING] and
    [RETURNING *]), given by its table, its columns and its bound values. *)
Inductive Query :=
  | BEGIN
  | COMMIT
  | ROLLBACK
  | INSERT (tableName : string) (columns : list string) (values : list Value).

Record QueryResult := {
  rowCount : option Z;
  rows : list Row;
}.

(** What the client does: a statement that was sent, or the release of the
    client to the pool. *)
Inductive Event :=
  | Sent (q : Query)
  | Released.

(** The destination store seen from the code: whether [pool.connect]
    fails, and the answer to the statement sent as the [n]-th one. *)
Record Database := {
  connectError : option JsError;
  respond : nat → Query → Completion QueryResult;
}.

(** Computations of the inserter: they extend the log of events and return
    or throw. *)
Definition M (A : Type) : Type := list Event → Completion A * list Event.

Definition ret {A} (a : A) : M A := λ log, (Returns a, log).

Definition throw {A} (e : JsError) : M A := λ log, (Throws e, log).

Definition bind {A B} (m : M A) (f : A → M B) : M B :=
  λ log,
    match m log with
    | (Returns a, log') => f a log'
    | (Throws e, log') => (Throws e, log')
    end.

Definition tryCatch {A} (m : M A) (handler : JsError → M A) : M A :=
  λ log,
    match m log with
    | (Returns a, log') => (Returns a, log')
    | (Throws e, log') => handler e log'
    end.

Definition finally {A} (m : M A) (cleanup : M unit) : M A :=
  λ log,
    match m log with
    | (c, log') =>
        match cleanup log' with
        | (Returns _, log'') => (c, log'')
        | (Throws e, log'') => (Throws e, log'')
        end
    end.

Notation "'let*' x ':=' m 'in' k" := (bind m (λ x, k))
  (at level 10, x name, m at level 100, k at level 200, only parsing).

Definition isSent (ev : Event) : bool :=
  match ev with
  | Sent _ => true
  | Released => false
  end.

(** The number of statements sent so far. *)
Definition sentCount (log : list Event) : nat :=
  length (filter (λ ev, isSent ev = true) log).

Section client.
Variable db : Database.

(** [await client.query(...)] *)
Definition query (q : Query) : M QueryResult :=
  λ log, (respond db (sentCount log) q, log ++ [Sent q]).

(** [client.release()] *)
Definition release : M unit := λ log, (Returns (), log ++ [Released]).

(** [await pool.connect()] *)
Definition connect : M unit :=
  match connectError db with
  | Some e => throw e
  | None => ret ()
  end.

(** The value bound for one cell. *)
Definition bindValue (value : Value) : Value :=
  match value with
  | VObject _ json => VStr json
  | _ => value
  end.

Definition emptyResult (tableName : string) : InsertResult :=
  {| resultTable := tableName; inserted := 0; failed := 0; errors := [];
     ids := [] |}.

(** [key.endsWith(suffix)] *)
Definition endsWith (key suffix : string) : bool :=
  let n := String.length key in
  let m := String.length suffix in
  if decide (m ≤ n)%nat then
    bool_decide (String.substring (n - m) m key = suffix)
  else false.

(** The key test of [Object.keys(firstRow).find]. *)
Definition isIdKey (key : string) : bool :=
  bool_decide (key = "id") || endsWith key "_id".

(** The identifiers harvested from the returned rows. *)
Definition harvestIds (returned : list Row) : list Value :=
  match returned with
  | [] => []
  | firstRow :: _ =>
      match List.find isIdKey (OMap.keys firstRow) with
      | Some idField => (λ r, prop r idField) <$> returned
      | None => []
      end
  end.

(** The statement [insertBatch] builds for a batch whose first row is
    [first]: the columns are the keys of the first row, the bound values
    those of every row under these columns. *)
Definition insertQuery (tableName : string) (first : Row)
    (batch : list Row) : Query :=
  let columns := OMap.keys first in
  INSERT tableName columns
    (concat ((λ row, (λ col, bindValue (prop row col)) <$> columns)
               <$> batch)).

Definition insertBatch (tableName : string) (batch : list Row)
  : M InsertResult :=
  match batch with
  | [] => ret (emptyResult tableName)
  | first :: _ =>
      let* queryResult := query (insertQuery tableName first batch) in
      let inserted := default 0 (rowCount queryResult) in
      let failed := Z.of_nat (length batch) - inserted in
      ret {| resultTable := tableName;
             inserted := inserted;
             failed := failed;
             errors :=
               if decide (0 < failed) then
                 [numberToString failed
                    +:+ " rows skipped due to conflicts (likely duplicates)"]
               else [];
             ids := harvestIds (rows queryResult) |}
  end.

(** The [for (let i = 0; i < rows.length; i += batchSize)] loop; [None]
    when the fuel runs out. *)
Fixpoint splitRows (fuel : nat) (all : list Row) (batchSize i : Z)
  : option (list (list Row)) :=
  if decide (i < Z.of_nat (length all)) then
    match fuel with
    | O => None
    | S fuel' =>
        (slice all i (i + batchSize) ::.)
          <$> splitRows fuel' all batchSize (i + batchSize)
    end
  else Some [].

(** One turn of [for (const batch of batches)], with its own handler. *)
Definition insertOne (tableName : string) (result : InsertResult)
    (batch : list Row) : M InsertResult :=
  tryCatch
    (let* batchResult := insertBatch tableName batch in
     ret {| resultTable := resultTable result;
            inserted := inserted result + inserted batchResult;
            failed := failed result + failed batchResult;
            errors := errors result ++ errors batchResult;
            ids := ids result ++ ids batchResult |})
    (λ error,
       ret {| resultTable := resultTable result;
              inserted := inserted result;
              failed := failed result + Z.of_nat (length batch);
              errors := errors result
                        ++ ["Batch failed: " +:+ errorToString error];
              ids := ids result |}).

Fixpoint insertAll (tableName : string) (result : InsertResult)
    (batches : list (list Row)) : M InsertResult :=
  match batches with
  | [] => ret result
  | batch :: batches' =>
      let* result' := insertOne tableName result batch in
      insertAll tableName result' batches'
  end.

(** [insertData]: [None] stands for a call whose batch splitting never
    ends. *)
Definition insertData (tableName : string) (all : list Row)
    (batchSize : Z) : option (M InsertResult) :=
  match all with
  | [] => Some (ret (emptyResult tableName))
  | _ =>
      batches ← splitRows (S (length all)) all batchSize 0;
      Some
        (let* client := connect in
         finally
           (tryCatch
              (let* began := query BEGIN in
               let* result :=
                 insertAll tableName (emptyResult tableName) batches in
               let* committed := query COMMIT in
               ret result)
              (λ error, let* rolledBack := query ROLLBACK in throw error))
           release)
  end.
End client.

End Inserter.

(** ** generators/ai.ts *)

Module Generator.

Record GenerationContext := {
  tableName : string;
  tableSchema : TableDefinition;
  count : Z;
}.

(** An identifier extracted from a row: a value of the row, or the object
    built for a composite key. *)
Inductive Identifier :=
  | Single (v : Value)
  | Composite (parts : OMap.t Value).

Record GenerationResult := {
  genTable : string;
  genRows : list Row;
  genIds : list Identifier;
}.

Definition getOptimalBatchSize (context : GenerationContext) : Z :=
  let fieldCount := Z.of_nat (length (fields (tableSchema context))) in
  if decide (15 < fieldCount) then 10
  else if decide (10 < fieldCount) then 20
  else 30.

(** The [while (remaining > 0)] loop of [generateWithOpenAI]; [None] when
    the fuel runs out. *)
Fixpoint splitCount (fuel : nat) (remaining batchSize : Z)
  : option (list Z) :=
  if decide (0 < remaining) then
    match fuel with
    | O => None
    | S fuel' =>
        let size := Z.min remaining batchSize in
        (size ::.) <$> splitCount fuel' (remaining - size) batchSize
    end
  else Some [].

(** The sizes of the batches [generateWithOpenAI] requests from
    [generateBatch], in order: the whole count when it does not exceed the
    batch size, otherwise the entries of the array [batches]. *)
Definition batchCounts (context : GenerationContext) : option (list Z) :=
  let batchSize := getOptimalBatchSize context in
  if decide (count context ≤ batchSize) then Some [count context]
  else splitCount (Z.to_nat (count context)) (count context) batchSize.

(** [rows.map((_, i) => i + 1)] *)
Definition sequentialIds (n : nat) : list Identifier :=
  (λ i, Single (VNum (Z.of_nat i + 1))) <$> seq 0 n.

Definition extractIds (rows : list Row) (schema : TableDefinition)
  : list Identifier :=
  let idFields := filter (λ f, isId f = true) (fields schema) in
  match idFields with
  | [] =>
      match rows with
      | first :: _ =>
          if decide (prop first "id" ≠ VUndefined) then
            (λ r, Single (prop r "id")) <$> rows
          else sequentialIds (length rows)
      | [] => sequentialIds (length rows)
      end
  | [idField] =>
      Single <$>
        filter (λ id, id ≠ VUndefined)
          ((λ r, prop r (fieldName idField)) <$> rows)
  | _ =>
      (λ r, Composite ((λ f, (fieldName f, prop r (fieldName f)))
                         <$> idFields)) <$> rows
  end.

(** What one request to the model leads to: the request fails, the reply
    has no content, its content is not JSON, the value selected from the
    parsed reply is not an array, or it is an array of rows. *)
Inductive Reply :=
  | RequestFails (e : JsError)
  | NoContent
  | NotJson (e : JsError)
  | NotAnArray
  | RowsArray (rows : list Row).

(** Body of the [try] block of one attempt. *)
Definition attemptOnce (context : GenerationContext) (count : Z)
    (reply : Reply) : Completion GenerationResult :=
  match reply with
  | RequestFails e => Throws e
  | NoContent =>
      Throws {| errName := "Error"; errMessage := "Empty response from AI" |}
  | NotJson e => Throws e
  | NotAnArray =>
      Throws {| errName := "Error"; errMessage := "Response is not an array" |}
  | RowsArray [] =>
      Throws {| errName := "Error"; errMessage := "Generated 0 rows" |}
  | RowsArray rows =>
      Returns {| genTable := tableName context;
                 genRows := slice rows 0 count;
                 genIds := extractIds rows (tableSchema context) |}
  end.

(** The [for (let attempt = 0; attempt < maxRetries; attempt++)] loop:
    [todo] attempts are left, [attempt] is the number of the next one. *)
Fixpoint attempts (replies : nat → Reply) (context : GenerationContext)
    (count : Z) (todo attempt : nat) (lastError : option JsError)
  : Completion GenerationResult :=
  match todo with
  | O =>
      Throws (default {| errName := "Error";
                         errMessage := "Failed to generate batch" |}
                lastError)
  | S todo' =>
      match attemptOnce context count (replies attempt) with
      | Returns r => Returns r
      | Throws e =>
          attempts replies context count todo' (S attempt) (Some e)
      end
  end.

(** [config.ai?.maxRetries || 3] *)
Definition retryLimit (maxRetries : option Z) : Z :=
  match maxRetries with
  | Some n => if decide (n = 0) then 3 else n
  | None => 3
  end.

(** [getOpenAIClient]: [cached] tells whether the module already holds a
    client, [apiKey] is [config.ai?.apiKey]. *)
Definition getOpenAIClient (cached : bool) (apiKey : option string)
  : Completion unit :=
  if cached then Returns ()
  else if truthy apiKey then Returns ()
  else Throws {| errName := "Error"; errMessage := "API key not provided" |}.

(** [generateBatch]; [maxRetries] is [config.ai?.maxRetries] and [replies]
    gives the outcome of each request in turn. *)
Definition generateBatch (cached : bool) (apiKey : option string)
    (replies : nat → Reply) (context : GenerationContext) (count : Z)
    (maxRetries : option Z) : Completion GenerationResult :=
  match getOpenAIClient cached apiKey with
  | Throws e => Throws e
  | Returns _ =>
      attempts replies context count (Z.to_nat (retryLimit maxRetries)) 0 None
  end.

End Generator.

(** ** Vocabulary of the statements *)

(** [Array.prototype.indexOf] *)
Definition indexOf (x : string) (l : list string) : option nat :=
  fst <$> list_find (λ y, y = x) l.

Module GraphSpec.
Import TopoSort.

(** The shape every graph built by [buildDependencyGraph] has: distinct
    keys, dependency lists without repetition, and [dependents] the converse
    of [dependencies] among the keys. *)
Record consistent (g : Graph) : Prop := {
  keys_nodup : NoDup (OMap.keys g);
  deps_nodup : ∀ n, NoDup (depsOf g n);
  dependents_nodup : ∀ n, NoDup (dependentsOf g n);
  dependents_spec : ∀ c m,
    m ∈ dependentsOf g c
    ↔ c ∈ OMap.keys g ∧ m ∈ OMap.keys g ∧ c ∈ depsOf g m;
}.

(** The graph after the first pass: distinct keys and empty nodes. *)
Definition blank (g : Graph) : Prop :=
  NoDup (OMap.keys g) ∧ ∀ n, depsOf g n = [] ∧ dependentsOf g n = [].

(** The table a field makes [tname] depend on: the related table of a
    relation that names a foreign-key field and is not a self-reference. *)
Definition edgeTarget (tname : string) (field : FieldDefinition)
  : option string :=
  match relation field with
  | Some rel =>
      if truthy (foreignKeyField rel) then
        if decide (relatedTable rel = tname) then None
        else Some (relatedTable rel)
      else None
  | None => None
  end.

(** [A] has a non-self foreign-key field referencing [B]. *)
Definition hasForeignKey (tables : list TableDefinition) (A B : string)
  : Prop :=
  ∃ t field, t ∈ tables ∧ name t = A ∧ field ∈ fields t
             ∧ edgeTarget A field = Some B.

(** [resolvable depth g n]: [n] is a key of the graph and so is everything
    it depends on, directly or not, along chains of fewer than [depth]
    tables; no such chain can then run into a cycle. *)
Fixpoint resolvable (depth : nat) (g : Graph) (n : string) : bool :=
  match depth with
  | O => false
  | S depth' =>
      match OMap.get g n with
      | None => false
      | Some node => forallb (resolvable depth' g) (dependencies node)
      end
  end.

(** Every name the depth-first search can meet: the keys of the graph and
    the entries of the dependency lists. *)
Definition universe (g : Graph) : gset string :=
  list_to_set
    (OMap.keys g ++ concat (map (λ kv, dependencies kv.2) g)).

(** The names the search has not visited yet. *)
Definition unvisited (g : Graph) (st : DfsState) : nat :=
  size (universe g ∖ visited st).

(** [a] depends on [b]: an edge of the graph. *)
Definition dependsOn (g : Graph) (a b : string) : Prop := b ∈ depsOf g a.

(** A cycle of dependency edges passes through [n]. *)
Definition onCycle (g : Graph) (n : string) : Prop := tc (dependsOn g) n n.

(** The dependencies of [n] that the order does not hold yet. *)
Definition pending (g : Graph) (ord : list string) (n : string)
  : list string :=
  filter (λ d, d ∉ ord) (depsOf g n).

(** The invariant of the queue loop of [topologicalSort]. *)
Record kahnInv (g : Graph) (queue ord : list string) (inDegree : OMap.t Z)
  : Prop := {
  inv_keys : OMap.keys inDegree = OMap.keys g;
  inv_degree : ∀ n, n ∈ OMap.keys g →
    OMap.get inDegree n = Some (Z.of_nat (length (pending g ord n)));
  inv_nodup : NoDup (ord ++ queue);
  inv_ready : ∀ n,
    n ∈ ord ++ queue ↔ n ∈ OMap.keys g ∧ pending g ord n = [];
  inv_sorted : ∀ i n d, ord !! i = Some n → d ∈ depsOf g n →
    ∃ j, (j < i)%nat ∧ ord !! j = Some d;
}.
(** [l] follows dependency edges: each table depends on the next one. *)
Fixpoint walk (g : Graph) (l : list string) : Prop :=
  match l with
  | a :: (b :: _) as rest => dependsOn g a b ∧ walk g rest
  | _ => True
  end.

(** A walk of distinct tables closed by a table it has already passed. *)
Definition lasso (g : Graph) (c : list string) : Prop :=
  ∃ q x, c = q ++ [x] ∧ NoDup q ∧ x ∈ q ∧ walk g c.

(** What a call of [dfs] on [node] from the state [st] leaves in [cycle]
    when it returns true. *)
Definition foundFrom (g : Graph) (st : DfsState) (node : string)
    (c : list string) : Prop :=
  ∃ q x, c = node :: q ++ [x]
         ∧ NoDup (node :: q)
         ∧ (∀ y, y ∈ node :: q → y ∉ visited st)
         ∧ (x ∈ node :: q ∨ x ∈ recStack st)
         ∧ walk g c.

(** The outcome of a call of [dfs] on [node] from [st]. *)
Definition dfsPost (g : Graph) (node : string) (st : DfsState)
    (b : bool) (st' : DfsState) : Prop :=
  if b then foundFrom g st node (cycle st')
  else cycle st' = [] ∧ recStack st' = recStack st
       ∧ visited st ⊆ visited st'.

(** The tables the search has left behind are resolvable: visited, no
    longer on the recursion stack. *)
Definition finished (g : Graph) (st : DfsState) : Prop :=
  ∀ v, v ∈ visited st → v ∉ recStack st →
       ∃ depth, resolvable depth g v = true.

(** Every dependency is a key of the graph. *)
Definition closed (g : Graph) : Prop :=
  ∀ n d, d ∈ depsOf g n → d ∈ OMap.keys g.

(** Every dependency of a table of a level lies in an earlier level. *)
Definition layered (g : Graph) (levels : list (list string)) : Prop :=
  ∀ k level n d,
    levels !! k = Some level → n ∈ level → d ∈ depsOf g n →
    ∃ j earlier, (j < k)%nat ∧ levels !! j = Some earlier ∧ d ∈ earlier.

End GraphSpec.

(** ** Sample schemas *)

Module Samples.

Definition relationTo (related fk : string) : RelationInfo :=
  {| relType := ManyToOne; relatedTable := related;
     foreignKeyField := Some fk; referencedField := Some "id";
     isNullable := false |}.

Definition scalar (n : string) : FieldDefinition :=
  {| fieldName := n; fieldType := TInt; isArray := false;
     isRequired := true; isUnique := false; isId := false;
     enumName := None; relation := None |}.

(** The relation field [n] towards [related], carried by the column
    [fk]. *)
Definition reference (n related fk : string) : FieldDefinition :=
  {| fieldName := n; fieldType := TString; isArray := false;
     isRequired := true; isUnique := false; isId := false;
     enumName := None; relation := Some (relationTo related fk) |}.

Definition tableOf (n : string) (fs : list FieldDefinition)
  : TableDefinition :=
  {| name := n; fields := fs; primaryKey := []; uniqueConstraints := [] |}.

(** User, and Post with a foreign key to User. *)
Definition blog : list TableDefinition :=
  [ tableOf "User" [scalar "id"];
    tableOf "Post" [scalar "id"; scalar "userId";
                    reference "user" "User" "userId"] ].

(** A and B mutually dependent, C depending on A. *)
Definition mutual : list TableDefinition :=
  [ tableOf "A" [reference "b" "B" "bId"];
    tableOf "B" [reference "a" "A" "aId"];
    tableOf "C" [reference "a" "A" "aId"] ].

(** A and B free; Q depends on A, B and P; P on Q and R; R on P. *)
Definition entangled : list TableDefinition :=
  [ tableOf "A" [];
    tableOf "B" [];
    tableOf "Q" [reference "a" "A" "aId"; reference "b" "B" "bId";
                 reference "p" "P" "pId"];
    tableOf "P" [reference "q" "Q" "qId"; reference "r" "R" "rId"];
    tableOf "R" [reference "p" "P" "pId"] ].

(** A depends on B, B on X, and X and Y on each other. *)
Definition downstream : list TableDefinition :=
  [ tableOf "A" [reference "b" "B" "bId"];
    tableOf "B" [reference "x" "X" "xId"];
    tableOf "X" [reference "y" "Y" "yId"];
    tableOf "Y" [reference "x" "X" "xId"] ].

(** Post alone, its foreign key pointing at a table left out of the
    run. *)
Definition orphan : list TableDefinition :=
  [ tableOf "Post" [scalar "id"; scalar "authorId";
                    reference "author" "User" "authorId"] ].

(** A category tree: Category refers to itself, Item to Category. *)
Definition tree : list TableDefinition :=
  [ tableOf "Category" [scalar "id"; scalar "parentId";
                        reference "parent" "Category" "parentId"];
    tableOf "Item" [scalar "id"; reference "category" "Category" "catId"] ].

End Samples.

Module TransformerSpec.
Import Transformer.

(** The column a field makes the transformer rewrite: the foreign-key
    field of its relation, when the relation names one. *)
Definition fkColumn (field : FieldDefinition) : option string :=
  match relation field with
  | Some rel =>
      match foreignKeyField rel with
      | Some fk => if bool_decide (fk = "") then None else Some fk
      | None => None
      end
  | None => None
  end.

(** [w'] differs from [w] at most in the property [key] of the object at
    [loc]. *)
Definition sameExcept (loc : nat) (key : string) (w w' : World) : Prop :=
  length (heap w') = length (heap w)
  ∧ (∀ l, l ≠ loc → heap w' !! l = heap w !! l)
  ∧ (∀ k, k ≠ key → read loc k w' = read loc k w).

(** [w'] differs from [w] at most in the object at [loc], and there only
    in properties that are foreign-key columns of [fs]. *)
Definition sameOutside (loc : nat) (fs : list FieldDefinition)
    (w w' : World) : Prop :=
  length (heap w') = length (heap w)
  ∧ (∀ l, l ≠ loc → heap w' !! l = heap w !! l)
  ∧ (∀ k, (∀ f, f ∈ fs → fkColumn f ≠ Some k) →
          read loc k w' = read loc k w).

Definition zero : UnitFraction := {| numer := 0; slack := 0 |}.

Definition userIds : IdMappings := {[ "User" := [VNum 10; VNum 20; VNum 30] ]}.

(** A Post table whose relation [user] is carried by [userId]. *)
Definition postSchema : TableDefinition :=
  Samples.tableOf "Post"
    [Samples.scalar "userId"; Samples.reference "user" "User" "userId"].

(** A store holding the single row [{title: "hello", userId: v}]. *)
Definition oneRow (v : Value) : World :=
  {| heap := [[("title", VStr "hello"); ("userId", v)]];
     randomCalls := 0 |}.

(** Two relations, towards User and towards Group, carried by the same
    column [ownerId]. *)
Definition sharedColumnSchema : TableDefinition :=
  Samples.tableOf "Membership"
    [Samples.reference "owner" "User" "ownerId";
     Samples.reference "group" "Group" "ownerId"].

Definition sharedColumnIds : IdMappings :=
  {[ "User" := [VNum 10]; "Group" := [VNum 7] ]}.

Definition sharedColumnWorld : World :=
  {| heap := [[("ownerId", VNum 10)]]; randomCalls := 0 |}.

(** Candidate lists in which an identifier of User is itself a placeholder
    text. *)
Definition placeholderIds : IdMappings :=
  {[ "User" := [VStr "{{Post_1}}"]; "Post" := [VNum 5] ]}.

(** A row the transformer has nothing to do on: each foreign-key column is
    null or undefined, or holds a value that is no text with two opening
    braces and that the candidate list of the related table, when there is a
    non-empty one, contains. *)
Definition settled (idMappings : IdMappings) (tableSchema : TableDefinition)
    (row : Row) : Prop :=
  ∀ f rel fk,
    f ∈ fields tableSchema → relation f = Some rel → fkColumn f = Some fk →
    nullish (prop row fk) = true
    ∨ ((∀ text, prop row fk = VStr text → includesBraces text = false)
       ∧ ∀ ids, idMappings !! relatedTable rel = Some ids →
                ids = [] ∨ prop row fk ∈ ids).

(** What the validation accepts in the foreign-key column of [field]: a
    null or undefined value when the field is not required, or a member of
    the candidate list of the related table. *)
Definition acceptable (idMappings : IdMappings) (row : Row)
    (field : FieldDefinition) : Prop :=
  ∀ rel fk,
    relation field = Some rel → fkColumn field = Some fk →
    (nullish (prop row fk) = true ∧ isRequired field = false)
    ∨ ∃ ids, idMappings !! relatedTable rel = Some ids ∧ prop row fk ∈ ids.

(** Every character of [s] is in the class [p]. *)
Fixpoint every (p : ascii → bool) (s : string) : bool :=
  match s with
  | String c s' => p c && every p s'
  | EmptyString => true
  end.

(** The text of a placeholder for the table [T], the separator [sep] and
    the index written [D], followed by [rest]. *)
Definition placeholderText (T : string) (sep : ascii) (D rest : string)
  : string :=
  "{{" +:+ T +:+ String sep (D +:+ "}}" +:+ rest).

(** Two users a post may refer to, a post table with an optional author. *)
Definition optionalAuthor : TableDefinition :=
  Samples.tableOf "Post"
    [Samples.scalar "id";
     {| fieldName := "author"; fieldType := TString; isArray := false;
        isRequired := false; isUnique := false; isId := false;
        enumName := None;
        relation := Some (Samples.relationTo "User" "authorId") |}].

(** Three posts: one by a known user, one with an unknown author, one
    without author. *)
Definition threePosts : World :=
  {| heap := [[("id", VNum 1); ("authorId", VNum 20)];
              [("id", VNum 2); ("authorId", VNum 999)];
              [("id", VNum 3); ("authorId", VNull)]];
     randomCalls := 0 |}.
End TransformerSpec.

Module InserterSpec.
Import Inserter.

(** The answer of the store to the statement of a batch sent as the
    [k]-th statement. *)
Definition answer (db : Database) (tableName : string) (k : nat)
    (batch : list Row) : Completion QueryResult :=
  match batch with
  | [] => Returns {| rowCount := None; rows := [] |}
  | first :: _ => respond db k (insertQuery tableName first batch)
  end.

(** The statements of the batches, as events. *)
Definition statements (tableName : string) (batches : list (list Row))
  : list Event :=
  (λ batch, Sent (insertQuery tableName (default [] (head batch)) batch))
    <$> batches.

(** The identifiers harvested from the batches, the first of which is
    sent as the [k]-th statement. *)
Fixpoint harvested (db : Database) (tableName : string) (k : nat)
    (batches : list (list Row)) : list Value :=
  match batches with
  | [] => []
  | batch :: batches' =>
      match answer db tableName k batch with
      | Returns queryResult => harvestIds (rows queryResult)
      | Throws _ => []
      end ++ harvested db tableName (S k) batches'
  end.

(** The rows reported as inserted. *)
Fixpoint insertedRows (db : Database) (tableName : string) (k : nat)
    (batches : list (list Row)) : Z :=
  match batches with
  | [] => 0
  | batch :: batches' =>
      match answer db tableName k batch with
      | Returns queryResult => default 0 (rowCount queryResult)
      | Throws _ => 0
      end + insertedRows db tableName (S k) batches'
  end.

(** The rows counted as failed: skipped by the conflict clause, or all the
    rows of a batch whose statement raised. *)
Fixpoint failedRows (db : Database) (tableName : string) (k : nat)
    (batches : list (list Row)) : Z :=
  match batches with
  | [] => 0
  | batch :: batches' =>
      match answer db tableName k batch with
      | Returns queryResult =>
          Z.of_nat (length batch) - default 0 (rowCount queryResult)
      | Throws _ => Z.of_nat (length batch)
      end + failedRows db tableName (S k) batches'
  end.

(** The messages recorded: a note for a batch with skipped rows, the
    error of a batch whose statement raised. *)
Fixpoint messages (db : Database) (tableName : string) (k : nat)
    (batches : list (list Row)) : list string :=
  match batches with
  | [] => []
  | batch :: batches' =>
      match answer db tableName k batch with
      | Returns queryResult =>
          let skipped :=
            Z.of_nat (length batch) - default 0 (rowCount queryResult) in
          if decide (0 < skipped) then
            [numberToString skipped
               +:+ " rows skipped due to conflicts (likely duplicates)"]
          else []
      | Throws e => ["Batch failed: " +:+ errorToString e]
      end ++ messages db tableName (S k) batches'
  end.

(** What [insertData] does once the client is connected, in terms of the
    answers to BEGIN and COMMIT alone. *)
Definition transactionOutcome (db : Database) (tableName : string)
    (batches : list (list Row))
    (run : Completion InsertResult * list Event) : Prop :=
  match respond db 0 BEGIN with
  | Throws e =>
      run = (match respond db 1 ROLLBACK with
             | Returns _ => Throws e
             | Throws e' => Throws e'
             end,
             [Sent BEGIN; Sent ROLLBACK; Released])
  | Returns _ =>
      match respond db (S (length batches)) COMMIT with
      | Returns _ =>
          run = (Returns
                   {| resultTable := tableName;
                      inserted := insertedRows db tableName 1 batches;
                      failed := failedRows db tableName 1 batches;
                      errors := messages db tableName 1 batches;
                      ids := harvested db tableName 1 batches |},
                 [Sent BEGIN] ++ statements tableName batches
                 ++ [Sent COMMIT; Released])
      | Throws e =>
          run = (match respond db (S (S (length batches))) ROLLBACK with
                 | Returns _ => Throws e
                 | Throws e' => Throws e'
                 end,
                 [Sent BEGIN] ++ statements tableName batches
                 ++ [Sent COMMIT; Sent ROLLBACK; Released])
      end
  end.

(** [key] is named exactly [id], or its name ends with [_id]. *)
Definition idLike (key : string) : Prop :=
  key = "id" ∨ ∃ before, key = before +:+ "_id".

Definition boom : JsError := {| errName := "error"; errMessage := "boom" |}.

Definition accepted : Completion QueryResult :=
  Returns {| rowCount := None; rows := [] |}.

(** A store on which every insert raises and everything else succeeds. *)
Definition rejecting : Database :=
  {| connectError := None;
     respond := λ _ q, match q with
                       | INSERT _ _ _ => Throws boom
                       | _ => accepted
                       end |}.

(** A store that returns the inserted rows of every insert as [returned]. *)
Definition returning (returned : list Row) : Database :=
  {| connectError := None;
     respond := λ _ q,
       match q with
       | INSERT _ _ _ =>
           Returns {| rowCount := Some (Z.of_nat (length returned));
                      rows := returned |}
       | _ => accepted
       end |}.

(** Rows as a store returns them, without and with identifier columns. *)
Definition plainRows : list Row :=
  [ [("uuid", VStr "a"); ("name", VStr "x")];
    [("uuid", VStr "b"); ("name", VStr "y")] ].

Definition keyedRows : list Row :=
  [ [("name", VStr "x"); ("user_id", VNum 5); ("id", VNum 1)];
    [("name", VStr "y"); ("user_id", VNum 6); ("id", VNum 2)] ].
End InserterSpec.

Module GeneratorSpec.
Import Generator.

(** A table with [n] scalar fields. *)
Definition wide (n : nat) : TableDefinition :=
  {| name := "Wide";
     fields :=
       replicate n
         {| fieldName := "c"; fieldType := TString; isArray := false;
            isRequired := false; isUnique := false; isId := false;
            enumName := None; relation := None |};
     primaryKey := []; uniqueConstraints := [] |}.

Definition request (n : nat) (rows : Z) : GenerationContext :=
  {| tableName := "Wide"; tableSchema := wide n; count := rows |}.

(** A reply with three rows. *)
Definition threeRows : list Row :=
  [ [("c", VStr "x")]; [("c", VStr "y")]; [("c", VStr "z")] ].

(** The number of rows a list of batch sizes asks for. *)
Definition total (sizes : list Z) : Z := foldr Z.add 0 sizes.

(** The error thrown when no attempt was made. *)
Definition noAttempt : JsError :=
  {| errName := "Error"; errMessage := "Failed to generate batch" |}.

(** The error of the last of [limit] requests, when it fails. *)
Definition lastFailure (replies : nat → Reply) (context : GenerationContext)
    (count : Z) (limit : nat) : option JsError :=
  match limit with
  | O => Some noAttempt
  | S k =>
      match attemptOnce context count (replies k) with
      | Throws e => Some e
      | Returns _ => None
      end
  end.

(** A table whose only identifier field is [id]. *)
Definition keyed : TableDefinition :=
  {| name := "Keyed";
     fields :=
       [ {| fieldName := "id"; fieldType := TInt; isArray := false;
            isRequired := true; isUnique := true; isId := true;
            enumName := None; relation := None |} ];
     primaryKey := ["id"]; uniqueConstraints := [] |}.
End GeneratorSpec.


(** * Properties *)

(** ** Lists *)

Section list_facts.
Context {A : Type}.

Lemma filter_ext_in (P Q : A → Prop) `{!∀ x, Decision (P x)}
    `{!∀ x, Decision (Q x)} (l : list A) :
  (∀ x, x ∈ l → P x ↔ Q x) → filter P l = filter Q l.
Proof.
  induction l as [|a l IH]; intros Hall; [done|].
  rewrite !filter_cons.
  assert (Ha : P a ↔ Q a) by (apply Hall, elem_of_cons; by left).
  rewrite IH by (intros x Hx; apply Hall, elem_of_cons; by right).
  destruct (decide (P a)), (decide (Q a)); tauto.
Qed.

Lemma filter_all (P : A → Prop) `{!∀ x, Decision (P x)} (l : list A) :
  (∀ x, x ∈ l → P x) → filter P l = l.
Proof.
  induction l as [|a l IH]; intros Hall; [done|].
  rewrite filter_cons, decide_True by (apply Hall, elem_of_cons; by left).
  rewrite IH; [done|]. intros x Hx. apply Hall, elem_of_cons. by right.
Qed.

Lemma filter_nil_iff (P : A → Prop) `{!∀ x, Decision (P x)} (l : list A) :
  filter P l = [] ↔ ∀ x, x ∈ l → ¬ P x.
Proof.
  split.
  - intros Hnil x Hx HP.
    assert (Hin : x ∈ filter P l) by by apply list_elem_of_filter.
    rewrite Hnil in Hin. by apply elem_of_nil in Hin.
  - intros Hall. destruct (filter P l) as [|a k] eqn:E; [done|].
    assert (Hin : a ∈ filter P l) by (rewrite E; apply elem_of_cons; by left).
    apply list_elem_of_filter in Hin as [HP Hin]. by destruct (Hall a Hin).
Qed.

Lemma length_filter_remove `{!EqDecision A} (x : A) (l : list A) :
  NoDup l → x ∈ l → S (length (filter (λ y, y ≠ x) l)) = length l.
Proof.
  induction l as [|a l IH]; intros Hnd Hin; [by apply elem_of_nil in Hin|].
  apply NoDup_cons in Hnd as [Ha Hnd]. rewrite filter_cons. simpl.
  destruct (decide (a = x)) as [->|Hne].
  - rewrite decide_False by tauto.
    rewrite filter_all; [done|]. intros y Hy ->. done.
  - rewrite decide_True by done. simpl. f_equal. apply IH; [done|].
    apply elem_of_cons in Hin as [?|?]; [congruence | done].
Qed.
End list_facts.

(** ** Insertion-ordered maps *)

Section omap_facts.
Context {V : Type}.
Implicit Types (m : OMap.t V) (k : string) (v : V).

Lemma omap_get_set_eq m k v : OMap.get (OMap.set m k v) k = Some v.
Proof.
  induction m as [|[k' v'] m IH]; simpl.
  - by rewrite decide_True.
  - destruct (decide (k' = k)) as [->|Hne]; simpl.
    + by rewrite decide_True.
    + by rewrite decide_False.
Qed.

Lemma omap_get_set_ne m k k' v :
  k ≠ k' → OMap.get (OMap.set m k v) k' = OMap.get m k'.
Proof.
  intros Hne. induction m as [|[k0 v0] m IH]; simpl.
  - by rewrite decide_False.
  - destruct (decide (k0 = k)) as [->|Hne0]; simpl.
    + by rewrite !decide_False.
    + destruct (decide (k0 = k')); auto.
Qed.

Lemma omap_get_None m k : OMap.get m k = None ↔ k ∉ OMap.keys m.
Proof.
  unfold OMap.keys. induction m as [|[k' v'] m IH]; simpl.
  - split; [intros _; apply not_elem_of_nil | done].
  - rewrite not_elem_of_cons. destruct (decide (k' = k)) as [->|Hne].
    + split; [done | intros [? _]; done].
    + rewrite IH. split; [intros ?; split; [congruence | done] | tauto].
Qed.

Lemma omap_get_is_Some m k : is_Some (OMap.get m k) ↔ k ∈ OMap.keys m.
Proof.
  rewrite <- not_eq_None_Some, omap_get_None.
  split; [apply dec_stable | auto].
Qed.

Lemma omap_get_Some_key m k v : OMap.get m k = Some v → k ∈ OMap.keys m.
Proof. intros H. apply omap_get_is_Some. eauto. Qed.

Lemma omap_keys_set_in m k v :
  k ∈ OMap.keys m → OMap.keys (OMap.set m k v) = OMap.keys m.
Proof.
  unfold OMap.keys. induction m as [|[k' v'] m IH]; simpl.
  - intros H. by apply elem_of_nil in H.
  - intros H. destruct (decide (k' = k)) as [->|Hne]; simpl; [done|].
    f_equal. apply IH. apply elem_of_cons in H as [?|?]; [congruence | done].
Qed.

Lemma omap_keys_set_notin m k v :
  k ∉ OMap.keys m → OMap.keys (OMap.set m k v) = OMap.keys m ++ [k].
Proof.
  unfold OMap.keys. induction m as [|[k' v'] m IH]; simpl; [done|].
  rewrite not_elem_of_cons. intros [Hne Hnin].
  rewrite decide_False by congruence. simpl. f_equal. by apply IH.
Qed.

Lemma omap_keys_set_nodup m k v :
  NoDup (OMap.keys m) → NoDup (OMap.keys (OMap.set m k v)).
Proof.
  intros Hnd. destruct (decide (k ∈ OMap.keys m)) as [Hin|Hnin].
  - by rewrite omap_keys_set_in.
  - rewrite omap_keys_set_notin by done.
    apply NoDup_app. split_and!; [done | | apply NoDup_singleton].
    intros x Hx Hx'. apply list_elem_of_singleton in Hx'. by subst.
Qed.

Lemma omap_get_elem_of m k v :
  OMap.get m k = Some v → (k, v) ∈ m.
Proof.
  induction m as [|[k' v'] m IH]; simpl; [done|].
  destruct (decide (k' = k)) as [->|Hne].
  - intros [= ->]. apply elem_of_cons. by left.
  - intros H. apply elem_of_cons. right. auto.
Qed.

Lemma omap_elem_of_get m k v :
  NoDup (OMap.keys m) → (k, v) ∈ m → OMap.get m k = Some v.
Proof.
  unfold OMap.keys. induction m as [|[k' v'] m IH]; simpl.
  - intros _ H. by apply elem_of_nil in H.
  - rewrite NoDup_cons. intros [Hnin Hnd] H.
    apply elem_of_cons in H as [[= <- <-]|H].
    + by rewrite decide_True.
    + destruct (decide (k' = k)) as [->|Hne]; [|by apply IH].
      exfalso. apply Hnin. apply list_elem_of_fmap. by exists (k, v).
Qed.
End omap_facts.

(** ** The dependency graph *)

Section graph_facts.
Import TopoSort GraphSpec.
Implicit Types (g : Graph) (n c m : string) (nd : DependencyNode).

Lemma depsOf_set g k nd n :
  depsOf (OMap.set g k nd) n
  = if decide (k = n) then dependencies nd else depsOf g n.
Proof.
  unfold depsOf. destruct (decide (k = n)) as [->|Hne].
  - by rewrite omap_get_set_eq.
  - by rewrite omap_get_set_ne.
Qed.

Lemma dependentsOf_set g k nd c :
  dependentsOf (OMap.set g k nd) c
  = if decide (k = c) then dependents nd else dependentsOf g c.
Proof.
  unfold dependentsOf. destruct (decide (k = c)) as [->|Hne].
  - by rewrite omap_get_set_eq.
  - by rewrite omap_get_set_ne.
Qed.

Lemma depsOf_get g n nd : OMap.get g n = Some nd → depsOf g n = dependencies nd.
Proof. unfold depsOf. by intros ->. Qed.

Lemma dependentsOf_get g n nd :
  OMap.get g n = Some nd → dependentsOf g n = dependents nd.
Proof. unfold dependentsOf. by intros ->. Qed.

Lemma depsOf_not_key g n : n ∉ OMap.keys g → depsOf g n = [].
Proof. intros H. apply omap_get_None in H. unfold depsOf. by rewrite H. Qed.

(** *** First pass: one empty node per table name *)

Lemma initNode_blank g t : blank g → blank (initNode g t).
Proof.
  intros [Hnd Hempty]. split.
  - by apply omap_keys_set_nodup.
  - intros n. unfold initNode. rewrite depsOf_set, dependentsOf_set.
    destruct (decide (name t = n)); simpl; auto.
Qed.

Lemma initNode_keys g t x :
  x ∈ OMap.keys (initNode g t) ↔ x ∈ OMap.keys g ∨ x = name t.
Proof.
  unfold initNode. destruct (decide (name t ∈ OMap.keys g)) as [Hin|Hnin].
  - rewrite omap_keys_set_in by done. split; [auto | intros [?| ->]; done].
  - rewrite omap_keys_set_notin by done.
    rewrite elem_of_app, list_elem_of_singleton. done.
Qed.

Lemma init_fold_blank tables g :
  blank g → blank (foldl initNode g tables).
Proof.
  revert g. induction tables as [|t tables IH]; simpl; intros g Hg; [done|].
  apply IH. by apply initNode_blank.
Qed.

Lemma init_fold_keys tables g x :
  x ∈ OMap.keys (foldl initNode g tables)
  ↔ x ∈ OMap.keys g ∨ x ∈ name <$> tables.
Proof.
  revert g. induction tables as [|t tables IH]; simpl; intros g.
  - split; [auto | intros [?|H]; [done | by apply elem_of_nil in H]].
  - rewrite IH, initNode_keys, elem_of_cons. tauto.
Qed.

Lemma init_fold_keys_nodup tables g :
  NoDup (OMap.keys g ++ (name <$> tables)) →
  OMap.keys (foldl initNode g tables) = OMap.keys g ++ (name <$> tables).
Proof.
  revert g. induction tables as [|t tables IH]; simpl; intros g Hnd.
  - by rewrite app_nil_r.
  - assert (Hnin : name t ∉ OMap.keys g).
    { apply NoDup_app in Hnd as (_ & Hdis & _). intros Hin.
      apply (Hdis _ Hin). apply elem_of_cons. by left. }
    assert (Hk : OMap.keys (initNode g t) = OMap.keys g ++ [name t]).
    { unfold initNode. by rewrite omap_keys_set_notin. }
    rewrite IH; rewrite Hk, <- app_assoc; done.
Qed.

Lemma blank_consistent g : blank g → consistent g.
Proof.
  intros [Hnd Hempty]. split; [done | | |].
  - intros n. destruct (Hempty n) as [-> _]. apply NoDup_nil_2.
  - intros n. destruct (Hempty n) as [_ ->]. apply NoDup_nil_2.
  - intros c m. destruct (Hempty c) as [_ ->]. destruct (Hempty m) as [-> _].
    split; [intros H | intros (_ & _ & H)]; by apply elem_of_nil in H.
Qed.

(** *** Second pass: one edge per foreign key *)

Lemma addEdge_skip tname g field :
  edgeTarget tname field = None → addEdge tname g field = g.
Proof.
  unfold edgeTarget, addEdge. destruct (relation field) as [rel|]; [|done].
  destruct (truthy _); [|done]. by destruct (decide _).
Qed.

Lemma addEdge_link tname g field related :
  edgeTarget tname field = Some related →
  consistent g → tname ∈ OMap.keys g →
  OMap.keys (addEdge tname g field) = OMap.keys g
  ∧ (∀ n, depsOf (addEdge tname g field) n
          = if decide (n = tname ∧ related ∉ depsOf g tname)
            then depsOf g tname ++ [related] else depsOf g n)
  ∧ (∀ c, dependentsOf (addEdge tname g field) c
          = if decide (c = related ∧ related ∈ OMap.keys g
                       ∧ related ∉ depsOf g tname)
            then dependentsOf g related ++ [tname] else dependentsOf g c).
Proof.
  intros Het Hc Hin. unfold edgeTarget in Het. unfold addEdge.
  destruct (relation field) as [rel|]; [|done].
  destruct (truthy _); [|done].
  destruct (decide (relatedTable rel = tname)) as [|Hne]; [done|].
  injection Het as Het. rewrite Het in *. clear Het.
  pose proof Hin as Hin'.
  apply omap_get_is_Some in Hin' as [node Hnode]. rewrite Hnode.
  pose proof (depsOf_get _ _ _ Hnode) as Hdeps.
  pose proof (dependents_spec g Hc related tname) as Hspec.
  unfold includes. case_bool_decide as Hdep.
  - (* the dependency is already recorded *)
    rewrite <- Hdeps in Hdep.
    destruct (OMap.get g related) as [rnode|] eqn:Hrel.
    + pose proof (dependentsOf_get _ _ _ Hrel) as Hdpts.
      rewrite bool_decide_true.
      2:{ rewrite <- Hdpts. apply Hspec. split_and!; [|done..].
          by apply omap_get_Some_key in Hrel. }
      split_and!; [done|intros n|intros c]; by rewrite decide_False by tauto.
    + split_and!; [done|intros n|intros c]; by rewrite decide_False by tauto.
  - rewrite <- Hdeps in Hdep.
    rewrite omap_get_set_ne by done.
    destruct (OMap.get g related) as [rnode|] eqn:Hrel.
    + pose proof (dependentsOf_get _ _ _ Hrel) as Hdpts.
      pose proof (omap_get_Some_key _ _ _ Hrel) as Hkey.
      rewrite bool_decide_false.
      2:{ rewrite <- Hdpts. rewrite Hspec. tauto. }
      split_and!.
      * rewrite !omap_keys_set_in; [done..|].
        by rewrite omap_keys_set_in.
      * intros n. rewrite !depsOf_set. simpl.
        destruct (decide (related = n)) as [<-|Hn].
        -- rewrite decide_False by (intros [? _]; congruence).
           symmetry. by apply depsOf_get.
        -- destruct (decide (tname = n)) as [<-|Hn'].
           ++ rewrite decide_True by done. by rewrite Hdeps.
           ++ by rewrite decide_False by (intros [? _]; congruence).
      * intros c. rewrite !dependentsOf_set. simpl.
        destruct (decide (related = c)) as [<-|Hn].
        -- rewrite decide_True by done. by rewrite Hdpts.
        -- rewrite (decide_False (P := _ ∧ _)) by (intros [? _]; congruence).
           destruct (decide (tname = c)) as [<-|Hn']; [|done].
           symmetry. by apply dependentsOf_get.
    + assert (Hkey : related ∉ OMap.keys g) by by apply omap_get_None.
      split_and!.
      * by rewrite omap_keys_set_in.
      * intros n. rewrite depsOf_set. simpl.
        destruct (decide (tname = n)) as [<-|Hn'].
        -- rewrite decide_True by done. by rewrite Hdeps.
        -- by rewrite decide_False by (intros [? _]; congruence).
      * intros c. rewrite dependentsOf_set. simpl.
        rewrite (decide_False (P := _ ∧ _)) by tauto.
        destruct (decide (tname = c)) as [<-|Hn']; [|done].
        symmetry. by apply dependentsOf_get.
Qed.

Lemma edgeTarget_ne tname field related :
  edgeTarget tname field = Some related → related ≠ tname.
Proof.
  unfold edgeTarget. destruct (relation field) as [rel|]; [|done].
  destruct (truthy _); [|done].
  destruct (decide _); [done|]. by intros [= <-].
Qed.

Lemma addEdge_consistent tname g field :
  consistent g → tname ∈ OMap.keys g →
  consistent (addEdge tname g field)
  ∧ OMap.keys (addEdge tname g field) = OMap.keys g
  ∧ ∀ n x, x ∈ depsOf (addEdge tname g field) n
           ↔ x ∈ depsOf g n ∨ (n = tname ∧ edgeTarget tname field = Some x).
Proof.
  intros Hc Hin. destruct (edgeTarget tname field) as [related|] eqn:Het.
  2:{ rewrite addEdge_skip by done. split_and!; [done..|]. naive_solver. }
  destruct (addEdge_link _ _ _ _ Het Hc Hin) as (Hkeys & Hdeps & Hdpts).
  pose proof (edgeTarget_ne _ _ _ Het) as Hne.
  destruct Hc as [Hnd Hdn Hrn Hspec].
  split_and!; [split | done |].
  - by rewrite Hkeys.
  - intros n. rewrite Hdeps.
    destruct (decide (n = tname ∧ _)) as [[-> Hnew]|_]; [|apply Hdn].
    apply NoDup_app. split_and!; [apply Hdn| |].
    + intros x Hx Hx'. apply list_elem_of_singleton in Hx'. by subst.
    + apply NoDup_singleton.
  - intros c. rewrite Hdpts.
    destruct (decide (c = related ∧ _)) as [(-> & Hkey & Hnew)|_];
      [|apply Hrn].
    apply NoDup_app. split_and!; [apply Hrn| |apply NoDup_singleton].
    intros x Hx Hx'. apply list_elem_of_singleton in Hx'. subst.
    apply Hspec in Hx. tauto.
  - intros c m. rewrite Hkeys, Hdpts, Hdeps. clear Hdpts Hdeps.
    destruct (decide (c = related ∧ _)); destruct (decide (m = tname ∧ _));
      rewrite ?elem_of_app, ?list_elem_of_singleton, ?Hspec; naive_solver.
  - intros n x. rewrite Hdeps.
    destruct (decide (n = tname ∧ _));
      rewrite ?elem_of_app, ?list_elem_of_singleton.
    + naive_solver.
    + split; [auto|]. intros [?|[-> [= ->]]]; [done|].
      destruct (decide (x ∈ depsOf g tname)); [done|]. tauto.
Qed.

Lemma addTableEdges_consistent g t :
  consistent g → name t ∈ OMap.keys g →
  consistent (addTableEdges g t)
  ∧ OMap.keys (addTableEdges g t) = OMap.keys g
  ∧ ∀ n x, x ∈ depsOf (addTableEdges g t) n
           ↔ x ∈ depsOf g n
             ∨ (n = name t
                ∧ ∃ field, field ∈ fields t
                           ∧ edgeTarget (name t) field = Some x).
Proof.
  unfold addTableEdges. generalize (name t) as tname. intros tname.
  revert g. induction (fields t) as [|f fs IH]; simpl; intros g Hc Hin.
  - split_and!; [done..|]. intros n x. split; [auto|].
    intros [?|(_ & f & Hf & _)]; [done|]. by apply elem_of_nil in Hf.
  - destruct (addEdge_consistent tname g f Hc Hin) as (Hc1 & Hk1 & Hd1).
    destruct (IH (addEdge tname g f)) as (Hc2 & Hk2 & Hd2);
      [done | by rewrite Hk1 |].
    split_and!; [done | by rewrite Hk2 |].
    intros n x. rewrite Hd2, Hd1. setoid_rewrite elem_of_cons.
    naive_solver.
Qed.

Lemma edges_fold_consistent tables g :
  consistent g → (∀ t, t ∈ tables → name t ∈ OMap.keys g) →
  consistent (foldl addTableEdges g tables)
  ∧ OMap.keys (foldl addTableEdges g tables) = OMap.keys g
  ∧ ∀ n x, x ∈ depsOf (foldl addTableEdges g tables) n
           ↔ x ∈ depsOf g n ∨ hasForeignKey tables n x.
Proof.
  revert g. induction tables as [|t tables IH]; simpl; intros g Hc Hin.
  - split_and!; [done..|]. intros n x. split; [auto|].
    intros [?|(t & f & Ht & _)]; [done|]. by apply elem_of_nil in Ht.
  - destruct (addTableEdges_consistent g t Hc) as (Hc1 & Hk1 & Hd1).
    { apply Hin. apply elem_of_cons. by left. }
    destruct (IH (addTableEdges g t)) as (Hc2 & Hk2 & Hd2); [done | |].
    { intros t' Ht'. rewrite Hk1. apply Hin. apply elem_of_cons. by right. }
    split_and!; [done | by rewrite Hk2 |].
    intros n x. rewrite Hd2, Hd1. unfold hasForeignKey.
    setoid_rewrite elem_of_cons. split.
    + intros [[?|(-> & f & Hf & Het)]|(t' & f & Ht' & Hrest)]; [by left | |].
      * right. exists t, f. auto.
      * right. exists t', f. auto.
    + intros [?|(t' & f & [->|Ht'] & <- & Hf & Het)]; [by left; left | |].
      * left. right. eauto.
      * right. exists t', f. auto.
Qed.

(** The graph built from a list of tables is consistent, its keys are the
    table names, and its dependency lists hold exactly the targets of the
    non-self foreign keys. *)
Lemma buildDependencyGraph_consistent tables :
  consistent (buildDependencyGraph tables)
  ∧ (∀ x, x ∈ OMap.keys (buildDependencyGraph tables) ↔ x ∈ name <$> tables)
  ∧ (NoDup (name <$> tables) →
     OMap.keys (buildDependencyGraph tables) = name <$> tables)
  ∧ ∀ n x, x ∈ depsOf (buildDependencyGraph tables) n
           ↔ hasForeignKey tables n x.
Proof.
  unfold buildDependencyGraph.
  assert (Hblank : blank (foldl initNode [] tables)).
  { apply init_fold_blank. split; [apply NoDup_nil_2 | done]. }
  destruct (edges_fold_consistent tables (foldl initNode [] tables))
    as (Hc & Hk & Hd).
  { by apply blank_consistent. }
  { intros t Ht. apply init_fold_keys. right. by apply list_elem_of_fmap_2. }
  split_and!; [done | | |].
  - intros x. rewrite Hk, init_fold_keys. split; [|auto].
    intros [H|?]; [by apply elem_of_nil in H | done].
  - intros Hnd. rewrite Hk. by rewrite init_fold_keys_nodup.
  - intros n x. rewrite Hd. destruct Hblank as [_ Hempty].
    destruct (Hempty n) as [-> _]. split; [|auto].
    intros [H|?]; [by apply elem_of_nil in H | done].
Qed.
End graph_facts.

(** ** Kahn's phase *)

Section kahn_facts.
Import TopoSort GraphSpec.
Implicit Types (g : Graph) (n c m : string) (deg : OMap.t Z).

Lemma elem_of_filter_keys (P : Z → Prop) `{!∀ d, Decision (P d)} deg n :
  NoDup (OMap.keys deg) →
  n ∈ (filter (λ kv, P kv.2) deg).*1 ↔ ∃ d, OMap.get deg n = Some d ∧ P d.
Proof.
  intros Hnd. rewrite list_elem_of_fmap. split.
  - intros ([k d] & -> & Hin). apply list_elem_of_filter in Hin as [HP Hin].
    exists d. split; [|done]. by apply omap_elem_of_get.
  - intros (d & Hget & HP). exists (n, d). split; [done|].
    apply list_elem_of_filter. split; [done|]. by apply omap_get_elem_of.
Qed.

Lemma NoDup_filter_keys (P : Z → Prop) `{!∀ d, Decision (P d)} deg :
  NoDup (OMap.keys deg) → NoDup (filter (λ kv, P kv.2) deg).*1.
Proof.
  intros Hnd. eapply sublist_NoDup; [exact Hnd|].
  unfold OMap.keys. apply fmap_sublist, sublist_filter.
Qed.

Lemma zeroDegree_spec deg n :
  NoDup (OMap.keys deg) → n ∈ zeroDegree deg ↔ OMap.get deg n = Some 0.
Proof.
  intros Hnd. pose proof (elem_of_filter_keys (λ d, d = 0) deg n Hnd) as H.
  unfold zeroDegree. etrans; [exact H|]. naive_solver.
Qed.

Lemma positiveDegree_spec deg n :
  NoDup (OMap.keys deg) →
  n ∈ positiveDegree deg ↔ ∃ d, OMap.get deg n = Some d ∧ 0 < d.
Proof.
  intros Hnd. exact (elem_of_filter_keys (λ d, 0 < d) deg n Hnd).
Qed.

Lemma zeroDegree_nodup deg :
  NoDup (OMap.keys deg) → NoDup (zeroDegree deg).
Proof. intros Hnd. exact (NoDup_filter_keys (λ d, d = 0) deg Hnd). Qed.

Lemma positiveDegree_nodup deg :
  NoDup (OMap.keys deg) → NoDup (positiveDegree deg).
Proof. intros Hnd. exact (NoDup_filter_keys (λ d, 0 < d) deg Hnd). Qed.

Lemma initialInDegree_keys g : OMap.keys (initialInDegree g) = OMap.keys g.
Proof.
  unfold OMap.keys, initialInDegree. rewrite <- list_fmap_compose.
  by apply list_fmap_ext.
Qed.

Lemma initialInDegree_get g n :
  OMap.get (initialInDegree g) n
  = (λ nd, Z.of_nat (length (dependencies nd))) <$> OMap.get g n.
Proof.
  unfold initialInDegree. induction g as [|[k nd] g IH]; simpl; [done|].
  destruct (decide (k = n)); [done | apply IH].
Qed.

Lemma initialAdjList_get g c :
  default [] (OMap.get (initialAdjList g) c) = dependentsOf g c.
Proof.
  unfold initialAdjList, dependentsOf.
  induction g as [|[k nd] g IH]; simpl; [done|].
  destruct (decide (k = c)); [done | apply IH].
Qed.

(** The effect of [dependents.forEach] on the queue and the in-degrees. *)
Lemma relax_fold L : ∀ q deg,
  NoDup L → (∀ m, m ∈ L → m ∈ OMap.keys deg) →
  (foldl relax (q, deg) L).1
    = q ++ filter (λ m, orZero (OMap.get deg m) = 1) L
  ∧ OMap.keys (foldl relax (q, deg) L).2 = OMap.keys deg
  ∧ ∀ n, OMap.get (foldl relax (q, deg) L).2 n
         = if decide (n ∈ L) then Some (orZero (OMap.get deg n) - 1)
           else OMap.get deg n.
Proof.
  induction L as [|m L IH]; intros q deg Hnd Hkeys; cbn [foldl].
  - rewrite app_nil_r. split_and!; [done..|]. intros n.
    destruct (decide (n ∈ [])) as [H|]; [by apply elem_of_nil in H | done].
  - apply NoDup_cons in Hnd as [Hm Hnd].
    unfold relax at 2 4 6. cbn [fst snd].
    set (deg1 := OMap.set deg m (orZero (OMap.get deg m) - 1)).
    set (q1 := if decide (orZero (OMap.get deg m) - 1 = 0)
               then q ++ [m] else q).
    assert (Hk1 : OMap.keys deg1 = OMap.keys deg).
    { apply omap_keys_set_in, Hkeys. apply elem_of_cons. by left. }
    destruct (IH q1 deg1 Hnd) as (Hq & Hk & Hget).
    { intros x Hx. rewrite Hk1. apply Hkeys. apply elem_of_cons. by right. }
    assert (Hsame : ∀ x, x ∈ L → OMap.get deg1 x = OMap.get deg x).
    { intros x Hx. apply omap_get_set_ne. intros ->. done. }
    split_and!.
    + rewrite Hq. rewrite filter_cons.
      assert (Hf : filter (λ x, orZero (OMap.get deg1 x) = 1) L
                   = filter (λ x, orZero (OMap.get deg x) = 1) L).
      { apply filter_ext_in. intros x Hx. by rewrite Hsame. }
      rewrite Hf. subst q1.
      destruct (decide (orZero (OMap.get deg m) - 1 = 0)) as [H0|H0].
      * rewrite decide_True by lia. by rewrite <- app_assoc.
      * by rewrite decide_False by lia.
    + by rewrite Hk.
    + intros n. rewrite Hget. destruct (decide (n ∈ L)) as [HnL|HnL].
      * rewrite decide_True by (apply elem_of_cons; by right).
        by rewrite Hsame.
      * subst deg1. destruct (decide (m = n)) as [->|Hmn].
        -- rewrite omap_get_set_eq.
           rewrite decide_True by (apply elem_of_cons; by left). done.
        -- rewrite omap_get_set_ne by done.
           rewrite decide_False; [done|].
           rewrite elem_of_cons. intros [?|?]; congruence.
Qed.

Lemma pending_nil g n : pending g [] n = depsOf g n.
Proof.
  unfold pending. apply filter_all. intros x _. apply not_elem_of_nil.
Qed.

Lemma pending_snoc g ord current n :
  pending g (ord ++ [current]) n
  = filter (λ d, d ≠ current) (pending g ord n).
Proof.
  unfold pending. rewrite list_filter_filter. apply list_filter_iff.
  intros d. rewrite elem_of_app, list_elem_of_singleton. tauto.
Qed.

Lemma pending_empty g ord n :
  pending g ord n = [] ↔ ∀ d, d ∈ depsOf g n → d ∈ ord.
Proof.
  unfold pending. rewrite filter_nil_iff. split.
  - intros H d Hd. destruct (decide (d ∈ ord)); [done|]. by destruct (H d Hd).
  - intros H d Hd Hnin. auto.
Qed.

Lemma kahnInv_initial g :
  consistent g →
  kahnInv g (zeroDegree (initialInDegree g)) [] (initialInDegree g).
Proof.
  intros Hc. pose proof (keys_nodup g Hc) as Hnd.
  assert (Hnd' : NoDup (OMap.keys (initialInDegree g)))
    by by rewrite initialInDegree_keys.
  split.
  - apply initialInDegree_keys.
  - intros n Hn. rewrite pending_nil, initialInDegree_get.
    apply omap_get_is_Some in Hn as [nd Hnd0].
    rewrite Hnd0. simpl. by rewrite (depsOf_get _ _ _ Hnd0).
  - simpl. by apply zeroDegree_nodup.
  - intros n. simpl. rewrite zeroDegree_spec by done.
    rewrite pending_nil, initialInDegree_get. split.
    + intros Hget.
      destruct (OMap.get g n) as [nd|] eqn:Hg; [|done].
      split; [by eapply omap_get_Some_key|].
      rewrite (depsOf_get _ _ _ Hg). simpl in Hget.
      apply length_zero_iff_nil. injection Hget as Hget. lia.
    + intros [Hn Hnil]. apply omap_get_is_Some in Hn as [nd Hg].
      rewrite Hg. simpl.
      rewrite <- (depsOf_get _ _ _ Hg), Hnil. done.
  - intros i n d Hi. by rewrite lookup_nil in Hi.
Qed.

(** One turn of the queue loop keeps the invariant. *)
Lemma kahnInv_step g current rest ord deg :
  consistent g →
  kahnInv g (current :: rest) ord deg →
  kahnInv g (foldl relax (rest, deg) (dependentsOf g current)).1
    (ord ++ [current])
    (foldl relax (rest, deg) (dependentsOf g current)).2.
Proof.
  intros Hc [Hkeys Hdeg Hnd Hready Hsorted].
  pose proof (dependents_spec g Hc current) as Hspec.
  pose proof (dependents_nodup g Hc current) as HLnd.
  assert (Hcur : current ∈ OMap.keys g ∧ pending g ord current = []).
  { apply Hready. rewrite elem_of_app, elem_of_cons. auto. }
  destruct Hcur as [Hcurkey Hcurdeps].
  assert (Hcurnew : current ∉ ord).
  { apply NoDup_app in Hnd as (_ & Hdis & _). intros Hin.
    apply (Hdis _ Hin). apply elem_of_cons. by left. }
  destruct (relax_fold (dependentsOf g current) rest deg HLnd)
    as (Hq & Hk & Hget).
  { intros m Hm. rewrite Hkeys. apply Hspec in Hm. tauto. }
  (* the pending dependencies after [current] has joined the order *)
  assert (Hpend_in : ∀ n, n ∈ dependentsOf g current →
            S (length (pending g (ord ++ [current]) n))
            = length (pending g ord n)).
  { intros n Hn. rewrite pending_snoc. apply length_filter_remove.
    - apply NoDup_filter, (deps_nodup g Hc).
    - apply list_elem_of_filter. split; [done|]. apply Hspec in Hn. tauto. }
  assert (Hpend_out : ∀ n, n ∈ OMap.keys g → n ∉ dependentsOf g current →
            pending g (ord ++ [current]) n = pending g ord n).
  { intros n Hn Hnot. rewrite pending_snoc. apply filter_all.
    intros d Hd ->. apply Hnot. apply Hspec.
    apply list_elem_of_filter in Hd. tauto. }
  assert (Hdeg1 : ∀ n, n ∈ dependentsOf g current →
            (orZero (OMap.get deg n) = 1
             ↔ pending g (ord ++ [current]) n = [])).
  { intros n Hn. pose proof (Hpend_in n Hn) as Hlen.
    rewrite Hdeg by (apply Hspec in Hn; tauto). simpl.
    rewrite <- length_zero_iff_nil. lia. }
  split.
  - by rewrite Hk.
  - intros n Hn. rewrite Hget.
    destruct (decide (n ∈ dependentsOf g current)) as [HnL|HnL].
    + rewrite Hdeg by done. simpl. f_equal.
      pose proof (Hpend_in n HnL). lia.
    + rewrite Hdeg by done. by rewrite Hpend_out.
  - rewrite Hq, <- app_assoc. simpl.
    replace (ord ++ current :: rest ++ _)
      with ((ord ++ current :: rest)
            ++ filter (λ m, orZero (OMap.get deg m) = 1)
                 (dependentsOf g current))
      by by rewrite <- app_assoc.
    apply NoDup_app. split_and!; [done | | by apply NoDup_filter].
    intros x Hx Hx'. apply list_elem_of_filter in Hx' as [H1 HxL].
    apply Hready in Hx as [Hxk Hxp].
    rewrite Hdeg, Hxp in H1 by done. done.
  - intros n. rewrite Hq, <- app_assoc. simpl.
    rewrite elem_of_app, elem_of_cons, elem_of_app, list_elem_of_filter.
    split.
    + intros [Hn|[->|[Hn|[H1 HnL]]]].
      * assert (Hr : n ∈ OMap.keys g ∧ pending g ord n = []).
        { apply Hready. rewrite elem_of_app. auto. }
        destruct Hr as [Hnk Hnp]. split; [done|].
        rewrite pending_snoc, Hnp. done.
      * split; [done|]. rewrite pending_snoc, Hcurdeps. done.
      * assert (Hr : n ∈ OMap.keys g ∧ pending g ord n = []).
        { apply Hready. rewrite elem_of_app, elem_of_cons. auto. }
        destruct Hr as [Hnk Hnp]. split; [done|].
        rewrite pending_snoc, Hnp. done.
      * split; [apply Hspec in HnL; tauto | by apply Hdeg1].
    + intros [Hnk Hnp].
      destruct (decide (n ∈ dependentsOf g current)) as [HnL|HnL].
      * right. right. right. split; [by apply Hdeg1 | done].
      * rewrite Hpend_out in Hnp by done.
        assert (Hr : n ∈ ord ++ current :: rest) by by apply Hready.
        rewrite elem_of_app, elem_of_cons in Hr. tauto.
  - intros i n d Hi Hd.
    destruct (decide (i < length ord)%nat) as [Hlt|Hge].
    + rewrite lookup_app_l in Hi by done.
      destruct (Hsorted i n d Hi Hd) as (j & Hj & Hjd).
      exists j. split; [done|]. rewrite lookup_app_l by lia. done.
    + rewrite lookup_app_r in Hi by lia.
      apply list_lookup_singleton_Some in Hi as [Hi0 ->].
      assert (Hin : d ∈ ord) by by apply (pending_empty g ord n).
      apply list_elem_of_lookup in Hin as [j Hj].
      exists j. pose proof (lookup_lt_Some _ _ _ Hj).
      split; [lia|]. by rewrite lookup_app_l.
Qed.

(** The queue loop ends before its fuel does, in a state with an empty
    queue that satisfies the invariant. *)
Lemma processQueue_total g : ∀ fuel queue ord deg,
  consistent g →
  kahnInv g queue ord deg →
  (length (OMap.keys g) < fuel + length ord)%nat →
  ∃ ord' deg',
    processQueue fuel (initialAdjList g) queue ord deg = Some (ord', deg')
    ∧ kahnInv g [] ord' deg'.
Proof.
  induction fuel as [|fuel IH]; intros queue ord deg Hc Hinv Hfuel.
  - destruct queue as [|current rest]; simpl; [eauto|].
    exfalso. destruct Hinv as [_ _ Hnd Hready _].
    assert (Hle : (length (ord ++ current :: rest)
                   ≤ length (OMap.keys g))%nat).
    { apply submseteq_length, NoDup_submseteq; [done|].
      intros x Hx. apply Hready in Hx. tauto. }
    rewrite length_app in Hle. simpl in *. lia.
  - destruct queue as [|current rest]; simpl; [eauto|].
    rewrite initialAdjList_get.
    apply IH; [done | by apply kahnInv_step |].
    rewrite length_app. simpl. lia.
Qed.

Lemma kahn_total g :
  consistent g →
  ∃ ord deg, kahn g = Some (ord, deg) ∧ kahnInv g [] ord deg.
Proof.
  intros Hc. unfold kahn. apply processQueue_total; [done | |].
  - by apply kahnInv_initial.
  - unfold OMap.keys. rewrite length_fmap. simpl. lia.
Qed.
End kahn_facts.

(** ** Cycle detection ends *)

Section dfs_facts.
Import TopoSort GraphSpec.
Implicit Types (g : Graph) (st : DfsState).

Lemma size_list_to_set_le (l : list string) :
  (size (list_to_set l : gset string) ≤ length l)%nat.
Proof.
  unfold size, set_size. simpl.
  apply submseteq_length, NoDup_submseteq; [apply NoDup_elements|].
  intros x Hx. apply elem_of_elements in Hx. set_solver.
Qed.

Lemma universe_key g n : n ∈ OMap.keys g → n ∈ universe g.
Proof. unfold universe. set_solver. Qed.

Lemma universe_dep g n d : d ∈ depsOf g n → d ∈ universe g.
Proof.
  unfold depsOf. destruct (OMap.get g n) as [nd|] eqn:Hg.
  2:{ intros H. by apply elem_of_nil in H. }
  intros Hd. unfold universe. apply elem_of_list_to_set, elem_of_app. right.
  apply list_elem_of_In, in_concat. exists (dependencies nd). split.
  - apply list_elem_of_In. apply (list_elem_of_fmap_2' _ _ (n, nd)); [|done].
    by apply omap_get_elem_of.
  - by apply list_elem_of_In.
Qed.

Lemma unvisited_mono g st st' :
  visited st ⊆ visited st' → (unvisited g st' ≤ unvisited g st)%nat.
Proof.
  intros Hsub. unfold unvisited. apply subseteq_size.
  intros x. rewrite !elem_of_difference. intros [? Hx]. split; [done|].
  intros Hin. apply Hx, Hsub, Hin.
Qed.

Lemma unvisited_enter g node st :
  node ∈ universe g → node ∉ visited st →
  (unvisited g (enter node st) < unvisited g st)%nat.
Proof.
  intros HU Hv. unfold unvisited. apply subset_size. simpl. split.
  - intros x. rewrite !elem_of_difference, elem_of_union. tauto.
  - intros Hsub. specialize (Hsub node).
    rewrite !elem_of_difference, elem_of_union, elem_of_singleton in Hsub.
    tauto.
Qed.

Lemma visitDeps_total g rec node fuel :
  (∀ dep st, dep ∈ universe g → dep ∉ visited st →
     (unvisited g st ≤ fuel)%nat →
     ∃ b st', rec dep st = Some (b, st') ∧ visited st ⊆ visited st') →
  ∀ deps st, (∀ d, d ∈ deps → d ∈ universe g) →
    (unvisited g st ≤ fuel)%nat →
    ∃ b st', visitDeps rec node deps st = Some (b, st')
             ∧ visited st ⊆ visited st'.
Proof.
  intros Hrec. induction deps as [|dep deps IH]; intros st HU Hfuel; simpl.
  - eexists _, _. split; [done|]. done.
  - assert (HU' : ∀ d, d ∈ deps → d ∈ universe g).
    { intros d Hd. apply HU, elem_of_cons. by right. }
    case_bool_decide as Hv.
    + destruct (Hrec dep st) as (b & st' & -> & Hsub);
        [apply HU, elem_of_cons; by left | done..|].
      destruct b.
      * eexists _, _. split; [done|]. done.
      * destruct (IH st' HU') as (b' & st'' & -> & Hsub').
        { pose proof (unvisited_mono g st st' Hsub). lia. }
        eexists _, _. split; [done|]. set_solver.
    + case_bool_decide.
      * eexists _, _. split; [done|]. done.
      * by apply IH.
Qed.

Lemma dfs_total g : ∀ fuel node st,
  node ∈ universe g → node ∉ visited st → (unvisited g st ≤ fuel)%nat →
  ∃ b st', dfs fuel g node st = Some (b, st') ∧ visited st ⊆ visited st'.
Proof.
  induction fuel as [|fuel IH]; intros node st HU Hv Hfuel.
  - pose proof (unvisited_enter g node st HU Hv). lia.
  - simpl.
    destruct (visitDeps_total g (dfs fuel g) node fuel IH (depsOf g node)
                (enter node st)) as (b & st' & -> & Hsub).
    + intros d. apply universe_dep.
    + pose proof (unvisited_enter g node st HU Hv). lia.
    + eexists _, _. split; [done|]. simpl in Hsub. set_solver.
Qed.

Lemma dfsFrom_total g fuel : ∀ startNodes st,
  (∀ x, x ∈ startNodes → x ∈ universe g) →
  (unvisited g st ≤ fuel)%nat →
  ∃ st', dfsFrom fuel g startNodes st = Some st'.
Proof.
  induction startNodes as [|x xs IH]; intros st HU Hfuel; simpl; [eauto|].
  assert (HU' : ∀ y, y ∈ xs → y ∈ universe g).
  { intros y Hy. apply HU, elem_of_cons. by right. }
  case_bool_decide as Hv; [|by apply IH].
  destruct (dfs_total g fuel x st) as (b & st' & -> & Hsub);
    [apply HU, elem_of_cons; by left | done..|].
  destruct b; [eauto|]. apply IH; [done|].
  pose proof (unvisited_mono g st st' Hsub). lia.
Qed.

Lemma detectCycle_total g startNodes :
  (∀ x, x ∈ startNodes → x ∈ OMap.keys g) →
  ∃ found, detectCycle g startNodes = Some found.
Proof.
  intros Hkeys. unfold detectCycle.
  destruct (dfsFrom_total g (dfsFuel g) startNodes
              {| visited := ∅; recStack := ∅; cycle := [] |})
    as (st' & ->).
  - intros x Hx. by apply universe_key, Hkeys.
  - unfold unvisited, dfsFuel, universe. simpl.
    etrans; [apply (subseteq_size _ (universe g)); set_solver|].
    etrans; [apply size_list_to_set_le|].
    rewrite length_app. unfold OMap.keys. rewrite length_fmap. lia.
  - simpl. eauto.
Qed.
End dfs_facts.

(** ** The stable sort *)

Section sort_facts.
Import TopoSort.
Variable key : string → Z.

Lemma insertByKey_perm x l : insertByKey key x l ≡ₚ x :: l.
Proof.
  induction l as [|y l IH]; simpl; [done|].
  destruct (decide (key x ≤ key y)); [done|].
  rewrite IH. apply Permutation_swap.
Qed.

Lemma sortByKey_perm l : sortByKey key l ≡ₚ l.
Proof.
  induction l as [|x l IH]; simpl; [done|].
  unfold sortByKey in *. simpl. by rewrite insertByKey_perm, IH.
Qed.

Lemma insertByKey_sorted x l :
  StronglySorted (λ a b, key a ≤ key b) l →
  StronglySorted (λ a b, key a ≤ key b) (insertByKey key x l).
Proof.
  induction l as [|y l IH]; intros Hs; simpl.
  - repeat constructor.
  - apply StronglySorted_inv in Hs as [Hs Hall].
    destruct (decide (key x ≤ key y)) as [Hle|Hgt].
    + constructor; [by constructor|].
      constructor; [done|]. eapply Forall_impl; [exact Hall|].
      simpl. intros z Hz. lia.
    + constructor; [by apply IH|].
      rewrite insertByKey_perm. constructor; [lia | done].
Qed.

Lemma sortByKey_sorted l :
  StronglySorted (λ a b, key a ≤ key b) (sortByKey key l).
Proof.
  induction l as [|x l IH]; unfold sortByKey in *; simpl.
  - constructor.
  - by apply insertByKey_sorted.
Qed.
End sort_facts.

(** ** The outcome of the sort *)

Section sort_outcome.
Import TopoSort GraphSpec.
Implicit Types (g : Graph) (n : string) (deg : OMap.t Z).

(** After the queue loop the residual nodes are the keys the order does
    not hold. *)
Lemma kahn_residual g ord deg n :
  consistent g → kahnInv g [] ord deg →
  n ∈ positiveDegree deg ↔ n ∈ OMap.keys g ∧ n ∉ ord.
Proof.
  intros Hc [Hkeys Hdeg Hnd Hready _].
  pose proof (keys_nodup g Hc) as Hgnd.
  rewrite positiveDegree_spec by by rewrite Hkeys.
  rewrite app_nil_r in Hready. split.
  - intros (d & Hget & Hpos).
    assert (Hn : n ∈ OMap.keys g).
    { rewrite <- Hkeys. by eapply omap_get_Some_key. }
    split; [done|]. intros Hin. apply Hready in Hin as [_ Hnil].
    rewrite Hdeg, Hnil in Hget by done. simpl in Hget.
    injection Hget as <-. lia.
  - intros [Hn Hnot]. eexists. split; [by apply Hdeg|].
    destruct (pending g ord n) as [|d l] eqn:Hp; [|simpl; lia].
    destruct Hnot. apply Hready. done.
Qed.

Lemma kahn_coverage g ord deg :
  consistent g → kahnInv g [] ord deg →
  ord ++ positiveDegree deg ≡ₚ OMap.keys g.
Proof.
  intros Hc Hinv.
  pose proof (λ n, kahn_residual g ord deg n Hc Hinv) as Hres.
  destruct Hinv as [Hkeys Hdeg Hnd Hready Hsorted].
  rewrite app_nil_r in Hnd, Hready.
  apply NoDup_Permutation.
  - apply NoDup_app. split_and!; [done | |].
    + intros x Hx Hx'. apply Hres in Hx'. tauto.
    + apply positiveDegree_nodup. rewrite Hkeys. apply (keys_nodup g Hc).
  - apply (keys_nodup g Hc).
  - intros x. rewrite elem_of_app. split.
    + intros [Hx|Hx]; [apply Hready in Hx; tauto|].
      apply Hres in Hx. tauto.
    + intros Hx. destruct (decide (x ∈ ord)); [by left|]. right.
      by apply Hres.
Qed.

Lemma resolvable_in_order g ord deg :
  kahnInv g [] ord deg →
  ∀ depth n, resolvable depth g n = true → n ∈ ord.
Proof.
  intros [_ _ _ Hready _]. rewrite app_nil_r in Hready.
  induction depth as [|depth IH]; intros n; simpl; [done|].
  destruct (OMap.get g n) as [nd|] eqn:Hg; [|done].
  intros Hall. apply Hready. split; [by eapply omap_get_Some_key|].
  apply pending_empty. intros d Hd. apply IH.
  rewrite (depsOf_get _ _ _ Hg) in Hd.
  rewrite forallb_forall in Hall. apply Hall. by apply list_elem_of_In.
Qed.

(** [topologicalSort] returns on every consistent graph; its order is the
    order of Kahn's phase followed by the sorted residual nodes. *)
Lemma topologicalSort_outcome g :
  consistent g →
  ∃ r ord deg,
    topologicalSort g = Some r
    ∧ kahn g = Some (ord, deg)
    ∧ kahnInv g [] ord deg
    ∧ order r = ord ++ sortByKey (depCount g) (positiveDegree deg).
Proof.
  intros Hc. destruct (kahn_total g Hc) as (ord & deg & Hk & Hinv).
  unfold topologicalSort. rewrite Hk. simpl.
  destruct (positiveDegree deg) as [|x rest] eqn:Hrem.
  - eexists _, ord, deg. split_and!; [done..|]. simpl.
    rewrite Hrem. simpl. by rewrite app_nil_r.
  - destruct (detectCycle_total g (x :: rest)) as (found & ->).
    { intros y Hy. rewrite <- Hrem in Hy.
      apply (kahn_residual g ord deg) in Hy; tauto. }
    eexists _, ord, deg. split_and!; [reflexivity | done | done |].
    simpl. by rewrite Hrem.
Qed.

Lemma indexOf_lookup x l i :
  NoDup l → l !! i = Some x → indexOf x l = Some i.
Proof.
  intros Hnd Hi. unfold indexOf.
  destruct (list_find (λ y, y = x) l) as [[j y]|] eqn:Hf.
  - apply list_find_Some in Hf as (Hj & -> & _). simpl. f_equal.
    by eapply NoDup_lookup.
  - apply list_find_None in Hf. rewrite Forall_forall in Hf.
    exfalso. eapply Hf; [|done]. by eapply list_elem_of_lookup_2.
Qed.
End sort_outcome.

(** ** Levels *)

Section level_facts.
Import TopoSort Parallel.
Variable tables : list TableDefinition.
Hypothesis names_nodup : NoDup (name <$> tables).

Lemma selection_nodup (P : TableDefinition → Prop) `{!∀ t, Decision (P t)} :
  NoDup (name <$> filter P tables).
Proof.
  eapply sublist_NoDup; [exact names_nodup|].
  apply fmap_sublist, sublist_filter.
Qed.

Lemma levelLoop_total g : ∀ fuel processed levels,
  processed = list_to_set (concat levels) →
  NoDup (concat levels) →
  (∀ x, x ∈ concat levels → x ∈ name <$> tables) →
  (length tables < fuel + length (concat levels))%nat →
  ∃ result,
    levelLoop fuel tables g processed levels = Some result
    ∧ concat result ≡ₚ name <$> tables.
Proof.
  induction fuel as [|fuel IH]; intros processed levels Hp Hnd Hsub Hfuel.
  - simpl. assert (Hsize : size processed = length (concat levels)).
    { subst processed. by apply size_list_to_set. }
    rewrite bool_decide_false by lia.
    eexists. split; [done|].
    apply submseteq_length_Permutation.
    + by apply NoDup_submseteq.
    + rewrite length_fmap. lia.
  - simpl. assert (Hsize : size processed = length (concat levels)).
    { subst processed. by apply size_list_to_set. }
    case_bool_decide as Hlt.
    2:{ eexists. split; [done|].
        apply submseteq_length_Permutation.
        + by apply NoDup_submseteq.
        + rewrite length_fmap. lia. }
    destruct (name <$> filter (λ t, ready g processed t = true) tables)
      as [|x current] eqn:Hcur.
    + (* no table is ready: the remaining ones form the last level *)
      set (remaining := name <$> filter (λ t, name t ∉ processed) tables).
      eexists. split; [reflexivity|].
      fold remaining.
      assert (Hcat : concat (match remaining with
                             | [] => levels
                             | _ => levels ++ [remaining]
                             end) = concat levels ++ remaining).
      { destruct remaining; [by rewrite app_nil_r|].
        rewrite concat_app. simpl. by rewrite app_nil_r. }
      rewrite Hcat. clear Hcat.
      apply NoDup_Permutation; [|done|].
      * apply NoDup_app. split_and!; [done | | apply selection_nodup].
        intros y Hy Hy'. subst remaining.
        apply list_elem_of_fmap in Hy' as (t & -> & Ht).
        apply list_elem_of_filter in Ht as [Hnot _].
        apply Hnot. subst processed. by apply elem_of_list_to_set.
      * intros y. rewrite elem_of_app. split.
        -- intros [Hy|Hy]; [by apply Hsub|]. subst remaining.
           apply list_elem_of_fmap in Hy as (t & -> & Ht).
           apply list_elem_of_filter in Ht as [_ Ht].
           by apply list_elem_of_fmap_2.
        -- intros Hy. destruct (decide (y ∈ concat levels)); [by left|].
           right. apply list_elem_of_fmap in Hy as (t & -> & Ht).
           subst remaining. apply list_elem_of_fmap_2.
           apply list_elem_of_filter. split; [|done].
           subst processed. by rewrite elem_of_list_to_set.
    + rewrite <- Hcur.
      set (currentLevel :=
             name <$> filter (λ t, ready g processed t = true) tables) in *.
      assert (Hfresh : ∀ y, y ∈ currentLevel → y ∉ concat levels).
      { intros y Hy Hy'. apply list_elem_of_fmap in Hy as (t & -> & Ht).
        apply list_elem_of_filter in Ht as [Hready _].
        unfold ready in Hready. rewrite bool_decide_true in Hready; [done|].
        subst processed. by apply elem_of_list_to_set. }
      apply IH.
      * rewrite concat_app. simpl. rewrite app_nil_r.
        rewrite list_to_set_app_L. by subst processed.
      * rewrite concat_app. simpl. rewrite app_nil_r.
        apply NoDup_app. split_and!; [done | | apply selection_nodup].
        intros y Hy Hy'. by apply (Hfresh y).
      * intros y. rewrite concat_app. simpl. rewrite app_nil_r, elem_of_app.
        intros [Hy|Hy]; [by apply Hsub|].
        apply list_elem_of_fmap in Hy as (t & -> & Ht).
        apply list_elem_of_filter in Ht as [_ Ht].
        by apply list_elem_of_fmap_2.
      * rewrite concat_app. simpl. rewrite app_nil_r, length_app.
        rewrite Hcur. simpl. lia.
Qed.

Lemma groupTablesByLevel_total :
  ∃ levels, groupTablesByLevel tables = Some levels
            ∧ concat levels ≡ₚ name <$> tables.
Proof.
  unfold groupTablesByLevel. apply levelLoop_total; simpl.
  - done.
  - apply NoDup_nil_2.
  - intros x Hx. by apply elem_of_nil in Hx.
  - lia.
Qed.
End level_facts.

(** ** Ordering, coverage and the residual nodes *)

Section ordering.
Import TopoSort GraphSpec Parallel.

Lemma resolvable_mono g : ∀ depth n,
  resolvable depth g n = true → resolvable (S depth) g n = true.
Proof.
  induction depth as [|depth IH]; intros n; [done|].
  cbn [resolvable]. destruct (OMap.get g n) as [nd|]; [|done].
  rewrite !forallb_forall. intros Hall d Hd. apply IH, Hall, Hd.
Qed.

Lemma resolvable_reach g a b :
  tc (dependsOn g) a b →
  ∀ depth, resolvable (S depth) g a = true → resolvable depth g b = true.
Proof.
  induction 1 as [a b Hab|a z b Haz _ IH]; intros depth Hres.
  - cbn [resolvable] in Hres. unfold dependsOn, depsOf in Hab.
    destruct (OMap.get g a) as [nd|]; [|done].
    rewrite forallb_forall in Hres. apply Hres. by apply list_elem_of_In.
  - assert (Hz : resolvable depth g z = true).
    { cbn [resolvable] in Hres. unfold dependsOn, depsOf in Haz.
      destruct (OMap.get g a) as [nd|]; [|done].
      rewrite forallb_forall in Hres. apply Hres. by apply list_elem_of_In. }
    destruct depth as [|depth]; [done|].
    apply resolvable_mono, IH, Hz.
Qed.

(** A resolvable table lies on no cycle. *)
Lemma resolvable_acyclic g : ∀ depth n,
  resolvable depth g n = true → ¬ onCycle g n.
Proof.
  induction depth as [|depth IH]; intros n Hres Hcyc; [done|].
  apply (IH n); [|done]. by apply (resolvable_reach g n n).
Qed.

(** C4 (total coverage): for every list of tables with distinct names,
    cyclic or not, [topologicalSort] returns an order that holds every
    input table exactly once, so its length is the number of tables, and
    [groupTablesByLevel] returns levels that partition the tables: the
    level sizes add up to the number of tables and no table is in two
    levels. *)
Theorem total_coverage (tables : list TableDefinition) :
  NoDup (name <$> tables) →
  ∃ r levels,
    topologicalSort (buildDependencyGraph tables) = Some r
    ∧ order r ≡ₚ name <$> tables
    ∧ length (order r) = length tables
    ∧ groupTablesByLevel tables = Some levels
    ∧ concat levels ≡ₚ name <$> tables
    ∧ sum_list (length <$> levels) = length tables
    ∧ NoDup (concat levels).
Proof.
  intros Hnd.
  destruct (buildDependencyGraph_consistent tables) as (Hc & _ & Hkeys & _).
  destruct (topologicalSort_outcome _ Hc) as (r & ord & deg & Hr & _ & Hinv & Hord).
  destruct (groupTablesByLevel_total tables Hnd) as (levels & Hl & Hperm).
  assert (Hp : order r ≡ₚ name <$> tables).
  { rewrite Hord, sortByKey_perm, <- (Hkeys Hnd).
    by apply kahn_coverage. }
  exists r, levels. split_and!; [done | done | | done | done | |].
  - by rewrite Hp, length_fmap.
  - rewrite <- length_concat, Hperm. by rewrite length_fmap.
  - by rewrite Hperm.
Qed.

Lemma total_coverage_witness :
  NoDup (name <$> Samples.mutual)
  ∧ ∃ r levels,
      topologicalSort (buildDependencyGraph Samples.mutual) = Some r
      ∧ order r ≡ₚ name <$> Samples.mutual
      ∧ length (order r) = length Samples.mutual
      ∧ groupTablesByLevel Samples.mutual = Some levels
      ∧ concat levels ≡ₚ name <$> Samples.mutual
      ∧ sum_list (length <$> levels) = length Samples.mutual
      ∧ NoDup (concat levels).
Proof.
  assert (Hnd : NoDup (name <$> Samples.mutual)).
  { apply (bool_decide_unpack _). vm_compute. exact I. }
  split; [exact Hnd | exact (total_coverage Samples.mutual Hnd)].
Defined.

(** In the order returned for the blog schema Post, which references User,
    comes after User. *)
Lemma blog_order :
  topologicalSort (buildDependencyGraph Samples.blog)
  = Some {| order := ["User"; "Post"]; cycles := [] |}.
Proof. vm_compute. reflexivity. Qed.

(** C1 as stated fails: Post has a non-self foreign key to User, no cycle
    passes through either table, and yet the index of Post in the order is
    not less than the index of User. *)
Lemma ordering_as_stated_counterexample :
  hasForeignKey Samples.blog "Post" "User"
  ∧ dependsOn (buildDependencyGraph Samples.blog) "Post" "User"
  ∧ ¬ onCycle (buildDependencyGraph Samples.blog) "Post"
  ∧ ¬ onCycle (buildDependencyGraph Samples.blog) "User"
  ∧ ∃ r i j,
      topologicalSort (buildDependencyGraph Samples.blog) = Some r
      ∧ indexOf "Post" (order r) = Some i
      ∧ indexOf "User" (order r) = Some j
      ∧ ¬ (i < j)%nat.
Proof.
  assert (Hdep : dependsOn (buildDependencyGraph Samples.blog) "Post" "User").
  { unfold dependsOn. apply (bool_decide_unpack _). vm_compute. exact I. }
  split_and!.
  - destruct (buildDependencyGraph_consistent Samples.blog) as (_ & _ & _ & Hd).
    by apply Hd.
  - exact Hdep.
  - by apply (resolvable_acyclic _ 2).
  - by apply (resolvable_acyclic _ 1).
  - eexists _, 1%nat, 0%nat. split_and!; [apply blog_order | done..|lia].
Qed.

(** C1, amended (dependencies come first): whenever A has a non-self
    foreign key to B, and B and everything B depends on, directly or not,
    are input tables that lie on no cycle, the sort returns an order in
    which the index of B is strictly less than the index of A. *)
Theorem dependencies_come_first (tables : list TableDefinition)
    (A B : string) (depth : nat) :
  hasForeignKey tables A B →
  resolvable depth (buildDependencyGraph tables) B = true →
  ∃ r i j,
    topologicalSort (buildDependencyGraph tables) = Some r
    ∧ indexOf B (order r) = Some i
    ∧ indexOf A (order r) = Some j
    ∧ (i < j)%nat.
Proof.
  intros Hfk Hres.
  destruct (buildDependencyGraph_consistent tables) as (Hc & Hkeys & _ & Hdeps).
  set (g := buildDependencyGraph tables) in *.
  destruct (topologicalSort_outcome g Hc)
    as (r & ord & deg & Hr & _ & Hinv & Hord).
  pose proof (kahn_coverage g ord deg Hc Hinv) as Hcover.
  pose proof (λ n, kahn_residual g ord deg n Hc Hinv) as Hresidual.
  pose proof (resolvable_in_order g ord deg Hinv depth B Hres) as HB.
  assert (Hnd : NoDup (order r)).
  { rewrite Hord, sortByKey_perm, Hcover. apply (keys_nodup g Hc). }
  assert (HA : A ∈ OMap.keys g).
  { apply Hkeys. destruct Hfk as (t & f & Ht & <- & _).
    by apply list_elem_of_fmap_2. }
  assert (HAB : B ∈ depsOf g A) by by apply Hdeps.
  apply list_elem_of_lookup in HB as [i Hi].
  pose proof (lookup_lt_Some _ _ _ Hi) as Hilt.
  exists r, i.
  destruct (decide (A ∈ ord)) as [HAord|HAord].
  - (* A was emitted by the queue loop, after its dependencies *)
    apply list_elem_of_lookup in HAord as [j Hj].
    destruct (inv_sorted _ _ _ _ Hinv j A B Hj HAB) as (i' & Hlt & Hi').
    assert (i' = i) as ->.
    { eapply NoDup_lookup; [|exact Hi'|exact Hi].
      destruct Hinv as [_ _ Hnd' _ _]. by rewrite app_nil_r in Hnd'. }
    exists j. split_and!; [done | | | done].
    + apply indexOf_lookup; [done|]. rewrite Hord. by apply lookup_app_l_Some.
    + apply indexOf_lookup; [done|]. rewrite Hord. by apply lookup_app_l_Some.
  - (* A is residual: it comes after the whole of Kahn's order *)
    assert (HAres : A ∈ sortByKey (depCount g) (positiveDegree deg)).
    { rewrite sortByKey_perm. by apply Hresidual. }
    apply list_elem_of_lookup in HAres as [k Hk].
    exists (length ord + k)%nat. split_and!; [done | | | lia].
    + apply indexOf_lookup; [done|]. rewrite Hord. by apply lookup_app_l_Some.
    + apply indexOf_lookup; [done|]. rewrite Hord.
      rewrite lookup_app_r by lia.
      by replace (length ord + k - length ord)%nat with k by lia.
Qed.

Lemma dependencies_come_first_witness :
  hasForeignKey Samples.blog "Post" "User"
  ∧ resolvable 1 (buildDependencyGraph Samples.blog) "User" = true
  ∧ ∃ r i j,
      topologicalSort (buildDependencyGraph Samples.blog) = Some r
      ∧ indexOf "User" (order r) = Some i
      ∧ indexOf "Post" (order r) = Some j
      ∧ (i < j)%nat.
Proof.
  assert (Hfk : hasForeignKey Samples.blog "Post" "User").
  { exists (Samples.tableOf "Post"
              [Samples.scalar "id"; Samples.scalar "userId";
               Samples.reference "user" "User" "userId"]),
           (Samples.reference "user" "User" "userId").
    split_and!; [|reflexivity| |reflexivity].
    - apply elem_of_cons. right. apply elem_of_cons. by left.
    - apply elem_of_cons. right. apply elem_of_cons. right.
      apply elem_of_cons. by left. }
  assert (Hres : resolvable 1 (buildDependencyGraph Samples.blog) "User"
                 = true) by (vm_compute; reflexivity).
  split_and!; [exact Hfk | exact Hres |].
  exact (dependencies_come_first Samples.blog "Post" "User" 1 Hfk Hres).
Defined.

(** The amended hypothesis cannot be relaxed to the absence of a cycle
    through A or B: with both downstream of a cycle, A precedes the table B
    it references. *)
Lemma downstream_of_a_cycle :
  hasForeignKey Samples.downstream "A" "B"
  ∧ topologicalSort (buildDependencyGraph Samples.downstream)
    = Some {| order := ["A"; "B"; "X"; "Y"];
              cycles := [["A"; "B"; "X"; "Y"; "X"]] |}.
Proof.
  split; [|vm_compute; reflexivity].
  destruct (buildDependencyGraph_consistent Samples.downstream)
    as (_ & _ & _ & Hd).
  apply Hd. apply (bool_decide_unpack _). vm_compute. exact I.
Qed.

(** C7 as stated fails: the residual nodes R, P, Q are appended in this
    order, although P still has two unresolved dependencies and Q, placed
    after it, only one. *)
Lemma residual_as_stated_counterexample :
  kahn (buildDependencyGraph Samples.entangled)
  = Some (["A"; "B"],
          [("A", 0); ("B", 0); ("Q", 1); ("P", 2); ("R", 1)])
  ∧ topologicalSort (buildDependencyGraph Samples.entangled)
    = Some {| order := ["A"; "B"] ++ ["R"; "P"; "Q"];
              cycles := [["Q"; "P"; "Q"]] |}
  ∧ ¬ StronglySorted
        (λ a b,
           orZero (OMap.get [("A", 0); ("B", 0); ("Q", 1); ("P", 2);
                             ("R", 1)] a)
           ≤ orZero (OMap.get [("A", 0); ("B", 0); ("Q", 1); ("P", 2);
                               ("R", 1)] b))
        ["R"; "P"; "Q"].
Proof.
  split_and!; [vm_compute; reflexivity..|].
  intros Hs. apply StronglySorted_inv in Hs as [Hs _].
  apply StronglySorted_inv in Hs as [_ Hall].
  apply Forall_cons in Hall as [Hle _]. vm_compute in Hle. by apply Hle.
Qed.

(** C7, amended (residual nodes): the order returned by the sort is the
    order built by Kahn's phase followed by the residual nodes, those whose
    in-degree is still positive, arranged in ascending order of the total
    number of dependencies the graph records for them. *)
Theorem residual_sorted_by_dependency_count (tables : list TableDefinition) :
  ∃ r ord deg residual,
    topologicalSort (buildDependencyGraph tables) = Some r
    ∧ kahn (buildDependencyGraph tables) = Some (ord, deg)
    ∧ order r = ord ++ residual
    ∧ residual ≡ₚ positiveDegree deg
    ∧ StronglySorted
        (λ a b, depCount (buildDependencyGraph tables) a
                ≤ depCount (buildDependencyGraph tables) b)
        residual.
Proof.
  destruct (buildDependencyGraph_consistent tables) as (Hc & _).
  destruct (topologicalSort_outcome _ Hc)
    as (r & ord & deg & Hr & Hk & _ & Hord).
  exists r, ord, deg, (sortByKey (depCount (buildDependencyGraph tables))
                         (positiveDegree deg)).
  split_and!; [done | done | done | apply sortByKey_perm |].
  apply sortByKey_sorted.
Qed.
End ordering.

(** ** The foreign-key transformer *)

Section transformer_facts.
Import Transformer TransformerSpec.
Variable random : nat → UnitFraction.
Variable idMappings : IdMappings.
Implicit Types (w : World) (loc : nat) (key : string) (v : Value).

Lemma read_content loc key w : read loc key w = prop (content w loc) key.
Proof. done. Qed.

Lemma read_write_eq loc key v w :
  (loc < length (heap w))%nat → read loc key (write loc key v w) = v.
Proof.
  intros Hlt. unfold read, content, write. cbn [heap].
  rewrite list_lookup_alter_eq.
  destruct (lookup_lt_is_Some_2 _ _ Hlt) as [row ->]. cbn.
  unfold prop. by rewrite omap_get_set_eq.
Qed.

Lemma read_with_calls loc key w n :
  read loc key {| heap := heap w; randomCalls := n |} = read loc key w.
Proof. done. Qed.

Lemma sameExcept_refl loc key w : sameExcept loc key w w.
Proof. by split_and!. Qed.

Lemma sameExcept_trans loc key w1 w2 w3 :
  sameExcept loc key w1 w2 → sameExcept loc key w2 w3 →
  sameExcept loc key w1 w3.
Proof.
  intros (Hl1 & Ho1 & Hk1) (Hl2 & Ho2 & Hk2). split_and!.
  - congruence.
  - intros l Hl. by rewrite Ho2, Ho1.
  - intros k Hk. by rewrite Hk2, Hk1.
Qed.

Lemma sameExcept_write loc key v w : sameExcept loc key w (write loc key v w).
Proof.
  unfold write. split_and!; cbn [heap].
  - apply length_alter.
  - intros l Hl. by apply list_lookup_alter_ne.
  - intros k Hk. unfold read, content. cbn [heap].
    rewrite list_lookup_alter_eq.
    destruct (heap w !! loc) as [row|]; cbn; [|done].
    unfold prop. by rewrite omap_get_set_ne.
Qed.

Lemma sameExcept_calls loc key w w' n :
  sameExcept loc key w w' →
  sameExcept loc key w {| heap := heap w'; randomCalls := n |}.
Proof. done. Qed.

Lemma substitutePlaceholder_same loc key v w :
  sameExcept loc key w (substitutePlaceholder idMappings loc key v w).
Proof.
  unfold substitutePlaceholder.
  destruct v; try apply sameExcept_refl.
  destruct (includesBraces s); [|apply sameExcept_refl].
  destruct (matchPlaceholder s) as [[tableName indexStr]|];
    [|apply sameExcept_refl].
  destruct (idMappings !! tableName) as [availableIds|];
    [|apply sameExcept_refl].
  destruct (decide _); [apply sameExcept_write | apply sameExcept_refl].
Qed.

Lemma replaceUnknown_same loc key related v w :
  sameExcept loc key w (replaceUnknown random idMappings loc key related v w).
Proof.
  unfold replaceUnknown.
  destruct (idMappings !! related) as [availableIds|];
    [|apply sameExcept_refl].
  destruct (decide _); [|apply sameExcept_refl].
  destruct (decide _); [apply sameExcept_refl|].
  apply sameExcept_calls, sameExcept_write.
Qed.

Lemma processField_same loc w field :
  match fkColumn field with
  | Some key => sameExcept loc key w (processField random idMappings loc w field)
  | None => processField random idMappings loc w field = w
  end.
Proof.
  unfold fkColumn, processField.
  destruct (relation field) as [rel|]; [|done].
  destruct (foreignKeyField rel) as [fk|]; [|done].
  case_bool_decide; [done|].
  destruct (nullish _); [apply sameExcept_refl|].
  eapply sameExcept_trans;
    [apply substitutePlaceholder_same | apply replaceUnknown_same].
Qed.

Lemma sameOutside_fold loc : ∀ fs w,
  sameOutside loc fs w (foldl (processField random idMappings loc) w fs).
Proof.
  induction fs as [|f fs IH]; intros w; simpl.
  - by split_and!.
  - destruct (IH (processField random idMappings loc w f))
      as (Hlen & Hother & Hkeys).
    pose proof (processField_same loc w f) as Hf.
    destruct (fkColumn f) as [key|] eqn:Hcol.
    + destruct Hf as (Hlen1 & Hother1 & Hkeys1). split_and!.
      * congruence.
      * intros l Hl. by rewrite Hother, Hother1.
      * intros k Hk. rewrite Hkeys.
        -- apply Hkeys1. intros ->. eapply Hk; [|done].
           apply elem_of_cons. by left.
        -- intros f' Hf'. apply Hk. apply elem_of_cons. by right.
    + rewrite Hf in *. split_and!; [done..|].
      intros k Hk. apply Hkeys. intros f' Hf'. apply Hk.
      apply elem_of_cons. by right.
Qed.

(** *** The field names of the copy *)

Lemma read_defined_key loc key w :
  nullish (read loc key w) = false → key ∈ OMap.keys (content w loc).
Proof.
  unfold read, prop. intros Hv.
  destruct (OMap.get (content w loc) key) as [v|] eqn:Hget; [|done].
  by eapply omap_get_Some_key.
Qed.

Lemma write_keys loc key v w :
  key ∈ OMap.keys (content w loc) →
  OMap.keys (content (write loc key v w) loc) = OMap.keys (content w loc).
Proof.
  unfold content, write. cbn [heap]. rewrite list_lookup_alter_eq.
  destruct (heap w !! loc) as [row|]; cbn; [|done].
  apply omap_keys_set_in.
Qed.

Lemma substitutePlaceholder_keys loc key v w :
  key ∈ OMap.keys (content w loc) →
  OMap.keys (content (substitutePlaceholder idMappings loc key v w) loc)
  = OMap.keys (content w loc).
Proof.
  intros Hkey. unfold substitutePlaceholder.
  destruct v; try done.
  destruct (includesBraces s); [|done].
  destruct (matchPlaceholder s) as [[tableName indexStr]|]; [|done].
  destruct (idMappings !! tableName) as [availableIds|]; [|done].
  destruct (decide _); [by apply write_keys | done].
Qed.

Lemma replaceUnknown_keys loc key related v w :
  key ∈ OMap.keys (content w loc) →
  OMap.keys (content (replaceUnknown random idMappings loc key related v w) loc)
  = OMap.keys (content w loc).
Proof.
  intros Hkey. unfold replaceUnknown.
  destruct (idMappings !! related) as [availableIds|]; [|done].
  destruct (decide _); [|done].
  destruct (decide _); [done|].
  by apply (write_keys loc key).
Qed.

Lemma processField_keys loc w field :
  OMap.keys (content (processField random idMappings loc w field) loc)
  = OMap.keys (content w loc).
Proof.
  unfold processField.
  destruct (relation field) as [rel|]; [|done].
  destruct (foreignKeyField rel) as [fk|]; [|done].
  case_bool_decide; [done|].
  destruct (nullish (read loc fk w)) eqn:Hnull; [done|].
  apply read_defined_key in Hnull.
  rewrite replaceUnknown_keys; rewrite substitutePlaceholder_keys; done.
Qed.

Lemma fold_keys loc : ∀ fs w,
  OMap.keys (content (foldl (processField random idMappings loc) w fs) loc)
  = OMap.keys (content w loc).
Proof.
  induction fs as [|f fs IH]; intros w; simpl; [done|].
  by rewrite IH, processField_keys.
Qed.

Lemma scaleFloor_lt x len : (0 < len)%nat → (scaleFloor x len < len)%nat.
Proof.
  intros Hlen. unfold scaleFloor.
  apply Nat.Div0.div_lt_upper_bound. nia.
Qed.

(** The field loop leaves a member of the candidate list in the column of
    a relation, unless the value read was null or undefined, or was a
    placeholder text that the candidate list itself contains. *)
Lemma processField_member loc w field rel fk availableIds :
  relation field = Some rel →
  foreignKeyField rel = Some fk → fk ≠ "" →
  idMappings !! relatedTable rel = Some availableIds →
  availableIds ≠ [] →
  (loc < length (heap w))%nat →
  nullish (read loc fk w) = false →
  (read loc fk w ∈ availableIds →
   ∀ text, read loc fk w = VStr text → includesBraces text = false) →
  read loc fk (processField random idMappings loc w field) ∈ availableIds.
Proof.
  intros Hrel Hfk Hne Hids Hnonempty Hloc Hnull Hplain.
  unfold processField. rewrite Hrel, Hfk, bool_decide_false, Hnull by done.
  pose proof (substitutePlaceholder_same loc fk (read loc fk w) w)
    as (Hlen & _ & _).
  unfold replaceUnknown. rewrite Hids.
  rewrite decide_True by (destruct availableIds; [done | simpl; lia]).
  destruct (decide (read loc fk w ∈ availableIds)) as [Hin|Hout].
  - assert (Hsame : substitutePlaceholder idMappings loc fk (read loc fk w) w
                    = w).
    { unfold substitutePlaceholder.
      destruct (read loc fk w) as [| | | |text| |] eqn:Hv; try done.
      by rewrite (Hplain Hin text). }
    by rewrite Hsame.
  - rewrite read_with_calls, read_write_eq by lia.
    destruct (lookup_lt_is_Some_2 availableIds
                (scaleFloor
                   (random
                      (randomCalls
                         (substitutePlaceholder idMappings loc fk
                            (read loc fk w) w)))
                   (length availableIds))) as [x Hx].
    { apply scaleFloor_lt. destruct availableIds; [done | simpl; lia]. }
    rewrite Hx. simpl. by eapply list_elem_of_lookup_2.
Qed.

Variable tableSchema : TableDefinition.

Lemma transformRow_spec w row :
  (transformRow random idMappings tableSchema w row).1 = length (heap w)
  ∧ length (heap (transformRow random idMappings tableSchema w row).2)
    = S (length (heap w))
  ∧ (∀ l, (l < length (heap w))%nat →
       heap (transformRow random idMappings tableSchema w row).2 !! l
       = heap w !! l)
  ∧ (∀ k, (∀ f, f ∈ fields tableSchema → fkColumn f ≠ Some k) →
       read (length (heap w)) k
         (transformRow random idMappings tableSchema w row).2
       = read row k w)
  ∧ OMap.keys (content (transformRow random idMappings tableSchema w row).2
                 (length (heap w)))
    = OMap.keys (content w row).
Proof.
  unfold transformRow. cbn [fst snd].
  set (w1 := {| heap := heap w ++ [content w row];
                randomCalls := randomCalls w |}).
  destruct (sameOutside_fold (length (heap w)) (fields tableSchema) w1)
    as (Hlen & Hother & Hkeys).
  assert (Hnew : content w1 (length (heap w)) = content w row).
  { unfold content, w1. cbn [heap]. by rewrite list_lookup_middle. }
  split_and!; [done | | | |].
  - rewrite Hlen. unfold w1. cbn [heap]. rewrite length_app. simpl. lia.
  - intros l Hl. rewrite Hother by lia. unfold w1. cbn [heap].
    by rewrite lookup_app_l.
  - intros k Hk. rewrite Hkeys by done. by rewrite !read_content, Hnew.
  - by rewrite fold_keys, Hnew.
Qed.

Lemma transformForeignKeys_cons row rows w :
  transformForeignKeys random idMappings (row :: rows) tableSchema w
  = ((transformRow random idMappings tableSchema w row).1
       :: (transformForeignKeys random idMappings rows tableSchema
             (transformRow random idMappings tableSchema w row).2).1,
     (transformForeignKeys random idMappings rows tableSchema
        (transformRow random idMappings tableSchema w row).2).2).
Proof.
  cbn [transformForeignKeys].
  destruct (transformRow random idMappings tableSchema w row) as [out w1].
  cbn [fst snd].
  by destruct (transformForeignKeys random idMappings rows tableSchema w1).
Qed.

(** Objects that exist before the call are the same after it. *)
Lemma transformForeignKeys_frame : ∀ rows w,
  (length (heap w)
   ≤ length (heap (transformForeignKeys random idMappings rows
                     tableSchema w).2))%nat
  ∧ ∀ l, (l < length (heap w))%nat →
      heap (transformForeignKeys random idMappings rows tableSchema w).2 !! l
      = heap w !! l.
Proof.
  induction rows as [|row rows IH]; intros w.
  - by split.
  - rewrite transformForeignKeys_cons. cbn [fst snd].
    destruct (transformRow_spec w row) as (_ & Hlen & Hsame & _ & _).
    destruct (IH (transformRow random idMappings tableSchema w row).2)
      as [Hle Hsame'].
    split; [lia|]. intros l Hl. rewrite Hsame' by lia. by apply Hsame.
Qed.

(** A property that relates the input object of [transformRow] to the
    object it returns relates every input row of [transformForeignKeys] to
    the output row at the same index; the output row is a new object. *)
Lemma transformForeignKeys_rows (Φ : Row → Row → Prop) :
  (∀ w row,
     Φ (content w row)
       (content (transformRow random idMappings tableSchema w row).2
          (length (heap w)))) →
  ∀ rows w i row,
    rows !! i = Some row → (row < length (heap w))%nat →
    ∃ out,
      (transformForeignKeys random idMappings rows tableSchema w).1 !! i
      = Some out
      ∧ (length (heap w) ≤ out)%nat
      ∧ Φ (content w row)
          (content
             (transformForeignKeys random idMappings rows tableSchema w).2
             out).
Proof.
  intros HΦ. induction rows as [|r rows IH]; intros w i row Hi Hrow.
  - by rewrite lookup_nil in Hi.
  - rewrite transformForeignKeys_cons. cbn [fst snd].
    destruct (transformRow_spec w r) as (Hout & Hlen & Hsame & _ & _).
    set (w1 := (transformRow random idMappings tableSchema w r).2) in *.
    destruct (transformForeignKeys_frame rows w1) as [Hle Hframe].
    destruct i as [|i]; simpl in Hi.
    + injection Hi as ->. exists (length (heap w)).
      split_and!; [by rewrite Hout | done |].
      unfold content at 2. rewrite Hframe by lia. apply HΦ.
    + destruct (IH w1 i row Hi) as (out & Hlook & Hge & Hrel); [lia|].
      exists out. split_and!; [done | lia |].
      unfold content at 1 in Hrel. rewrite Hsame in Hrel by done.
      exact Hrel.
Qed.
End transformer_facts.

Section transformer_claims.
Import Transformer TransformerSpec.

Lemma fkColumn_relation field key :
  (∀ rel, relation field = Some rel → foreignKeyField rel ≠ Some key) →
  fkColumn field ≠ Some key.
Proof.
  unfold fkColumn. intros Hno.
  destruct (relation field) as [rel|]; [|done].
  specialize (Hno rel eq_refl).
  destruct (foreignKeyField rel) as [fk|]; [|done].
  case_bool_decide; congruence.
Qed.

(** C10 (frame): [transformForeignKeys] changes no object that exists when
    it is called, so no input row; the output row at each index is a new
    object with the field names of the input row, and under every name that
    is not the foreign-key field of a relation of the table definition it
    holds the value the input row holds. *)
Theorem transform_leaves_the_rest (random : nat → UnitFraction)
    (idMappings : IdMappings) (tableSchema : TableDefinition)
    (rows : list nat) (w : World) (i row : nat) (key : string) :
  rows !! i = Some row →
  (row < length (heap w))%nat →
  (∀ field rel, field ∈ fields tableSchema → relation field = Some rel →
                foreignKeyField rel ≠ Some key) →
  (∀ l, (l < length (heap w))%nat →
     heap (transformForeignKeys random idMappings rows tableSchema w).2 !! l
     = heap w !! l)
  ∧ ∃ out,
      (transformForeignKeys random idMappings rows tableSchema w).1 !! i
      = Some out
      ∧ (length (heap w) ≤ out)%nat
      ∧ OMap.keys
          (content
             (transformForeignKeys random idMappings rows tableSchema w).2
             out)
        = OMap.keys (content w row)
      ∧ read out key
          (transformForeignKeys random idMappings rows tableSchema w).2
        = read row key w.
Proof.
  intros Hi Hrow Hkey. split.
  - apply transformForeignKeys_frame.
  - destruct (transformForeignKeys_rows random idMappings tableSchema
                (λ input output,
                   OMap.keys output = OMap.keys input
                   ∧ prop output key = prop input key))
      with (rows := rows) (w := w) (i := i) (row := row)
      as (out & Hout & Hfresh & Hnames & Hsame); [|done..|by exists out].
    intros w0 row0.
    destruct (transformRow_spec random idMappings tableSchema w0 row0)
      as (_ & _ & _ & Hkeys & Hnames).
    split; [done|].
    apply Hkeys. intros f Hf. apply fkColumn_relation. eauto.
Qed.

Lemma transform_leaves_the_rest_witness :
  (∀ l, (l < 1)%nat →
     heap (transformForeignKeys (λ _, zero) userIds [0%nat] postSchema
             (oneRow (VNum 999))).2 !! l
     = heap (oneRow (VNum 999)) !! l)
  ∧ ∃ out,
      (transformForeignKeys (λ _, zero) userIds [0%nat] postSchema
         (oneRow (VNum 999))).1 !! 0%nat = Some out
      ∧ (1 ≤ out)%nat
      ∧ OMap.keys
          (content
             (transformForeignKeys (λ _, zero) userIds [0%nat] postSchema
                (oneRow (VNum 999))).2
             out)
        = OMap.keys (content (oneRow (VNum 999)) 0)
      ∧ read out "title"
          (transformForeignKeys (λ _, zero) userIds [0%nat] postSchema
             (oneRow (VNum 999))).2
        = read 0 "title" (oneRow (VNum 999)).
Proof.
  apply (transform_leaves_the_rest (λ _, zero) userIds postSchema [0%nat]
           (oneRow (VNum 999)) 0 0 "title").
  - reflexivity.
  - simpl. lia.
  - intros field rel Hfield Hrel.
    apply elem_of_cons in Hfield as [->|Hfield]; [done|].
    apply elem_of_cons in Hfield as [->|Hfield].
    + injection Hrel as <-. done.
    + by apply elem_of_nil in Hfield.
Defined.

(** C2 on the code: for the row [{userId: "{{User_2}}"}] and the
    identifiers 10, 20, 30 of User, the placeholder is first replaced by
    20, and then, because the membership test is made on the value read
    before the replacement, by the identifier [Math.random] selects; when
    the call returns 0 the output holds 10. *)
Theorem placeholder_is_overwritten :
  (∀ random,
     read 1 "userId"
       (transformForeignKeys random userIds [0%nat] postSchema
          (oneRow (VStr "{{User_2}}"))).2
     = default VUndefined
         ([VNum 10; VNum 20; VNum 30] !! scaleFloor (random 0%nat) 3))
  ∧ read 1 "userId"
      (transformForeignKeys (λ _, zero) userIds [0%nat] postSchema
         (oneRow (VStr "{{User_2}}"))).2
    = VNum 10
  ∧ read 1 "userId"
      (substitutePlaceholder userIds 1 "userId" (VStr "{{User_2}}")
         {| heap := heap (oneRow (VStr "{{User_2}}"))
                    ++ [content (oneRow (VStr "{{User_2}}")) 0];
            randomCalls := 0 |})
    = VNum 20.
Proof.
  split_and!; [|vm_compute; reflexivity..].
  intros random. reflexivity.
Qed.

(** C5 as stated fails: the relation towards User is carried by the
    column [ownerId], User has the identifier 10, the row holds 10 there,
    and the output row holds 7, an identifier of Group, which a second
    relation carried by the same column has written. *)
Lemma membership_as_stated_counterexample :
  sharedColumnIds !! "User" = Some [VNum 10]
  ∧ (fkColumn <$> fields sharedColumnSchema)
    = [Some "ownerId"; Some "ownerId"]
  ∧ nullish (read 0 "ownerId" sharedColumnWorld) = false
  ∧ (transformForeignKeys (λ _, zero) sharedColumnIds [0%nat]
       sharedColumnSchema sharedColumnWorld).1 = [1%nat]
  ∧ read 1 "ownerId"
      (transformForeignKeys (λ _, zero) sharedColumnIds [0%nat]
         sharedColumnSchema sharedColumnWorld).2
    = VNum 7
  ∧ VNum 7 ∉ [VNum 10].
Proof.
  split_and!; [vm_compute; reflexivity..|].
  intros Hin. apply list_elem_of_singleton in Hin. done.
Qed.

(** The membership test on the value read before the substitution also
    lets a substituted identifier of another table through, when the
    placeholder text is itself in the candidate list. *)
Lemma placeholder_that_is_an_identifier :
  read 1 "userId"
    (transformForeignKeys (λ _, zero) placeholderIds [0%nat] postSchema
       (oneRow (VStr "{{Post_1}}"))).2
  = VNum 5.
Proof. vm_compute. reflexivity. Qed.

(** C5, amended (membership): for a relation whose foreign-key field no
    other relation of the table definition uses, when the candidate list
    of the related table is not empty and the input row holds in that
    field a value that is neither null nor undefined, and that is not a
    text containing two opening braces which the candidate list itself
    contains, the output row holds in that field a member of the candidate
    list. *)
Theorem resolved_key_is_member (random : nat → UnitFraction)
    (idMappings : IdMappings) (tableSchema : TableDefinition)
    (before after : list FieldDefinition) (field : FieldDefinition)
    (rel : RelationInfo) (fk : string) (availableIds : list Value)
    (rows : list nat) (w : World) (i row : nat) :
  fields tableSchema = before ++ field :: after →
  relation field = Some rel →
  foreignKeyField rel = Some fk → fk ≠ "" →
  (∀ f r, f ∈ before ++ after → relation f = Some r →
          foreignKeyField r ≠ Some fk) →
  idMappings !! relatedTable rel = Some availableIds →
  availableIds ≠ [] →
  rows !! i = Some row →
  (row < length (heap w))%nat →
  nullish (read row fk w) = false →
  (read row fk w ∈ availableIds →
   ∀ text, read row fk w = VStr text → includesBraces text = false) →
  ∃ out,
    (transformForeignKeys random idMappings rows tableSchema w).1 !! i
    = Some out
    ∧ read out fk
        (transformForeignKeys random idMappings rows tableSchema w).2
      ∈ availableIds.
Proof.
  intros Hfields Hrel Hfk Hne Hothers Hids Hnonempty Hi Hrow Hnull Hplain.
  destruct (transformForeignKeys_rows random idMappings tableSchema
              (λ input output,
                 nullish (prop input fk) = false →
                 (prop input fk ∈ availableIds →
                  ∀ text, prop input fk = VStr text →
                          includesBraces text = false) →
                 prop output fk ∈ availableIds))
    with (rows := rows) (w := w) (i := i) (row := row)
    as (out & Hout & _ & Hmember); [|done..|].
  2:{ exists out. split; [done|]. by apply Hmember. }
  clear dependent w. clear dependent row. clear rows i.
  intros w row Hnull Hplain.
  unfold transformRow. cbn [snd]. rewrite Hfields, foldl_app. cbn [foldl].
  set (tr := length (heap w)).
  set (w1 := {| heap := heap w ++ [content w row];
                randomCalls := randomCalls w |}).
  set (w2 := foldl (processField random idMappings tr) w1 before).
  set (w3 := processField random idMappings tr w2 field).
  assert (Hnew : content w1 tr = content w row).
  { unfold content, w1, tr. cbn [heap]. by rewrite list_lookup_middle. }
  destruct (sameOutside_fold random idMappings tr before w1)
    as (Hlen2 & _ & Hkeys2).
  destruct (sameOutside_fold random idMappings tr after w3)
    as (_ & _ & Hkeys4).
  fold w2 in Hlen2, Hkeys2.
  assert (Hread2 : read tr fk w2 = prop (content w row) fk).
  { rewrite Hkeys2, read_content, Hnew; [done|].
    intros f Hf. apply fkColumn_relation. intros r Hr.
    apply (Hothers f r); [|done]. apply elem_of_app. by left. }
  rewrite <- read_content, Hkeys4.
  2:{ intros f Hf. apply fkColumn_relation. intros r Hr.
      apply (Hothers f r); [|done]. apply elem_of_app. by right. }
  apply (processField_member random idMappings tr w2 field rel fk);
    try done.
  - rewrite Hlen2. unfold w1, tr. cbn [heap]. rewrite length_app. simpl. lia.
  - by rewrite Hread2.
  - by rewrite Hread2.
Qed.

Lemma resolved_key_is_member_witness :
  ∃ out,
    (transformForeignKeys (λ _, zero) userIds [0%nat] postSchema
       (oneRow (VNum 999))).1 !! 0%nat = Some out
    ∧ read out "userId"
        (transformForeignKeys (λ _, zero) userIds [0%nat] postSchema
           (oneRow (VNum 999))).2
      ∈ [VNum 10; VNum 20; VNum 30].
Proof.
  eapply (resolved_key_is_member (λ _, zero) userIds postSchema
            [Samples.scalar "userId"] []).
  - reflexivity.
  - reflexivity.
  - reflexivity.
  - done.
  - intros f r Hf Hr. apply list_elem_of_singleton in Hf as ->. done.
  - reflexivity.
  - done.
  - reflexivity.
  - simpl. lia.
  - reflexivity.
  - intros Hin. exfalso. revert Hin. apply (bool_decide_eq_false_1 _).
    vm_compute. reflexivity.
Defined.
End transformer_claims.

(** ** The inserter *)

Section inserter_facts.
Import Inserter InserterSpec.
Variable db : Database.
Variable tableName : string.

Lemma sentCount_snoc log q : sentCount (log ++ [Sent q]) = S (sentCount log).
Proof.
  unfold sentCount. rewrite filter_app, length_app. simpl. lia.
Qed.

Lemma sentCount_statements log batches :
  sentCount (log ++ statements tableName batches)
  = (sentCount log + length batches)%nat.
Proof.
  unfold sentCount, statements. rewrite filter_app, length_app. f_equal.
  induction batches as [|b bs IH]; [done|].
  rewrite fmap_cons, filter_cons. simpl. by rewrite IH.
Qed.

(** One turn of the batch loop never throws: it accounts for the answer
    of the store, whatever it is. *)
Lemma insertOne_spec result batch log :
  batch ≠ [] →
  insertOne db tableName result batch log
  = (Returns
       {| resultTable := resultTable result;
          inserted := inserted result
                      + insertedRows db tableName (sentCount log) [batch];
          failed := failed result
                    + failedRows db tableName (sentCount log) [batch];
          errors := errors result
                    ++ messages db tableName (sentCount log) [batch];
          ids := ids result
                 ++ harvested db tableName (sentCount log) [batch] |},
     log ++ statements tableName [batch]).
Proof.
  intros Hne. destruct batch as [|first rest]; [done|].
  cbv beta iota zeta
    delta [insertOne tryCatch bind insertBatch query ret statements].
  cbn [insertedRows failedRows messages harvested answer fmap list_fmap
       head default id].
  destruct (respond db (sentCount log) (insertQuery tableName first
                                          (first :: rest))) as [qr|e].
  - rewrite !Z.add_0_r, !app_nil_r. done.
  - rewrite !Z.add_0_r, !app_nil_r. done.
Qed.

Lemma insertAll_spec : ∀ batches result log,
  Forall (λ batch, batch ≠ []) batches →
  insertAll db tableName result batches log
  = (Returns
       {| resultTable := resultTable result;
          inserted := inserted result
                      + insertedRows db tableName (sentCount log) batches;
          failed := failed result
                    + failedRows db tableName (sentCount log) batches;
          errors := errors result
                    ++ messages db tableName (sentCount log) batches;
          ids := ids result
                 ++ harvested db tableName (sentCount log) batches |},
     log ++ statements tableName batches).
Proof.
  induction batches as [|batch batches IH]; intros result log Hne.
  - simpl. unfold ret. rewrite !Z.add_0_r, !app_nil_r.
    by destruct result.
  - apply Forall_cons in Hne as [Hb Hne].
    cbn [insertAll]. unfold bind at 1. rewrite insertOne_spec by done.
    rewrite IH by done. cbn [resultTable inserted failed errors ids].
    assert (Hk : sentCount (log ++ statements tableName [batch])
                 = S (sentCount log)).
    { rewrite sentCount_statements. simpl. lia. }
    rewrite Hk.
    cbn [insertedRows failedRows messages harvested statements fmap
         list_fmap].
    rewrite !Z.add_0_r, !app_nil_r, <- !app_assoc, <- !Z.add_assoc.
    done.
Qed.

Lemma splitRows_spec all batchSize :
  0 < batchSize →
  ∀ fuel i,
    (length all - i < fuel)%nat →
    ∃ batches,
      splitRows fuel all batchSize (Z.of_nat i) = Some batches
      ∧ Forall (λ batch, batch ≠ []) batches
      ∧ concat batches = drop i all.
Proof.
  intros Hpos. induction fuel as [|fuel IH]; intros i Hfuel; [lia|].
  cbn [splitRows]. destruct (decide (Z.of_nat i < Z.of_nat (length all)))
    as [Hlt|Hge].
  2:{ exists []. split_and!; [done..|]. rewrite drop_ge by lia. done. }
  destruct (IH (i + Z.to_nat batchSize)%nat) as (batches & Hs & Hne & Hcat);
    [lia|].
  replace (Z.of_nat i + batchSize) with (Z.of_nat (i + Z.to_nat batchSize))
    by lia.
  rewrite Hs. simpl. eexists. split; [done|].
  assert (Hslice : slice all (Z.of_nat i) (Z.of_nat (i + Z.to_nat batchSize))
                   = take (Z.to_nat batchSize) (drop i all)).
  { unfold slice. rewrite !decide_False by lia.
    rewrite (Z.min_l (Z.of_nat i)) by lia. rewrite Nat2Z.id.
    destruct (decide (i + Z.to_nat batchSize ≤ length all)%nat).
    - rewrite Z.min_l by lia. f_equal. lia.
    - rewrite Z.min_r by lia.
      rewrite !take_ge; [done | rewrite length_drop; lia..]. }
  rewrite Hslice. split.
  - apply Forall_cons. split; [|done].
    intros Hnil. apply (f_equal length) in Hnil.
    rewrite length_take, length_drop in Hnil. simpl in Hnil. lia.
  - simpl. rewrite Hcat.
    rewrite <- (take_drop (Z.to_nat batchSize) (drop i all)) at 2.
    by rewrite drop_drop.
Qed.

(** [insertData] ends on every non-empty list of rows and positive batch
    size; with a connected client, what it returns or throws and the
    statements it sends depend on the answers to the batches only through
    the counts and messages of the result. *)
Lemma insertData_outcome all batchSize :
  all ≠ [] → 0 < batchSize → connectError db = None →
  ∃ m batches,
    insertData db tableName all batchSize = Some m
    ∧ Forall (λ batch, batch ≠ []) batches
    ∧ concat batches = all
    ∧ transactionOutcome db tableName batches (m []).
Proof.
  intros Hall Hpos Hconn. unfold insertData.
  destruct all as [|row all]; [done|].
  destruct (splitRows_spec (row :: all) batchSize Hpos
              (S (length (row :: all))) 0) as (batches & Hs & Hne & Hcat);
    [simpl; lia|].
  change (Z.of_nat 0) with 0 in Hs. rewrite Hs. cbn [mbind option_bind].
  eexists _, batches. split_and!; [done | done | done |].
  unfold transactionOutcome, connect. rewrite Hconn.
  cbv beta iota zeta delta [bind ret finally tryCatch query throw release].
  change (sentCount []) with 0%nat.
  destruct (respond db 0 BEGIN) as [began|e].
  - rewrite insertAll_spec by done. cbv beta iota.
    rewrite sentCount_statements.
    change (sentCount ([] ++ [Sent BEGIN])) with 1%nat.
    replace (1 + length batches)%nat with (S (length batches)) by lia.
    destruct (respond db (S (length batches)) COMMIT) as [committed|e].
    + simpl. by rewrite <- !app_assoc.
    + rewrite sentCount_snoc, sentCount_statements.
      change (sentCount ([] ++ [Sent BEGIN])) with 1%nat.
      replace (S (1 + length batches))%nat with (S (S (length batches)))
        by lia.
      destruct (respond db (S (S (length batches))) ROLLBACK);
        simpl; by rewrite <- !app_assoc.
  - change (sentCount ([] ++ [Sent BEGIN])) with 1%nat.
    destruct (respond db 1 ROLLBACK); done.
Qed.
End inserter_facts.

Section inserter_claims.
Import Inserter InserterSpec.

Lemma substring_all (s : string) : String.substring 0 (String.length s) s = s.
Proof. induction s as [|c s IH]; simpl; [done | by rewrite IH]. Qed.

Lemma substring_after (p s : string) (m : nat) :
  String.substring (String.length p) m (p +:+ s) = String.substring 0 m s.
Proof. induction p as [|c p IH]; simpl; [done | apply IH]. Qed.

Lemma length_append (p s : string) :
  String.length (p +:+ s) = (String.length p + String.length s)%nat.
Proof. induction p as [|c p IH]; simpl; [done | by rewrite IH]. Qed.

Lemma substring_split (s : string) : ∀ k,
  (k ≤ String.length s)%nat →
  s = String.substring 0 k s +:+ String.substring k (String.length s - k) s.
Proof.
  induction s as [|c s IH]; intros k Hk.
  - destruct k; simpl in *; [done | lia].
  - destruct k as [|k]; simpl.
    + by rewrite substring_all.
    + change (String c s
              = String c (String.substring 0 k s
                          +:+ String.substring k (String.length s - k) s)).
      f_equal. apply IH. simpl in Hk. lia.
Qed.

Lemma endsWith_spec (key suffix : string) :
  endsWith key suffix = true ↔ ∃ before, key = before +:+ suffix.
Proof.
  unfold endsWith. split.
  - destruct (decide _) as [Hle|]; [|done].
    intros Heq. apply bool_decide_eq_true in Heq.
    exists (String.substring 0 (String.length key - String.length suffix) key).
    pose proof (substring_split key
                  (String.length key - String.length suffix)) as Hsplit.
    replace (String.length key
             - (String.length key - String.length suffix))%nat
      with (String.length suffix) in Hsplit by lia.
    rewrite Heq in Hsplit. apply Hsplit. lia.
  - intros [before ->]. rewrite length_append.
    rewrite decide_True by lia. apply bool_decide_eq_true.
    replace (String.length before + String.length suffix
             - String.length suffix)%nat
      with (String.length before) by lia.
    by rewrite substring_after, substring_all.
Qed.

Lemma isIdKey_spec (key : string) : isIdKey key = true ↔ idLike key.
Proof.
  unfold isIdKey, idLike.
  rewrite orb_true_iff, bool_decide_eq_true, endsWith_spec. done.
Qed.

Lemma harvestIds_none (first : Row) (rest : list Row) :
  (∀ key, key ∈ OMap.keys first → ¬ idLike key) →
  harvestIds (first :: rest) = [].
Proof.
  intros Hnone. unfold harvestIds.
  destruct (List.find isIdKey (OMap.keys first)) as [key|] eqn:Hfind;
    [|done].
  apply find_some in Hfind as [Hin Hid].
  destruct (Hnone key); [by apply list_elem_of_In | by apply isIdKey_spec].
Qed.

Lemma harvestIds_first (first : Row) (rest : list Row)
    (skipped : list string) (key : string) (others : list string) :
  OMap.keys first = skipped ++ key :: others →
  idLike key →
  (∀ k, k ∈ skipped → ¬ idLike k) →
  harvestIds (first :: rest) = (λ r, prop r key) <$> (first :: rest).
Proof.
  intros Hkeys Hid Hskipped. unfold harvestIds. rewrite Hkeys.
  assert (Hfind : List.find isIdKey (skipped ++ key :: others) = Some key).
  { clear Hkeys. induction skipped as [|k skipped IH]; simpl.
    - apply isIdKey_spec in Hid. by rewrite Hid.
    - destruct (isIdKey k) eqn:Hk.
      + destruct (Hskipped k); [apply elem_of_cons; by left|].
        by apply isIdKey_spec.
      + apply IH. intros k' Hk'. apply Hskipped, elem_of_cons. by right. }
  by rewrite Hfind.
Qed.

Lemma harvested_none (db : Database) (tableName : string)
    (batches : list (list Row)) :
  (∀ k batch queryResult first,
     answer db tableName k batch = Returns queryResult →
     head (rows queryResult) = Some first →
     ∀ key, key ∈ OMap.keys first → ¬ idLike key) →
  ∀ k, harvested db tableName k batches = [].
Proof.
  intros Hnone. induction batches as [|batch batches IH]; intros k; [done|].
  cbn [harvested]. rewrite IH, app_nil_r.
  destruct (answer db tableName k batch) as [queryResult|e] eqn:Hanswer;
    [|done].
  destruct (rows queryResult) as [|first rest] eqn:Hrows; [done|].
  apply harvestIds_none. apply (Hnone k batch queryResult first Hanswer).
  by rewrite Hrows.
Qed.

(** C3 as stated fails: the statement of the only batch raises, and
    [insertData] sends COMMIT, never ROLLBACK, and returns a result in
    which the row is counted as failed. *)
Lemma rollback_as_stated_counterexample :
  answer rejecting "User" 1 [[("id", VNum 1)]] = Throws boom
  ∧ ∃ m,
      insertData rejecting "User" [[("id", VNum 1)]] 500 = Some m
      ∧ m [] = (Returns {| resultTable := "User"; inserted := 0;
                           failed := 1;
                           errors := ["Batch failed: error: boom"];
                           ids := [] |},
                [Sent BEGIN; Sent (INSERT "User" ["id"] [VNum 1]);
                 Sent COMMIT; Released])
      ∧ (Sent ROLLBACK ∉ (m []).2)
      ∧ (∀ e, (m []).1 ≠ Throws e).
Proof.
  split; [reflexivity|]. eexists. split; [reflexivity|].
  split_and!; [vm_compute; reflexivity | |done].
  vm_compute. intros Hin.
  repeat (apply elem_of_cons in Hin as [Hin|Hin]; [done|]).
  by apply elem_of_nil in Hin.
Qed.

(** C3, amended (batch errors): an exception raised by the statement of a
    batch is caught inside [insertData]. With a connected client, whether
    the call returns or throws and whether ROLLBACK is sent depend on the
    answers to BEGIN and COMMIT only: when both succeed, BEGIN, the
    statement of every batch and COMMIT are sent, ROLLBACK is not, and the
    result is returned, counting the rows of each batch that raised as
    failed under a message that starts with [Batch failed]; the
    transaction is rolled back and the exception propagated when BEGIN or
    COMMIT raises. *)
Theorem batch_errors_are_absorbed (db : Database) (tableName : string)
    (all : list Row) (batchSize : Z) :
  all ≠ [] → 0 < batchSize → connectError db = None →
  ∃ m batches,
    insertData db tableName all batchSize = Some m
    ∧ concat batches = all
    ∧ transactionOutcome db tableName batches (m []).
Proof.
  intros Hall Hpos Hconn.
  destruct (insertData_outcome db tableName all batchSize Hall Hpos Hconn)
    as (m & batches & Hm & _ & Hcat & Hout).
  by exists m, batches.
Qed.

Lemma batch_errors_are_absorbed_witness :
  ∃ m batches,
    insertData rejecting "User" [[("id", VNum 1)]] 500 = Some m
    ∧ concat batches = [[("id", VNum 1)]]
    ∧ transactionOutcome rejecting "User" batches (m []).
Proof.
  apply (batch_errors_are_absorbed rejecting "User" [[("id", VNum 1)]] 500).
  - done.
  - lia.
  - reflexivity.
Defined.

(** C9 (harvested identifiers): when BEGIN and COMMIT succeed, the
    identifiers of the result are those harvested from the rows each
    batch returned, in order. From the rows of one batch nothing is
    harvested when no key of the first returned row is [id] or ends with
    [_id], however many rows were inserted, so that the identifiers of the
    result are empty when this is so for every batch; otherwise the first
    such key of the first returned row is read in every returned row. *)
Theorem identifiers_come_from_id_columns (db : Database)
    (tableName : string) (all : list Row) (batchSize : Z) :
  all ≠ [] → 0 < batchSize → connectError db = None →
  (∀ n, ∃ r, respond db n BEGIN = Returns r) →
  (∀ n, ∃ r, respond db n COMMIT = Returns r) →
  ∃ m batches result log,
    insertData db tableName all batchSize = Some m
    ∧ concat batches = all
    ∧ m [] = (Returns result, log)
    ∧ ids result = harvested db tableName 1 batches
    ∧ inserted result = insertedRows db tableName 1 batches
    ∧ ((∀ k batch queryResult first,
          answer db tableName k batch = Returns queryResult →
          head (rows queryResult) = Some first →
          ∀ key, key ∈ OMap.keys first → ¬ idLike key) →
       ids result = [])
    ∧ (∀ first rest,
         (∀ key, key ∈ OMap.keys first → ¬ idLike key) →
         harvestIds (first :: rest) = [])
    ∧ (∀ first rest skipped key others,
         OMap.keys first = skipped ++ key :: others →
         idLike key →
         (∀ k, k ∈ skipped → ¬ idLike k) →
         harvestIds (first :: rest) = (λ r, prop r key) <$> (first :: rest)).
Proof.
  intros Hall Hpos Hconn Hbegin Hcommit.
  destruct (insertData_outcome db tableName all batchSize Hall Hpos Hconn)
    as (m & batches & Hm & _ & Hcat & Hout).
  unfold transactionOutcome in Hout.
  destruct (Hbegin 0%nat) as [began Hb]. rewrite Hb in Hout.
  destruct (Hcommit (S (length batches))) as [committed Hc].
  rewrite Hc in Hout.
  eexists m, batches, _, _.
  split_and!; [done | done | exact Hout | done | done | | |].
  - intros Hnone. cbn [ids]. by apply harvested_none.
  - apply harvestIds_none.
  - apply harvestIds_first.
Qed.

Lemma identifiers_come_from_id_columns_witness :
  ∃ m batches result log,
    insertData (returning plainRows) "Token" plainRows 500 = Some m
    ∧ concat batches = plainRows
    ∧ m [] = (Returns result, log)
    ∧ ids result = harvested (returning plainRows) "Token" 1 batches
    ∧ inserted result = insertedRows (returning plainRows) "Token" 1 batches
    ∧ ((∀ k batch queryResult first,
          answer (returning plainRows) "Token" k batch = Returns queryResult →
          head (rows queryResult) = Some first →
          ∀ key, key ∈ OMap.keys first → ¬ idLike key) →
       ids result = [])
    ∧ (∀ first rest,
         (∀ key, key ∈ OMap.keys first → ¬ idLike key) →
         harvestIds (first :: rest) = [])
    ∧ (∀ first rest skipped key others,
         OMap.keys first = skipped ++ key :: others →
         idLike key →
         (∀ k, k ∈ skipped → ¬ idLike k) →
         harvestIds (first :: rest) = (λ r, prop r key) <$> (first :: rest)).
Proof.
  apply (identifiers_come_from_id_columns (returning plainRows) "Token"
           plainRows 500).
  - done.
  - lia.
  - reflexivity.
  - intros n. by eexists.
  - intros n. by eexists.
Defined.

(** Two rows are inserted and no identifier is harvested, the returned
    rows having the columns [uuid] and [name] only; with the columns
    [name], [user_id] and [id], in this order, [user_id] is harvested. *)
Lemma harvest_examples :
  (∃ m, insertData (returning plainRows) "Token" plainRows 500 = Some m
        ∧ (m []).1 = Returns {| resultTable := "Token"; inserted := 2;
                                failed := 0; errors := []; ids := [] |})
  ∧ (∃ m, insertData (returning keyedRows) "Post" keyedRows 500 = Some m
          ∧ (m []).1 = Returns {| resultTable := "Post"; inserted := 2;
                                  failed := 0; errors := [];
                                  ids := [VNum 5; VNum 6] |}).
Proof. split; eexists; (split; [reflexivity | vm_compute; reflexivity]). Qed.
End inserter_claims.

(** ** The generator *)

Section generator_claims.
Import Generator GeneratorSpec.

Lemma splitCount_spec (batchSize : Z) :
  0 < batchSize →
  ∀ fuel remaining,
    0 ≤ remaining → (Z.to_nat remaining ≤ fuel)%nat →
    splitCount fuel remaining batchSize
    = Some (replicate (Z.to_nat (remaining / batchSize)) batchSize
            ++ if decide (Z.modulo remaining batchSize = 0) then []
               else [Z.modulo remaining batchSize]).
Proof.
  intros Hpos. induction fuel as [|fuel IH]; intros remaining Hge Hfuel.
  - assert (remaining = 0) as -> by lia. cbn [splitCount].
    rewrite Z.div_0_l, Z.mod_0_l by lia. done.
  - cbn [splitCount]. destruct (decide (0 < remaining)) as [Hrem|Hrem].
    2:{ assert (remaining = 0) as -> by lia.
        rewrite Z.div_0_l, Z.mod_0_l by lia. done. }
    destruct (decide (remaining < batchSize)) as [Hsmall|Hbig].
    + rewrite Z.min_l by lia. rewrite Z.sub_diag.
      rewrite IH by lia.
      rewrite Z.div_0_l, Z.mod_0_l by lia.
      rewrite Z.div_small, Z.mod_small by lia. simpl.
      by rewrite decide_False by lia.
    + rewrite Z.min_r by lia. rewrite IH by lia. simpl.
      assert (Hdiv : remaining / batchSize
                     = (remaining - batchSize) / batchSize + 1).
      { rewrite <- (Z.div_add _ 1) by lia. f_equal. lia. }
      assert (Hmod : Z.modulo remaining batchSize
                     = Z.modulo (remaining - batchSize) batchSize).
      { rewrite <- (Z.mod_add (remaining - batchSize) 1) by lia.
        f_equal. lia. }
      rewrite Hdiv, Hmod.
      assert (0 ≤ (remaining - batchSize) / batchSize)
        by (apply Z.div_pos; lia).
      rewrite Z2Nat.inj_add by lia.
      rewrite Nat.add_comm. done.
Qed.

(** C6 (batch plan): the batch size is 10 for more than 15 fields, 20 for
    11 to 15 fields and 30 for at most 10; a positive count is requested
    in consecutive batches of that size, followed by a batch for the
    remainder when there is one. *)
Theorem batch_plan (context : GenerationContext) :
  0 < count context →
  (15 < Z.of_nat (length (fields (tableSchema context))) →
   getOptimalBatchSize context = 10)
  ∧ (10 < Z.of_nat (length (fields (tableSchema context))) ≤ 15 →
     getOptimalBatchSize context = 20)
  ∧ (Z.of_nat (length (fields (tableSchema context))) ≤ 10 →
     getOptimalBatchSize context = 30)
  ∧ batchCounts context
    = Some (replicate
              (Z.to_nat (count context / getOptimalBatchSize context))
              (getOptimalBatchSize context)
            ++ if decide (Z.modulo (count context)
                            (getOptimalBatchSize context) = 0)
               then []
               else [Z.modulo (count context)
                       (getOptimalBatchSize context)]).
Proof.
  intros Hcount.
  assert (Hsize : 0 < getOptimalBatchSize context).
  { unfold getOptimalBatchSize. repeat case_decide; lia. }
  split_and!.
  - intros H. unfold getOptimalBatchSize. by rewrite decide_True.
  - intros [H1 H2]. unfold getOptimalBatchSize.
    rewrite decide_False by lia. by rewrite decide_True.
  - intros H. unfold getOptimalBatchSize. by rewrite !decide_False by lia.
  - unfold batchCounts.
    destruct (decide (count context ≤ getOptimalBatchSize context))
      as [Hle|Hgt].
    + destruct (decide (count context = getOptimalBatchSize context))
        as [Heq|Hne].
      * rewrite Heq, Z.div_same, Z.mod_same by lia.
        by rewrite decide_True.
      * rewrite Z.div_small, Z.mod_small by lia. simpl.
        by rewrite decide_False by lia.
    + apply splitCount_spec; lia.
Qed.

Lemma batch_plan_witness : batchCounts (request 8 105) = Some [30; 30; 30; 15].
Proof.
  assert (Hcount : 0 < count (request 8 105)) by (simpl; lia).
  exact (proj2 (proj2 (proj2 (batch_plan (request 8 105) Hcount)))).
Defined.

Lemma slice_head_length {A} (l : list A) (n : Z) :
  0 ≤ n ≤ Z.of_nat (length l) → Z.of_nat (length (slice l 0 n)) = n.
Proof.
  intros Hn. unfold slice. rewrite !decide_False by lia.
  rewrite (Z.min_l n), (Z.min_l 0) by lia.
  change (Z.to_nat 0) with 0%nat. rewrite drop_0, Z.sub_0_r, length_take.
  lia.
Qed.

Lemma extractIds_length (rows : list Row) (schema : TableDefinition) :
  length (filter (λ f, isId f = true) (fields schema)) ≠ 1%nat →
  length (extractIds rows schema) = length rows.
Proof.
  intros Hone. unfold extractIds.
  destruct (filter (λ f, isId f = true) (fields schema)) as [|f [|f' fs]].
  - destruct rows as [|first rest].
    + done.
    + destruct (decide _).
      * by rewrite length_fmap.
      * unfold sequentialIds. by rewrite length_fmap, length_seq.
  - done.
  - by rewrite length_fmap.
Qed.

Lemma attempts_reach (replies : nat → Reply) (context : GenerationContext)
    (count : Z) (r : GenerationResult) :
  ∀ k todo attempt lastError,
    (k < todo)%nat →
    (∀ j, (j < k)%nat →
       ∃ e, attemptOnce context count (replies (attempt + j)%nat) = Throws e) →
    attemptOnce context count (replies (attempt + k)%nat) = Returns r →
    attempts replies context count todo attempt lastError = Returns r.
Proof.
  induction k as [|k IH]; intros todo attempt lastError Hk Hfail Hok.
  - destruct todo as [|todo]; [lia|]. simpl.
    rewrite Nat.add_0_r in Hok. by rewrite Hok.
  - destruct todo as [|todo]; [lia|]. simpl.
    destruct (Hfail 0%nat) as [e He]; [lia|].
    rewrite Nat.add_0_r in He. rewrite He.
    apply IH; [lia | |].
    + intros j Hj. destruct (Hfail (S j)) as [e' He']; [lia|].
      exists e'. by replace (S attempt + j)%nat with (attempt + S j)%nat by lia.
    + by replace (S attempt + k)%nat with (attempt + S k)%nat by lia.
Qed.

(** C8 (identifiers and truncation): with a client at hand, when the
    [k]-th request is the first to succeed, within the retry limit, with a
    non-empty array of rows, [generateBatch] returns the rows cut to the
    requested count together with the identifiers extracted from all the
    rows of the reply; with more rows than requested and a table that has
    not exactly one identifier field, the identifiers are as many as the
    rows of the reply and so more than the rows returned. *)
Theorem identifiers_outnumber_rows (cached : bool) (apiKey : option string)
    (replies : nat → Reply) (context : GenerationContext) (requested : Z)
    (maxRetries : option Z) (k : nat) (reply : list Row) :
  getOpenAIClient cached apiKey = Returns () →
  (k < Z.to_nat (retryLimit maxRetries))%nat →
  (∀ j, (j < k)%nat →
     ∃ e, attemptOnce context requested (replies j) = Throws e) →
  replies k = RowsArray reply →
  reply ≠ [] →
  generateBatch cached apiKey replies context requested maxRetries
  = Returns {| genTable := tableName context;
               genRows := slice reply 0 requested;
               genIds := extractIds reply (tableSchema context) |}
  ∧ (0 ≤ requested < Z.of_nat (length reply) →
     length (filter (λ f, isId f = true) (fields (tableSchema context)))
     ≠ 1%nat →
     Z.of_nat (length (slice reply 0 requested)) = requested
     ∧ length (extractIds reply (tableSchema context)) = length reply
     ∧ (length (slice reply 0 requested)
        < length (extractIds reply (tableSchema context)))%nat).
Proof.
  intros Hclient Hk Hfail Hreply Hne. split.
  - unfold generateBatch. rewrite Hclient.
    apply (attempts_reach _ _ _ _ k); [done | done |].
    simpl. rewrite Hreply. unfold attemptOnce. by destruct reply.
  - intros Hreq Hids.
    pose proof (slice_head_length reply requested) as Hlen.
    pose proof (extractIds_length reply (tableSchema context) Hids) as Hall.
    split_and!; [lia | done | lia].
Qed.

Lemma identifiers_outnumber_rows_witness :
  generateBatch false (Some "sk-test") (λ _, RowsArray threeRows)
    (request 1 2) 2 None
  = Returns {| genTable := "Wide";
               genRows := [ [("c", VStr "x")]; [("c", VStr "y")] ];
               genIds := [Single (VNum 1); Single (VNum 2); Single (VNum 3)] |}
  ∧ (length (slice threeRows 0 2)
     < length (extractIds threeRows (wide 1)))%nat.
Proof.
  destruct (identifiers_outnumber_rows false (Some "sk-test")
              (λ _, RowsArray threeRows) (request 1 2) 2 None 0 threeRows)
    as [Hresult Hlengths].
  - reflexivity.
  - simpl. lia.
  - intros j Hj. lia.
  - reflexivity.
  - done.
  - split; [exact Hresult|]. apply Hlengths; simpl; lia.
Defined.
End generator_claims.

(** * Further properties *)

(** ** The graph and the sort *)

Section graph_more.
Import TopoSort GraphSpec.

(** The graph mirrors the foreign keys: its keys are the table names,
    without repetition; B is a dependency of A exactly when A has a non-self
    foreign key to B, and A is then a dependent of B exactly when B is an
    input table too; no table depends on itself and no list repeats a
    name. *)
Theorem graph_mirrors_foreign_keys (tables : list TableDefinition) :
  (∀ n, n ∈ OMap.keys (buildDependencyGraph tables) ↔ n ∈ name <$> tables)
  ∧ NoDup (OMap.keys (buildDependencyGraph tables))
  ∧ (∀ A B, B ∈ depsOf (buildDependencyGraph tables) A
            ↔ hasForeignKey tables A B)
  ∧ (∀ A B, A ∈ dependentsOf (buildDependencyGraph tables) B
            ↔ hasForeignKey tables A B ∧ B ∈ name <$> tables)
  ∧ (∀ A, A ∉ depsOf (buildDependencyGraph tables) A)
  ∧ (∀ n, NoDup (depsOf (buildDependencyGraph tables) n))
  ∧ (∀ n, NoDup (dependentsOf (buildDependencyGraph tables) n)).
Proof.
  destruct (buildDependencyGraph_consistent tables) as (Hc & Hkeys & _ & Hdeps).
  destruct Hc as [Hnd Hdn Hrn Hspec].
  split_and!; [done | done | done | | | done | done].
  - intros A B. rewrite Hspec, Hdeps, !Hkeys. split; [tauto|].
    intros [Hfk HB]. split_and!; [done | | done].
    destruct Hfk as (t & f & Ht & <- & _). by apply list_elem_of_fmap_2.
  - intros A HA. apply Hdeps in HA as (t & f & _ & _ & _ & Het).
    by apply edgeTarget_ne in Het.
Qed.

Lemma resolvable_mono_le g n : ∀ depth depth',
  (depth ≤ depth')%nat →
  resolvable depth g n = true → resolvable depth' g n = true.
Proof.
  intros depth depth' Hle. induction Hle as [|depth' _ IH]; [done|].
  intros Hres. by apply resolvable_mono, IH.
Qed.

(** What Kahn's phase emits is resolvable. *)
Lemma kahn_order_resolvable g ord deg :
  kahnInv g [] ord deg →
  ∀ i n, ord !! i = Some n → resolvable (S i) g n = true.
Proof.
  intros Hinv. pose proof Hinv as [_ _ _ Hready Hsorted].
  rewrite app_nil_r in Hready.
  induction i as [i IH] using lt_wf_ind. intros n Hi.
  assert (Hkey : n ∈ OMap.keys g).
  { apply Hready. by eapply list_elem_of_lookup_2. }
  apply omap_get_is_Some in Hkey as [nd Hnd].
  cbn [resolvable]. rewrite Hnd. apply forallb_forall. intros d Hd.
  apply list_elem_of_In in Hd. rewrite <- (depsOf_get _ _ _ Hnd) in Hd.
  destruct (Hsorted i n d Hi Hd) as (j & Hj & Hjd).
  apply (resolvable_mono_le g d (S j)); [lia|]. by apply IH.
Qed.

Lemma topologicalSort_cycles g :
  consistent g →
  ∃ r ord deg,
    topologicalSort g = Some r
    ∧ kahn g = Some (ord, deg)
    ∧ kahnInv g [] ord deg
    ∧ order r = ord ++ sortByKey (depCount g) (positiveDegree deg)
    ∧ (positiveDegree deg = [] → cycles r = [])
    ∧ (positiveDegree deg ≠ [] →
       ∃ found, detectCycle g (positiveDegree deg) = Some found
                ∧ cycles r = [found]).
Proof.
  intros Hc. destruct (kahn_total g Hc) as (ord & deg & Hk & Hinv).
  unfold topologicalSort. rewrite Hk. simpl.
  destruct (positiveDegree deg) as [|x rest] eqn:Hrem.
  - eexists _, ord, deg.
    split; [reflexivity|]. split; [done|]. split; [done|].
    split; [simpl; rewrite Hrem; simpl; by rewrite app_nil_r|].
    split; [done|]. intros Hne. by destruct Hne.
  - destruct (detectCycle_total g (x :: rest)) as (found & Hfound).
    { intros y Hy. rewrite <- Hrem in Hy.
      apply (kahn_residual g ord deg) in Hy; tauto. }
    rewrite Hfound. eexists _, ord, deg.
    split; [reflexivity|]. split; [done|]. split; [done|].
    split; [simpl; by rewrite Hrem|].
    split; [rewrite Hrem; discriminate|].
    intros _. exists found. by rewrite Hrem.
Qed.

(** In the returned order a resolvable table precedes the tables that
    depend on it. *)
Lemma order_respects_edge g r ord deg A B depth :
  consistent g →
  kahnInv g [] ord deg →
  order r = ord ++ sortByKey (depCount g) (positiveDegree deg) →
  A ∈ OMap.keys g → B ∈ depsOf g A →
  resolvable depth g B = true →
  ∃ i j, indexOf B (order r) = Some i ∧ indexOf A (order r) = Some j
         ∧ (i < j)%nat.
Proof.
  intros Hc Hinv Hord HA HAB Hres.
  pose proof (kahn_coverage g ord deg Hc Hinv) as Hcover.
  pose proof (λ n, kahn_residual g ord deg n Hc Hinv) as Hresidual.
  pose proof (resolvable_in_order g ord deg Hinv depth B Hres) as HB.
  assert (Hnd : NoDup (order r)).
  { rewrite Hord, sortByKey_perm, Hcover. apply (keys_nodup g Hc). }
  apply list_elem_of_lookup in HB as [i Hi].
  pose proof (lookup_lt_Some _ _ _ Hi) as Hilt.
  exists i.
  destruct (decide (A ∈ ord)) as [HAord|HAord].
  - apply list_elem_of_lookup in HAord as [j Hj].
    destruct (inv_sorted _ _ _ _ Hinv j A B Hj HAB) as (i' & Hlt & Hi').
    assert (i' = i) as ->.
    { eapply NoDup_lookup; [|exact Hi'|exact Hi].
      destruct Hinv as [_ _ Hnd' _ _]. by rewrite app_nil_r in Hnd'. }
    exists j. split_and!; [| | done].
    + apply indexOf_lookup; [done|]. rewrite Hord. by apply lookup_app_l_Some.
    + apply indexOf_lookup; [done|]. rewrite Hord. by apply lookup_app_l_Some.
  - assert (HAres : A ∈ sortByKey (depCount g) (positiveDegree deg)).
    { rewrite sortByKey_perm. by apply Hresidual. }
    apply list_elem_of_lookup in HAres as [k Hk].
    exists (length ord + k)%nat. split_and!; [| | lia].
    + apply indexOf_lookup; [done|]. rewrite Hord. by apply lookup_app_l_Some.
    + apply indexOf_lookup; [done|]. rewrite Hord.
      rewrite lookup_app_r by lia.
      by replace (length ord + k - length ord)%nat with k by lia.
Qed.

Lemma cycles_nil_iff_resolvable (tables : list TableDefinition) :
  ∃ r ord deg,
    topologicalSort (buildDependencyGraph tables) = Some r
    ∧ kahnInv (buildDependencyGraph tables) [] ord deg
    ∧ order r
      = ord ++ sortByKey (depCount (buildDependencyGraph tables))
                 (positiveDegree deg)
    ∧ (cycles r = []
       ↔ ∀ t, t ∈ tables →
           ∃ depth,
             resolvable depth (buildDependencyGraph tables) (name t) = true).
Proof.
  destruct (buildDependencyGraph_consistent tables) as (Hc & Hkeys & _ & Hdeps).
  set (g := buildDependencyGraph tables) in *.
  destruct (topologicalSort_cycles g Hc)
    as (r & ord & deg & Hr & _ & Hinv & Hord & Hnone & Hsome).
  pose proof (λ n, kahn_residual g ord deg n Hc Hinv) as Hresidual.
  exists r, ord, deg. split_and!; [done..|]. split.
  - intros Hcyc t Ht.
    assert (Hrem : positiveDegree deg = []).
    { destruct (decide (positiveDegree deg = [])) as [|Hne]; [done|].
      destruct (Hsome Hne) as (found & _ & Hf). by rewrite Hf in Hcyc. }
    assert (Hin : name t ∈ ord).
    { destruct (decide (name t ∈ ord)) as [|Hnot]; [done|].
      assert (Hres : name t ∈ positiveDegree deg).
      { apply Hresidual. split; [|done]. apply Hkeys.
        by apply list_elem_of_fmap_2. }
      rewrite Hrem in Hres. by apply elem_of_nil in Hres. }
    apply list_elem_of_lookup in Hin as [i Hi].
    exists (S i). by apply (kahn_order_resolvable g ord deg Hinv).
  - intros Hall. apply Hnone.
    destruct (decide (positiveDegree deg = [])) as [|Hne]; [done|].
    assert (∃ x, x ∈ positiveDegree deg) as [x Hx].
    { destruct (positiveDegree deg) as [|x rest]; [done|].
      exists x. apply elem_of_cons. by left. }
    apply Hresidual in Hx as [Hxk Hxo].
    apply Hkeys, list_elem_of_fmap in Hxk as (t & -> & Ht).
    destruct (Hall t Ht) as [depth Hd].
    destruct Hxo. by apply (resolvable_in_order g ord deg Hinv depth).
Qed.

(** No cycle is reported exactly when every table is resolvable, that is
    when no table depends, directly or not, on a table of a cycle or on a
    table absent from the input; the order is then a topological order:
    every table comes after all the tables it references. *)
Theorem no_cycle_reported_iff_resolvable (tables : list TableDefinition) :
  ∃ r,
    topologicalSort (buildDependencyGraph tables) = Some r
    ∧ (cycles r = []
       ↔ ∀ t, t ∈ tables →
           ∃ depth,
             resolvable depth (buildDependencyGraph tables) (name t) = true)
    ∧ (cycles r = [] →
       ∀ A B, hasForeignKey tables A B →
         ∃ i j, indexOf B (order r) = Some i ∧ indexOf A (order r) = Some j
                ∧ (i < j)%nat).
Proof.
  destruct (buildDependencyGraph_consistent tables) as (Hc & Hkeys & _ & Hdeps).
  destruct (cycles_nil_iff_resolvable tables)
    as (r & ord & deg & Hr & Hinv & Hord & Hiff).
  set (g := buildDependencyGraph tables) in *.
  exists r. split_and!; [done | done |].
  intros Hcyc A B Hfk.
  assert (HB : B ∈ depsOf g A) by by apply Hdeps.
  assert (HA : A ∈ OMap.keys g).
  { apply Hkeys. destruct Hfk as (t & f & Ht & <- & _).
    by apply list_elem_of_fmap_2. }
  assert (HBk : B ∈ name <$> tables).
  { (* B is emitted before A, so it is a key *)
    destruct (decide (B ∈ OMap.keys g)) as [HBin|HBout]; [by apply Hkeys|].
    exfalso. apply Hkeys, list_elem_of_fmap in HA as (t & -> & Ht).
    destruct (proj1 Hiff Hcyc t Ht) as [depth Hd].
    destruct depth as [|depth]; [done|]. cbn [resolvable] in Hd.
    unfold depsOf in HB. destruct (OMap.get g (name t)) as [nd|]; [|done].
    rewrite forallb_forall in Hd. apply list_elem_of_In, Hd in HB.
    destruct depth as [|depth]; [done|]. cbn [resolvable] in HB.
    apply omap_get_None in HBout. by rewrite HBout in HB. }
  apply list_elem_of_fmap in HBk as (tB & -> & HtB).
  destruct (proj1 Hiff Hcyc tB HtB) as [depth Hd].
  by apply (order_respects_edge g r ord deg A (name tB) depth).
Qed.
End graph_more.

(** ** What [detectCycle] reports *)

Section cycle_facts.
Import TopoSort GraphSpec.
Variable g : Graph.

Lemma walk_app_r l1 l2 : walk g (l1 ++ l2) → walk g l2.
Proof.
  induction l1 as [|a l1 IH]; [done|]. intros Hw. apply IH.
  simpl in Hw. destruct (l1 ++ l2); [done|]. by destruct Hw.
Qed.

Lemma walk_tc l : ∀ a b, walk g (a :: l ++ [b]) → tc (dependsOn g) a b.
Proof.
  induction l as [|c l IH]; intros a b Hw.
  - destruct Hw as [Hab _]. by apply tc_once.
  - destruct Hw as [Hac Hw]. eapply tc_l; [exact Hac|]. by apply IH.
Qed.

Lemma lasso_onCycle c :
  lasso g c → ∃ x, last c = Some x ∧ onCycle g x.
Proof.
  intros (q & x & -> & _ & Hx & Hw). exists x. split; [apply last_snoc|].
  apply list_elem_of_split in Hx as (q1 & q2 & ->).
  rewrite <- app_assoc in Hw. apply walk_app_r in Hw.
  by apply walk_tc in Hw.
Qed.

Lemma visitDeps_sound rec node st0 :
  (∀ dep st b st',
     rec dep st = Some (b, st') → cycle st = [] → dep ∉ visited st →
     recStack st ⊆ visited st → dfsPost g dep st b st') →
  node ∉ visited st0 → recStack st0 ⊆ visited st0 →
  ∀ deps st b st',
    visitDeps rec node deps st = Some (b, st') →
    (∀ d, d ∈ deps → d ∈ depsOf g node) →
    cycle st = [] →
    recStack st = {[node]} ∪ recStack st0 →
    {[node]} ∪ visited st0 ⊆ visited st →
    dfsPost g node st0 b st'.
Proof.
  intros Hrec Hnode Hstack.
  induction deps as [|dep deps IH]; intros st b st' Hrun Hdeps Hcyc Hrs Hvis.
  - simpl in Hrun. injection Hrun as <- <-. simpl.
    split_and!; [done | | set_solver].
    rewrite Hrs. apply set_eq. intros y.
    rewrite elem_of_difference, elem_of_union, elem_of_singleton.
    split; [tauto|]. intros Hy. split; [by right|].
    intros ->. by apply Hnode, Hstack.
  - assert (Hedge : dependsOn g node dep).
    { apply Hdeps, elem_of_cons. by left. }
    assert (Hrest : ∀ d, d ∈ deps → d ∈ depsOf g node).
    { intros d Hd. apply Hdeps, elem_of_cons. by right. }
    assert (Hsub : recStack st ⊆ visited st) by set_solver.
    simpl in Hrun. case_bool_decide as Hfresh.
    + destruct (rec dep st) as [[[] st1]|] eqn:Hcall; [| |done].
      * injection Hrun as <- <-.
        apply Hrec in Hcall; [|done..].
        destruct Hcall as (q & x & Hc & Hnd & Hq & Hx & Hw).
        simpl. rewrite Hc. exists (dep :: q), x.
        split_and!.
        -- done.
        -- apply NoDup_cons. split; [|done].
           intros Hin. apply (Hq node Hin). set_solver.
        -- intros y Hy. apply elem_of_cons in Hy as [->|Hy]; [done|].
           intros Hv. apply (Hq y Hy). set_solver.
        -- destruct Hx as [Hx|Hx].
           ++ left. apply elem_of_cons. by right.
           ++ rewrite Hrs in Hx.
              apply elem_of_union in Hx as [Hx|Hx]; [|by right].
              apply elem_of_singleton in Hx as ->. left.
              apply elem_of_cons. by left.
        -- split; [done|]. by rewrite <- Hc.
      * apply Hrec in Hcall; [|done..].
        destruct Hcall as (Hc1 & Hr1 & Hv1).
        apply (IH st1); [done | done | done | | ].
        -- by rewrite Hr1.
        -- set_solver.
    + case_bool_decide as Hback.
      * injection Hrun as <- <-. simpl. rewrite Hcyc. simpl.
        exists [], dep. split_and!.
        -- done.
        -- apply NoDup_singleton.
        -- intros y Hy. apply list_elem_of_singleton in Hy as ->. done.
        -- rewrite Hrs in Hback.
           apply elem_of_union in Hback as [Hb|Hb]; [|by right].
           apply elem_of_singleton in Hb as ->. left.
           by apply list_elem_of_singleton.
        -- by split.
      * by apply (IH st).
Qed.

Lemma dfs_sound : ∀ fuel node st b st',
  dfs fuel g node st = Some (b, st') →
  cycle st = [] → node ∉ visited st → recStack st ⊆ visited st →
  dfsPost g node st b st'.
Proof.
  induction fuel as [|fuel IH]; intros node st b st' Hrun Hc Hn Hs; [done|].
  simpl in Hrun.
  eapply (visitDeps_sound (dfs fuel g) node st);
    [exact IH | done | done | exact Hrun | done | done | done |].
  simpl. set_solver.
Qed.

Lemma dfsFrom_sound fuel : ∀ starts st st',
  dfsFrom fuel g starts st = Some st' →
  cycle st = [] → recStack st = ∅ →
  cycle st' = [] ∨ lasso g (cycle st').
Proof.
  induction starts as [|start rest IH]; intros st st' Hrun Hc Hr.
  - injection Hrun as <-. by left.
  - simpl in Hrun. case_bool_decide as Hfresh; [|by apply (IH st)].
    destruct (dfs fuel g start st) as [[[] st1]|] eqn:Hcall; [| |done].
    + injection Hrun as <-.
      apply dfs_sound in Hcall; [|done | done | set_solver].
      destruct Hcall as (q & x & Hcy & Hnd & _ & Hx & Hw).
      right. exists (start :: q), x. rewrite Hr in Hx.
      split_and!; [done | done | | done].
      destruct Hx as [Hx|Hx]; [done|]. by apply elem_of_empty in Hx.
    + apply dfs_sound in Hcall; [|done | done | set_solver].
      destruct Hcall as (Hc1 & Hr1 & _).
      apply (IH st1); [done | done |]. by rewrite Hr1.
Qed.

Lemma detectCycle_sound starts found :
  detectCycle g starts = Some found → found = [] ∨ lasso g found.
Proof.
  unfold detectCycle. intros Hrun.
  apply fmap_Some in Hrun as (st' & Hrun & ->).
  by apply dfsFrom_sound in Hrun.
Qed.

Lemma resolvable_all (deps : list string) :
  (∀ d, d ∈ deps → ∃ depth, resolvable depth g d = true) →
  ∃ depth, ∀ d, d ∈ deps → resolvable depth g d = true.
Proof.
  induction deps as [|d deps IH]; intros Hall.
  - exists 0%nat. intros d Hd. by apply elem_of_nil in Hd.
  - destruct (Hall d) as [n Hn]; [apply elem_of_cons; by left|].
    destruct IH as [m Hm].
    { intros d' Hd'. apply Hall, elem_of_cons. by right. }
    exists (n `max` m)%nat. intros d' Hd'.
    apply elem_of_cons in Hd' as [Heq|Hd'].
    + subst d'. apply (resolvable_mono_le g d n); [lia | done].
    + apply (resolvable_mono_le g d' m); [lia | by apply Hm].
Qed.

Lemma visitDeps_complete rec node :
  closed g →
  (∀ dep st st',
     rec dep st = Some (false, st') → dep ∉ visited st →
     dep ∈ OMap.keys g → finished g st → recStack st ⊆ visited st →
     finished g st' ∧ recStack st' = recStack st
     ∧ visited st ⊆ visited st'
     ∧ ∃ depth, resolvable depth g dep = true) →
  ∀ deps st st',
    visitDeps rec node deps st = Some (false, st') →
    (∀ d, d ∈ deps → d ∈ depsOf g node) →
    finished g st → recStack st ⊆ visited st →
    ∃ st_end,
      st' = leave node st_end
      ∧ finished g st_end ∧ recStack st_end = recStack st
      ∧ visited st ⊆ visited st_end
      ∧ ∀ d, d ∈ deps → ∃ depth, resolvable depth g d = true.
Proof.
  intros Hclosed Hrec.
  induction deps as [|dep deps IH]; intros st st' Hrun Hdeps Hfin Hsub.
  - simpl in Hrun. injection Hrun as <-. exists st.
    split_and!; [done..|]. intros d Hd. by apply elem_of_nil in Hd.
  - assert (Hkey : dep ∈ OMap.keys g).
    { apply (Hclosed node). apply Hdeps, elem_of_cons. by left. }
    assert (Hrest : ∀ d, d ∈ deps → d ∈ depsOf g node).
    { intros d Hd. apply Hdeps, elem_of_cons. by right. }
    simpl in Hrun. case_bool_decide as Hfresh.
    + destruct (rec dep st) as [[[] st1]|] eqn:Hcall; [done| |done].
      destruct (Hrec dep st st1 Hcall Hfresh Hkey Hfin Hsub)
        as (Hfin1 & Hr1 & Hv1 & Hres).
      destruct (IH st1 st' Hrun Hrest Hfin1) as (st_end & -> & Hfe & Hre & Hve & Hall).
      { rewrite Hr1. set_solver. }
      exists st_end. split_and!; [done | done | congruence | set_solver |].
      intros d Hd. apply elem_of_cons in Hd as [->|Hd]; [done | by apply Hall].
    + case_bool_decide as Hback; [done|].
      destruct (IH st st' Hrun Hrest Hfin Hsub)
        as (st_end & -> & Hfe & Hre & Hve & Hall).
      exists st_end. split_and!; [done..|].
      intros d Hd. apply elem_of_cons in Hd as [->|Hd]; [|by apply Hall].
      by apply Hfin.
Qed.

Lemma dfs_complete :
  closed g →
  ∀ fuel node st st',
    dfs fuel g node st = Some (false, st') → node ∉ visited st →
    node ∈ OMap.keys g → finished g st → recStack st ⊆ visited st →
    finished g st' ∧ recStack st' = recStack st
    ∧ visited st ⊆ visited st'
    ∧ ∃ depth, resolvable depth g node = true.
Proof.
  intros Hclosed.
  induction fuel as [|fuel IH]; intros node st st' Hrun Hfresh Hkey Hfin Hsub;
    [done|].
  simpl in Hrun.
  destruct (visitDeps_complete (dfs fuel g) node Hclosed IH
              (depsOf g node) (enter node st) st' Hrun)
    as (st_end & -> & Hfe & Hre & Hve & Hall).
  { done. }
  { intros v Hv Hnot. simpl in Hv, Hnot. apply Hfin; set_solver. }
  { simpl. set_solver. }
  simpl in Hre, Hve.
  assert (Hnode : ∃ depth, resolvable depth g node = true).
  { destruct (resolvable_all (depsOf g node) Hall) as [depth Hd].
    exists (S depth). cbn [resolvable].
    apply omap_get_is_Some in Hkey as [nd Hnd]. rewrite Hnd.
    apply forallb_forall. intros d Hin. apply Hd.
    rewrite (depsOf_get _ _ _ Hnd). by apply list_elem_of_In. }
  assert (Hstack : recStack st_end ∖ {[node]} = recStack st).
  { rewrite Hre. apply set_eq. intros y.
    rewrite elem_of_difference, elem_of_union, elem_of_singleton.
    split; [tauto|]. intros Hy. split; [by right|].
    intros ->. by apply Hfresh, Hsub. }
  simpl. split_and!; [| done | set_solver | done].
  intros v Hv Hnot. simpl in Hv, Hnot. rewrite Hstack in Hnot.
  destruct (decide (v = node)) as [->|Hne]; [done|].
  apply Hfe; [done|]. rewrite Hre. set_solver.
Qed.

Lemma dfsFrom_complete fuel :
  closed g →
  ∀ starts st st',
    dfsFrom fuel g starts st = Some st' →
    cycle st = [] → recStack st = ∅ → finished g st →
    (∀ x, x ∈ starts → x ∈ OMap.keys g) →
    cycle st' = [] →
    ∀ x, x ∈ starts → ∃ depth, resolvable depth g x = true.
Proof.
  intros Hclosed.
  induction starts as [|start rest IH];
    intros st st' Hrun Hc Hr Hfin Hkeys Hnone x Hx.
  - by apply elem_of_nil in Hx.
  - simpl in Hrun. case_bool_decide as Hfresh.
    + destruct (dfs fuel g start st) as [[[] st1]|] eqn:Hcall; [| |done].
      * injection Hrun as <-.
        apply dfs_sound in Hcall; [|done | done | set_solver].
        destruct Hcall as (q & y & Hcy & _). by rewrite Hcy in Hnone.
      * pose proof Hcall as Hcall'.
        apply dfs_sound in Hcall'; [|done | done | set_solver].
        destruct Hcall' as (Hc1 & _ & _).
        apply dfs_complete in Hcall as (Hfin1 & Hr1 & Hv1 & Hres);
          [|done | done | | done | set_solver].
        2:{ apply Hkeys, elem_of_cons. by left. }
        apply elem_of_cons in Hx as [->|Hx]; [done|].
        apply (IH st1 st'); try done.
        -- congruence.
        -- intros y Hy. apply Hkeys, elem_of_cons. by right.
    + apply elem_of_cons in Hx as [->|Hx].
      * apply Hfin; [done|]. rewrite Hr. set_solver.
      * apply (IH st st'); try done.
        intros y Hy. apply Hkeys, elem_of_cons. by right.
Qed.

Lemma detectCycle_complete starts :
  closed g →
  (∀ x, x ∈ starts → x ∈ OMap.keys g) →
  detectCycle g starts = Some [] →
  ∀ x, x ∈ starts → ∃ depth, resolvable depth g x = true.
Proof.
  unfold detectCycle. intros Hclosed Hkeys Hrun.
  apply fmap_Some in Hrun as (st' & Hrun & Hnone).
  by apply (dfsFrom_complete _ Hclosed starts _ st' Hrun).
Qed.
End cycle_facts.

Section cycle_claims.
Import TopoSort GraphSpec.

(** A reported cycle is empty, or it is a chain of distinct tables, each
    depending on the next, closed by a table the chain has already passed;
    that last table lies on a cycle of foreign keys.  The chain starts at
    the table the search started from, so it can hold tables that lead to
    the cycle without being on it. *)
Theorem reported_cycle_is_a_dependency_walk (tables : list TableDefinition) :
  ∃ r,
    topologicalSort (buildDependencyGraph tables) = Some r
    ∧ ∀ c, c ∈ cycles r →
        c = []
        ∨ (lasso (buildDependencyGraph tables) c
           ∧ ∃ x, last c = Some x ∧ onCycle (buildDependencyGraph tables) x).
Proof.
  destruct (buildDependencyGraph_consistent tables) as (Hc & _).
  destruct (topologicalSort_cycles _ Hc)
    as (r & ord & deg & Hr & _ & _ & _ & Hnone & Hsome).
  exists r. split; [done|]. intros c Hin.
  destruct (decide (positiveDegree deg = [])) as [Hrem|Hrem].
  - rewrite (Hnone Hrem) in Hin. by apply elem_of_nil in Hin.
  - destruct (Hsome Hrem) as (found & Hfound & Hcyc).
    rewrite Hcyc in Hin. apply list_elem_of_singleton in Hin as ->.
    apply detectCycle_sound in Hfound as [->|Hl]; [by left|].
    right. split; [done|]. by apply lasso_onCycle.
Qed.

Lemma dangling_unresolvable g A B :
  B ∈ depsOf g A → B ∉ OMap.keys g →
  ∀ depth, resolvable depth g A = false.
Proof.
  intros HB Hout depth. destruct depth as [|depth]; [done|].
  cbn [resolvable]. unfold depsOf in HB.
  destruct (OMap.get g A) as [nd|]; [|done].
  apply not_true_is_false. intros Hall. rewrite forallb_forall in Hall.
  apply list_elem_of_In, Hall in HB.
  destruct depth as [|depth]; [done|]. cbn [resolvable] in HB.
  apply omap_get_None in Hout. by rewrite Hout in HB.
Qed.

(** A foreign key to a table that is not among the input tables is
    reported as a cycle: [cycles] then holds one entry, and when the foreign
    keys form no cycle that entry is the empty list. *)
Theorem dangling_reference_is_reported_as_cycle
    (tables : list TableDefinition) (A B : string) :
  hasForeignKey tables A B →
  B ∉ name <$> tables →
  ∃ r c,
    topologicalSort (buildDependencyGraph tables) = Some r
    ∧ cycles r = [c]
    ∧ A ∈ order r
    ∧ ((∀ n, ¬ onCycle (buildDependencyGraph tables) n) → c = []).
Proof.
  intros Hfk Hout.
  destruct (buildDependencyGraph_consistent tables) as (Hc & Hkeys & _ & Hdeps).
  set (g := buildDependencyGraph tables) in *.
  destruct (topologicalSort_cycles g Hc)
    as (r & ord & deg & Hr & _ & Hinv & Hord & _ & Hsome).
  pose proof (λ n, kahn_residual g ord deg n Hc Hinv) as Hresidual.
  assert (HA : A ∈ OMap.keys g).
  { apply Hkeys. destruct Hfk as (t & f & Ht & <- & _).
    by apply list_elem_of_fmap_2. }
  assert (Hres : A ∈ positiveDegree deg).
  { apply Hresidual. split; [done|]. intros Hin.
    apply list_elem_of_lookup in Hin as [i Hi].
    apply (kahn_order_resolvable g ord deg Hinv) in Hi.
    rewrite (dangling_unresolvable g A B) in Hi; [done| |].
    - by apply Hdeps.
    - intros HB. by apply Hout, Hkeys. }
  destruct Hsome as (found & Hfound & Hcyc).
  { intros Hnil. rewrite Hnil in Hres. by apply elem_of_nil in Hres. }
  exists r, found. split_and!; [done | done | |].
  - rewrite Hord. apply elem_of_app. right. by rewrite sortByKey_perm.
  - intros Hacyclic.
    apply detectCycle_sound in Hfound as [->|Hl]; [done|].
    apply lasso_onCycle in Hl as (x & _ & Hx). by destruct (Hacyclic x).
Qed.

(** When every foreign key points to an input table, a reported cycle is
    a real one: [cycles] is empty, or it holds exactly one entry, which is
    not empty and is a chain of distinct tables, each depending on the
    next, closed by a table of the chain. *)
Theorem cycle_is_found_when_references_are_closed
    (tables : list TableDefinition) :
  (∀ A B, hasForeignKey tables A B → B ∈ name <$> tables) →
  ∃ r,
    topologicalSort (buildDependencyGraph tables) = Some r
    ∧ (cycles r = []
       ∨ ∃ c, cycles r = [c] ∧ c ≠ []
              ∧ lasso (buildDependencyGraph tables) c).
Proof.
  intros Hclosed.
  destruct (buildDependencyGraph_consistent tables) as (Hc & Hkeys & _ & Hdeps).
  set (g := buildDependencyGraph tables) in *.
  destruct (topologicalSort_cycles g Hc)
    as (r & ord & deg & Hr & _ & Hinv & _ & Hnone & Hsome).
  pose proof (λ n, kahn_residual g ord deg n Hc Hinv) as Hresidual.
  exists r. split; [done|].
  destruct (decide (positiveDegree deg = [])) as [Hrem|Hrem].
  { left. by apply Hnone. }
  right. destruct (Hsome Hrem) as (found & Hfound & Hcyc).
  exists found. split; [done|].
  assert (Hne : found ≠ []).
  { intros ->.
    assert (∃ x, x ∈ positiveDegree deg) as [x Hx].
    { destruct (positiveDegree deg) as [|x rest]; [done|].
      exists x. apply elem_of_cons. by left. }
    destruct (detectCycle_complete g (positiveDegree deg)) with (x := x)
      as [depth Hd]; [| | done | done |].
    - intros n d Hd. apply Hkeys, (Hclosed n). by apply Hdeps.
    - intros y Hy. by apply Hresidual in Hy as [Hy _].
    - apply Hresidual in Hx as [_ Hx]. apply Hx.
      by apply (resolvable_in_order g ord deg Hinv depth). }
  split; [done|].
  by apply detectCycle_sound in Hfound as [->|Hl].
Qed.

Lemma cycle_is_found_when_references_are_closed_witness :
  ∃ r,
    topologicalSort (buildDependencyGraph Samples.mutual) = Some r
    ∧ (cycles r = []
       ∨ ∃ c, cycles r = [c] ∧ c ≠ []
              ∧ lasso (buildDependencyGraph Samples.mutual) c).
Proof.
  apply (cycle_is_found_when_references_are_closed Samples.mutual).
  intros A B (t & f & Ht & <- & Hf & Htarget).
  unfold Samples.mutual in Ht.
  repeat (apply elem_of_cons in Ht as [->|Ht];
          [apply list_elem_of_singleton in Hf as ->;
           vm_compute in Htarget; injection Htarget as <-;
           apply (bool_decide_unpack _); vm_compute; exact I|]).
  by apply elem_of_nil in Ht.
Defined.

Lemma dangling_reference_is_reported_as_cycle_witness :
  hasForeignKey Samples.orphan "Post" "User"
  ∧ ("User" ∉ name <$> Samples.orphan)
  ∧ ∃ r c,
      topologicalSort (buildDependencyGraph Samples.orphan) = Some r
      ∧ cycles r = [c]
      ∧ "Post" ∈ order r
      ∧ ((∀ n, ¬ onCycle (buildDependencyGraph Samples.orphan) n) → c = []).
Proof.
  assert (Hfk : hasForeignKey Samples.orphan "Post" "User").
  { eexists _, (Samples.reference "author" "User" "authorId").
    split_and!; [apply list_elem_of_singleton; reflexivity | reflexivity | |
                 reflexivity].
    simpl. set_solver. }
  assert (Hout : "User" ∉ name <$> Samples.orphan).
  { simpl. intros Hin. by apply list_elem_of_singleton in Hin. }
  split; [exact Hfk|]. split; [exact Hout|].
  exact (dangling_reference_is_reported_as_cycle
           Samples.orphan "Post" "User" Hfk Hout).
Defined.
End cycle_claims.

(** ** Levels and self references *)

Section level_claims.
Import TopoSort Parallel GraphSpec.

Lemma forallb_false_witness {A} (f : A → bool) l :
  forallb f l = false → ∃ x, x ∈ l ∧ f x = false.
Proof.
  induction l as [|a l IH]; [done|]. simpl. intros Hf.
  apply andb_false_iff in Hf as [Ha|Hl].
  - exists a. split; [apply elem_of_cons; by left | done].
  - destruct (IH Hl) as (x & Hx & Hfx). exists x.
    split; [apply elem_of_cons; by right | done].
Qed.

(** When no table is ready, no table outside [processed] is resolvable. *)
Lemma no_ready_blocked (tables : list TableDefinition) g processed :
  (∀ t, t ∈ tables → ready g processed t = false) →
  (∀ x, x ∈ OMap.keys g → x ∈ name <$> tables) →
  ∀ depth n, n ∉ processed → resolvable depth g n = false.
Proof.
  intros Hnone Hkeys. induction depth as [|depth IH]; intros n Hn; [done|].
  cbn [resolvable]. destruct (OMap.get g n) as [nd|] eqn:Hnd; [|done].
  apply not_true_is_false. intros Hall. rewrite forallb_forall in Hall.
  assert (Hkey : n ∈ OMap.keys g) by by eapply omap_get_Some_key.
  apply Hkeys, list_elem_of_fmap in Hkey as (t & -> & Ht).
  pose proof (Hnone t Ht) as Hready. unfold ready in Hready.
  rewrite bool_decide_false in Hready by done. rewrite Hnd in Hready.
  apply forallb_false_witness in Hready as (d & Hd & Hdp).
  apply bool_decide_eq_false in Hdp.
  apply list_elem_of_In, Hall in Hd. by rewrite (IH d Hdp) in Hd.
Qed.

Lemma layered_snoc g levels current :
  layered g levels →
  (∀ n d, n ∈ current → d ∈ depsOf g n → d ∈ concat levels) →
  layered g (levels ++ [current]).
Proof.
  intros Hlay Hcur k level n d Hk Hn Hd.
  destruct (decide (k < length levels)%nat) as [Hlt|Hge].
  - rewrite lookup_app_l in Hk by done.
    destruct (Hlay k level n d Hk Hn Hd) as (j & earlier & Hj & He & Hin).
    exists j, earlier. split_and!; [done | | done].
    rewrite lookup_app_l by lia. done.
  - rewrite lookup_app_r in Hk by lia.
    apply list_lookup_singleton_Some in Hk as [Hk0 <-].
    assert (Hdl : d ∈ concat levels) by by eapply Hcur.
    apply list_elem_of_In, in_concat in Hdl as (earlier & He & Hin).
    apply list_elem_of_In, list_elem_of_lookup in He as [j Hj].
    exists j, earlier. pose proof (lookup_lt_Some _ _ _ Hj).
    split_and!; [lia | | by apply list_elem_of_In].
    by apply lookup_app_l_Some.
Qed.

Lemma layered_resolvable g levels :
  layered g levels →
  (∀ level n, level ∈ levels → n ∈ level → n ∈ OMap.keys g) →
  ∀ k level n, levels !! k = Some level → n ∈ level →
    resolvable (S k) g n = true.
Proof.
  intros Hlay Hkeys. induction k as [k IH] using lt_wf_ind.
  intros level n Hk Hn.
  assert (Hkey : n ∈ OMap.keys g).
  { eapply Hkeys; [|done]. by eapply list_elem_of_lookup_2. }
  apply omap_get_is_Some in Hkey as [nd Hnd].
  cbn [resolvable]. rewrite Hnd. apply forallb_forall. intros d Hd.
  apply list_elem_of_In in Hd. rewrite <- (depsOf_get _ _ _ Hnd) in Hd.
  destruct (Hlay k level n d Hk Hn Hd) as (j & earlier & Hj & He & Hin).
  apply (resolvable_mono_le g d (S j)); [lia|]. by eapply IH.
Qed.

Lemma levelLoop_layers (tables : list TableDefinition) g :
  (∀ x, x ∈ OMap.keys g → x ∈ name <$> tables) →
  ∀ fuel processed levels result,
    levelLoop fuel tables g processed levels = Some result →
    processed = list_to_set (concat levels) →
    layered g levels →
    Forall (λ level, level ≠ []) levels →
    ∃ good rest,
      result = good ++ rest
      ∧ (length rest ≤ 1)%nat
      ∧ Forall (λ level, level ≠ []) result
      ∧ layered g good
      ∧ ∀ level n, level ∈ rest → n ∈ level →
          ∀ depth, resolvable depth g n = false.
Proof.
  intros Hkeys.
  assert (Hstop : ∀ levels : list (list string),
            layered g levels → Forall (λ level, level ≠ []) levels →
            ∃ good rest,
              levels = good ++ rest ∧ (length rest ≤ 1)%nat
              ∧ Forall (λ level, level ≠ []) levels ∧ layered g good
              ∧ ∀ level n, level ∈ rest → n ∈ level →
                  ∀ depth, resolvable depth g n = false).
  { intros levels Hlay Hne. exists levels, [].
    split_and!; [by rewrite app_nil_r | simpl; lia | done | done |].
    intros level n Hin. by apply elem_of_nil in Hin. }
  induction fuel as [|fuel IH]; intros processed levels result Hrun Hp Hlay Hne.
  - simpl in Hrun. case_bool_decide; [done|]. injection Hrun as <-.
    by apply Hstop.
  - simpl in Hrun. case_bool_decide; [|injection Hrun as <-; by apply Hstop].
    destruct (name <$> filter (λ t, ready g processed t = true) tables)
      as [|x current] eqn:Hcur.
    + injection Hrun as <-.
      set (remaining := name <$> filter (λ t, name t ∉ processed) tables).
      destruct remaining as [|y remaining'] eqn:Hrem; [by apply Hstop|].
      exists levels, [y :: remaining'].
      split_and!; [done | simpl; lia | | done |].
      * apply Forall_app. split; [done|]. by apply Forall_singleton.
      * intros level n Hlevel Hn depth.
        apply list_elem_of_singleton in Hlevel as ->. rewrite <- Hrem in Hn.
        apply list_elem_of_fmap in Hn as (t & -> & Ht).
        apply list_elem_of_filter in Ht as [Hnot Ht].
        apply (no_ready_blocked tables g processed); [|done|done].
        intros t' Ht'. apply not_true_is_false. intros Hready.
        assert (Hin : name t' ∈ name <$>
                        filter (λ t, ready g processed t = true) tables).
        { apply list_elem_of_fmap_2, list_elem_of_filter. by split. }
        rewrite Hcur in Hin. by apply elem_of_nil in Hin.
    + rewrite <- Hcur in Hrun.
      set (currentLevel :=
             name <$> filter (λ t, ready g processed t = true) tables) in *.
      apply IH in Hrun; [done | | |].
      * rewrite concat_app. simpl. rewrite app_nil_r.
        rewrite list_to_set_app_L. by subst processed.
      * apply layered_snoc; [done|]. intros n d Hn Hd.
        apply list_elem_of_fmap in Hn as (t & -> & Ht).
        apply list_elem_of_filter in Ht as [Hready _].
        unfold ready in Hready. case_bool_decide; [done|].
        unfold depsOf in Hd.
        destruct (OMap.get g (name t)) as [nd|]; [|done].
        rewrite forallb_forall in Hready.
        apply list_elem_of_In, Hready, bool_decide_eq_true in Hd.
        subst processed. by apply elem_of_list_to_set in Hd.
      * apply Forall_app. split; [done|]. apply Forall_singleton.
        rewrite Hcur. done.
Qed.

Lemma groupTablesByLevel_layers (tables : list TableDefinition) :
  NoDup (name <$> tables) →
  ∃ levels good rest,
    groupTablesByLevel tables = Some levels
    ∧ concat levels ≡ₚ name <$> tables
    ∧ levels = good ++ rest
    ∧ (length rest ≤ 1)%nat
    ∧ Forall (λ level, level ≠ []) levels
    ∧ layered (buildDependencyGraph tables) good
    ∧ (∀ k level n, good !! k = Some level → n ∈ level →
         resolvable (S k) (buildDependencyGraph tables) n = true)
    ∧ (∀ level n, level ∈ rest → n ∈ level →
         ∀ depth, resolvable depth (buildDependencyGraph tables) n = false).
Proof.
  intros Hnd.
  destruct (groupTablesByLevel_total tables Hnd) as (levels & Hrun & Hperm).
  destruct (buildDependencyGraph_consistent tables) as (_ & Hkeys & _).
  pose proof Hrun as Hrun'. unfold groupTablesByLevel in Hrun'.
  apply (levelLoop_layers tables) in Hrun'
      as (good & rest & Hsplit & Hlen & Hne & Hlay & Hrest).
  - exists levels, good, rest. split_and!; [done..| |done].
    apply layered_resolvable; [done|]. intros level n Hlevel Hn.
    apply Hkeys. rewrite <- Hperm, Hsplit.
    apply list_elem_of_In, in_concat. exists level.
    split; apply list_elem_of_In; [|done]. apply elem_of_app. by left.
  - intros x. apply Hkeys.
  - done.
  - intros k level n d Hk. by rewrite lookup_nil in Hk.
  - apply Forall_nil_2.
Qed.

(** The levels are layered: no level is empty and every foreign key of a
    table of a level points into an earlier level, except for at most one
    final level that collects the tables no earlier level could take.  The
    layered levels hold exactly the resolvable tables; the tables of the
    final level are the ones [topologicalSort] leaves to its cycle
    handling. *)
Theorem levels_are_layered (tables : list TableDefinition) :
  NoDup (name <$> tables) →
  ∃ levels good rest,
    groupTablesByLevel tables = Some levels
    ∧ levels = good ++ rest
    ∧ (length rest ≤ 1)%nat
    ∧ Forall (λ level, level ≠ []) levels
    ∧ layered (buildDependencyGraph tables) good
    ∧ (∀ k level n, good !! k = Some level → n ∈ level →
         resolvable (S k) (buildDependencyGraph tables) n = true)
    ∧ (∀ level n, level ∈ rest → n ∈ level →
         ∀ depth, resolvable depth (buildDependencyGraph tables) n = false).
Proof.
  intros Hnd.
  destruct (groupTablesByLevel_layers tables Hnd)
    as (levels & good & rest & Hrun & _ & Hrest).
  by exists levels, good, rest.
Qed.

(** The sort and the levels agree: [topologicalSort] reports no cycle
    exactly when all the levels [groupTablesByLevel] returns are layered,
    every foreign key of a table pointing into an earlier level, that is
    when no fallback level was needed. *)
Theorem levels_agree_with_the_sort (tables : list TableDefinition) :
  NoDup (name <$> tables) →
  ∃ r levels,
    topologicalSort (buildDependencyGraph tables) = Some r
    ∧ groupTablesByLevel tables = Some levels
    ∧ (cycles r = [] ↔ layered (buildDependencyGraph tables) levels).
Proof.
  intros Hnd.
  destruct (groupTablesByLevel_layers tables Hnd)
    as (levels & good & rest & Hrun & Hperm & Hsplit & Hlen & Hne & Hlay
        & Hgood & Hbad).
  destruct (cycles_nil_iff_resolvable tables)
    as (r & ord & deg & Hr & _ & _ & Hiff).
  destruct (buildDependencyGraph_consistent tables) as (_ & Hkeys & _).
  exists r, levels. split_and!; [done | done |].
  rewrite Hiff. split.
  - intros Hall.
    assert (rest = []) as ->.
    { destruct rest as [|level rest']; [done|]. exfalso.
      assert (Hin : level ∈ levels).
      { rewrite Hsplit. apply elem_of_app. right. apply elem_of_cons.
        by left. }
      rewrite Forall_forall in Hne. specialize (Hne level Hin).
      destruct level as [|n level']; [done|].
      assert (Hn : n ∈ name <$> tables).
      { rewrite <- Hperm. apply list_elem_of_In, in_concat.
        exists (n :: level'). split; apply list_elem_of_In; [done|].
        apply elem_of_cons. by left. }
      apply list_elem_of_fmap in Hn as (t & -> & Ht).
      destruct (Hall t Ht) as [depth Hd].
      rewrite (Hbad (name t :: level') (name t)) in Hd; [done | |].
      - apply elem_of_cons. by left.
      - apply elem_of_cons. by left. }
    by rewrite Hsplit, app_nil_r.
  - intros Hall t Ht.
    assert (Hin : name t ∈ concat levels).
    { rewrite Hperm. by apply list_elem_of_fmap_2. }
    apply list_elem_of_In, in_concat in Hin as (level & Hlevel & Hn).
    apply list_elem_of_In, list_elem_of_lookup in Hlevel as [k Hk].
    exists (S k).
    apply (layered_resolvable (buildDependencyGraph tables) levels Hall)
      with (level := level); [|done|by apply list_elem_of_In].
    intros level' n Hl Hn'. apply Hkeys. rewrite <- Hperm.
    apply list_elem_of_In, in_concat. exists level'.
    split; by apply list_elem_of_In.
Qed.

Lemma levels_agree_with_the_sort_witness :
  NoDup (name <$> Samples.downstream)
  ∧ ∃ r levels,
      topologicalSort (buildDependencyGraph Samples.downstream) = Some r
      ∧ groupTablesByLevel Samples.downstream = Some levels
      ∧ (cycles r = []
         ↔ layered (buildDependencyGraph Samples.downstream) levels).
Proof.
  assert (Hnd : NoDup (name <$> Samples.downstream)).
  { apply (bool_decide_unpack _). vm_compute. exact I. }
  split; [exact Hnd|]. exact (levels_agree_with_the_sort Samples.downstream Hnd).
Defined.

Lemma levels_are_layered_witness :
  NoDup (name <$> Samples.blog)
  ∧ ∃ levels good rest,
      groupTablesByLevel Samples.blog = Some levels
      ∧ levels = good ++ rest
      ∧ (length rest ≤ 1)%nat
      ∧ Forall (λ level, level ≠ []) levels
      ∧ layered (buildDependencyGraph Samples.blog) good
      ∧ (∀ k level n, good !! k = Some level → n ∈ level →
           resolvable (S k) (buildDependencyGraph Samples.blog) n = true)
      ∧ (∀ level n, level ∈ rest → n ∈ level →
           ∀ depth,
             resolvable depth (buildDependencyGraph Samples.blog) n = false).
Proof.
  assert (Hnd : NoDup (name <$> Samples.blog)).
  { apply (bool_decide_unpack _). vm_compute. exact I. }
  split; [exact Hnd|]. exact (levels_are_layered Samples.blog Hnd).
Defined.

(** No foreign key is lost between the graph and the list of self
    references: a relation field that names a foreign-key column either
    makes its table depend on the related table in the graph, or points at
    its own table, which [identifySelfReferences] then lists while the graph
    gets no edge for it.  The list holds only input tables that have a
    relation to themselves. *)
Theorem foreign_key_is_edge_or_self_reference (tables : list TableDefinition) :
  (∀ t field rel,
     t ∈ tables → field ∈ fields t → relation field = Some rel →
     truthy (foreignKeyField rel) = true →
     (relatedTable rel ≠ name t
      ∧ relatedTable rel ∈ depsOf (buildDependencyGraph tables) (name t))
     ∨ (relatedTable rel = name t
        ∧ name t ∈ identifySelfReferences tables
        ∧ edgeTarget (name t) field = None))
  ∧ (∀ n, n ∈ identifySelfReferences tables ↔
       ∃ t field rel,
         t ∈ tables ∧ name t = n ∧ field ∈ fields t
         ∧ relation field = Some rel ∧ relatedTable rel = n)
  ∧ identifySelfReferences tables `sublist_of` name <$> tables.
Proof.
  destruct (buildDependencyGraph_consistent tables) as (_ & _ & _ & Hdeps).
  assert (Hspec : ∀ n, n ∈ identifySelfReferences tables ↔
            ∃ t field rel,
              t ∈ tables ∧ name t = n ∧ field ∈ fields t
              ∧ relation field = Some rel ∧ relatedTable rel = n).
  { intros n. unfold identifySelfReferences. rewrite list_elem_of_fmap. split.
    - intros (t & -> & Ht). apply list_elem_of_filter in Ht as [Hsome Ht].
      apply existsb_exists in Hsome as (field & Hf & Hself).
      unfold selfReferencing in Hself.
      destruct (relation field) as [rel|] eqn:Hrel; [|done].
      apply bool_decide_eq_true in Hself.
      exists t, field, rel. by rewrite <- list_elem_of_In in Hf.
    - intros (t & field & rel & Ht & <- & Hf & Hrel & Hself).
      exists t. split; [done|]. apply list_elem_of_filter. split; [|done].
      apply existsb_exists. exists field.
      split; [by apply list_elem_of_In|].
      unfold selfReferencing. rewrite Hrel. by apply bool_decide_eq_true. }
  split_and!; [|done|].
  - intros t field rel Ht Hf Hrel Hfk.
    destruct (decide (relatedTable rel = name t)) as [Hself|Hother].
    + right. split_and!; [done | |].
      * apply Hspec. by exists t, field, rel.
      * unfold edgeTarget. rewrite Hrel, Hfk. by rewrite decide_True.
    + left. split; [done|]. apply Hdeps. exists t, field.
      split_and!; [done..|].
      unfold edgeTarget. rewrite Hrel, Hfk. by rewrite decide_False.
  - unfold identifySelfReferences. apply fmap_sublist, sublist_filter.
Qed.
End level_claims.

(** ** More on the transformer *)

Section transformer_more.
Import Transformer TransformerSpec Validation.
Variable random : nat → UnitFraction.
Variable idMappings : IdMappings.
Variable tableSchema : TableDefinition.

Lemma fkColumn_Some field fk :
  fkColumn field = Some fk
  ↔ ∃ rel, relation field = Some rel ∧ foreignKeyField rel = Some fk
           ∧ fk ≠ "".
Proof.
  unfold fkColumn. split.
  - destruct (relation field) as [rel|]; [|done].
    destruct (foreignKeyField rel) as [k|] eqn:Hk; [|done].
    case_bool_decide; [done|]. intros [= ->]. by exists rel.
  - intros (rel & -> & -> & Hne). by rewrite bool_decide_false.
Qed.

Lemma processField_settled loc w field :
  (∀ rel fk,
     relation field = Some rel → fkColumn field = Some fk →
     nullish (read loc fk w) = true
     ∨ ((∀ text, read loc fk w = VStr text → includesBraces text = false)
        ∧ ∀ ids, idMappings !! relatedTable rel = Some ids →
                 ids = [] ∨ read loc fk w ∈ ids)) →
  processField random idMappings loc w field = w.
Proof.
  intros Hset. unfold processField.
  destruct (relation field) as [rel|] eqn:Hrel; [|done].
  destruct (foreignKeyField rel) as [fk|] eqn:Hfk; [|done].
  case_bool_decide as Hempty; [done|].
  destruct (nullish (read loc fk w)) eqn:Hnull; [done|].
  destruct (Hset rel fk eq_refl) as [Hn|[Hplain Hids]].
  { apply fkColumn_Some. by exists rel. }
  { by rewrite Hnull in Hn. }
  assert (Hsub : substitutePlaceholder idMappings loc fk (read loc fk w) w = w).
  { unfold substitutePlaceholder.
    destruct (read loc fk w) as [| | | |text| |] eqn:Hv; try done.
    by rewrite (Hplain text eq_refl). }
  rewrite Hsub. unfold replaceUnknown.
  destruct (idMappings !! relatedTable rel) as [ids|] eqn:Hmap; [|done].
  destruct (decide (0 < length ids)%nat) as [Hlen|]; [|done].
  destruct (Hids ids eq_refl) as [->|Hin]; [simpl in Hlen; lia|].
  by rewrite decide_True.
Qed.

Lemma transformRow_settled w row :
  settled idMappings tableSchema (content w row) →
  transformRow random idMappings tableSchema w row
  = (length (heap w),
     {| heap := heap w ++ [content w row]; randomCalls := randomCalls w |}).
Proof.
  intros Hset. unfold transformRow. f_equal.
  set (w1 := {| heap := heap w ++ [content w row];
                randomCalls := randomCalls w |}).
  assert (Hnew : content w1 (length (heap w)) = content w row).
  { unfold content, w1. cbn [heap]. by rewrite list_lookup_middle. }
  assert (Hfold : ∀ fs, (∀ f, f ∈ fs → f ∈ fields tableSchema) →
            foldl (processField random idMappings (length (heap w))) w1 fs
            = w1).
  { induction fs as [|f fs IH]; intros Hsub; [done|]. simpl.
    rewrite processField_settled.
    - apply IH. intros f' Hf'. apply Hsub, elem_of_cons. by right.
    - intros rel fk Hrel Hcol. rewrite read_content, Hnew.
      apply (Hset f rel fk); [|done..]. apply Hsub, elem_of_cons. by left. }
  by apply Hfold.
Qed.

(** Rows that need no change are copied: when every foreign-key column of
    every row is null, undefined, or a value other than a placeholder text
    that the candidate list (if there is a non-empty one) contains, the
    result is a list of new objects with the contents of the input rows, in
    the same order, and [Math.random] is not called. *)
Theorem settled_rows_are_copied : ∀ (rows : list nat) (w : World),
  (∀ row, row ∈ rows →
     (row < length (heap w))%nat
     ∧ settled idMappings tableSchema (content w row)) →
  transformForeignKeys random idMappings rows tableSchema w
  = (seq (length (heap w)) (length rows),
     {| heap := heap w ++ (content w <$> rows);
        randomCalls := randomCalls w |}).
Proof.
  induction rows as [|row rows IH]; intros w Hrows.
  - simpl. rewrite app_nil_r. by destruct w.
  - destruct (Hrows row) as [Hrow Hset]; [apply elem_of_cons; by left|].
    cbn [transformForeignKeys]. rewrite (transformRow_settled w row Hset).
    set (w1 := {| heap := heap w ++ [content w row];
                  randomCalls := randomCalls w |}).
    assert (Hsame : ∀ r, (r < length (heap w))%nat →
              content w1 r = content w r).
    { intros r Hr. unfold content, w1. cbn [heap].
      by rewrite lookup_app_l. }
    rewrite (IH w1).
    + assert (Hlen : length (heap w1) = S (length (heap w))).
      { unfold w1. cbn [heap]. rewrite length_app. simpl. lia. }
      rewrite Hlen. cbn [length seq]. f_equal.
      unfold w1. cbn [heap randomCalls]. f_equal.
      rewrite <- app_assoc. cbn [app fmap list_fmap]. do 2 f_equal.
      apply Forall_fmap_ext, Forall_forall. intros r Hr.
      apply (Hsame r). apply Hrows. apply elem_of_cons. by right.
    + intros r Hr.
      destruct (Hrows r) as [Hlt Hs]; [apply elem_of_cons; by right|].
      split.
      * unfold w1. cbn [heap]. rewrite length_app. simpl. lia.
      * by rewrite Hsame.
Qed.

Lemma processField_keeps_nullish loc w field key :
  nullish (read loc key w) = true →
  read loc key (processField random idMappings loc w field)
  = read loc key w.
Proof.
  intros Hnull. unfold processField.
  destruct (relation field) as [rel|] eqn:Hrel; [|done].
  destruct (foreignKeyField rel) as [fk|] eqn:Hfk; [|done].
  case_bool_decide as Hempty; [done|].
  destruct (decide (fk = key)) as [->|Hne]; [by rewrite Hnull|].
  destruct (nullish (read loc fk w)); [done|].
  destruct (sameExcept_trans loc fk _ _ _
              (substitutePlaceholder_same idMappings loc fk
                 (read loc fk w) w)
              (replaceUnknown_same random idMappings loc fk
                 (relatedTable rel) (read loc fk w) _))
    as (_ & _ & Hkeys).
  by apply Hkeys.
Qed.

Lemma fold_keeps_nullish loc key : ∀ fs w,
  nullish (read loc key w) = true →
  read loc key (foldl (processField random idMappings loc) w fs)
  = read loc key w.
Proof.
  induction fs as [|f fs IH]; intros w Hnull; [done|]. simpl.
  rewrite IH; rewrite processField_keeps_nullish; done.
Qed.

Lemma transformRow_keeps_nullish w row key :
  nullish (prop (content w row) key) = true →
  prop (content (transformRow random idMappings tableSchema w row).2
          (length (heap w))) key
  = prop (content w row) key.
Proof.
  intros Hnull. unfold transformRow. cbn [snd].
  set (w1 := {| heap := heap w ++ [content w row];
                randomCalls := randomCalls w |}).
  assert (Hnew : content w1 (length (heap w)) = content w row).
  { unfold content, w1. cbn [heap]. by rewrite list_lookup_middle. }
  rewrite <- read_content, fold_keeps_nullish;
    by rewrite read_content, Hnew.
Qed.

(** A foreign key that is null or undefined stays so: the transformer
    never fills in a missing reference, whatever the candidate lists and
    the other columns hold. *)
Theorem missing_foreign_key_is_kept (rows : list nat) (w : World)
    (i row : nat) (key : string) :
  rows !! i = Some row →
  (row < length (heap w))%nat →
  nullish (read row key w) = true →
  ∃ out,
    (transformForeignKeys random idMappings rows tableSchema w).1 !! i
    = Some out
    ∧ read out key
        (transformForeignKeys random idMappings rows tableSchema w).2
      = read row key w.
Proof.
  intros Hi Hrow Hnull.
  destruct (transformForeignKeys_rows random idMappings tableSchema
              (λ input output,
                 nullish (prop input key) = true →
                 prop output key = prop input key))
    with (rows := rows) (w := w) (i := i) (row := row)
    as (out & Hout & _ & Hsame); [|done..|].
  - intros w0 row0. apply transformRow_keeps_nullish.
  - exists out. split; [done|]. by apply Hsame.
Qed.
End transformer_more.

(** ** Validation *)

Section validation_facts.
Import Transformer TransformerSpec Validation.
Variable valueToString : Value → string.
Variable idMappings : IdMappings.

Lemma acceptable_vacuous row field :
  fkColumn field = None → acceptable idMappings row field.
Proof. intros Hnone rel fk _ Hcol. by rewrite Hnone in Hcol. Qed.

Lemma acceptable_spec row field rel fk :
  relation field = Some rel → foreignKeyField rel = Some fk → fk ≠ "" →
  acceptable idMappings row field
  ↔ ((nullish (prop row fk) = true ∧ isRequired field = false)
     ∨ ∃ ids, idMappings !! relatedTable rel = Some ids ∧ prop row fk ∈ ids).
Proof.
  intros Hrel Hfk Hne.
  assert (Hcol : fkColumn field = Some fk).
  { unfold fkColumn. by rewrite Hrel, Hfk, bool_decide_false. }
  unfold acceptable. split.
  - intros H. by apply H.
  - intros H rel' fk' Hrel' Hcol'.
    rewrite Hrel in Hrel'. injection Hrel' as <-.
    rewrite Hcol in Hcol'. by injection Hcol' as <-.
Qed.

Lemma validateField_grows index row errors field :
  ∃ extra,
    validateField valueToString idMappings index row errors field
    = errors ++ extra
    ∧ (extra = [] ↔ acceptable idMappings row field).
Proof.
  unfold validateField.
  destruct (relation field) as [rel|] eqn:Hrel.
  2:{ exists []. rewrite app_nil_r. split; [done|]. split; [|done].
      intros _. apply acceptable_vacuous. unfold fkColumn. by rewrite Hrel. }
  destruct (foreignKeyField rel) as [fk|] eqn:Hfk.
  2:{ exists []. rewrite app_nil_r. split; [done|]. split; [|done].
      intros _. apply acceptable_vacuous. unfold fkColumn.
      by rewrite Hrel, Hfk. }
  case_bool_decide as Hempty.
  { exists []. rewrite app_nil_r. split; [done|]. split; [|done].
    intros _. apply acceptable_vacuous. unfold fkColumn.
    by rewrite Hrel, Hfk, bool_decide_true. }
  pose proof (acceptable_spec row field rel fk Hrel Hfk Hempty) as Hacc.
  set (value := prop row fk) in *.
  enough (∃ extra,
            (if nullish value && negb (isRequired field) then errors
             else
               match idMappings !! relatedTable rel with
               | None => errors ++ [noIdsMessage index fk (relatedTable rel)]
               | Some availableIds =>
                   if decide (length availableIds = 0%nat) then
                     errors ++ [noIdsMessage index fk (relatedTable rel)]
                   else if decide (value ∈ availableIds) then errors
                   else
                     errors ++ [notFoundMessage valueToString index fk value
                                  (relatedTable rel)]
               end) = errors ++ extra
            ∧ (extra = []
               ↔ ((nullish value = true ∧ isRequired field = false)
                  ∨ ∃ ids, idMappings !! relatedTable rel = Some ids
                           ∧ value ∈ ids)))
    as (extra & Heq & Hiff).
  { exists extra. split; [exact Heq|]. by rewrite Hacc. }
  clear Hacc.
  destruct (nullish value && negb (isRequired field)) eqn:Hskip.
  { exists []. rewrite app_nil_r. split; [done|]. split; [|done].
    intros _. left. apply andb_true_iff in Hskip as [? Hreq].
    by apply negb_true_iff in Hreq. }
  assert (Hnot : ¬ (nullish value = true ∧ isRequired field = false)).
  { intros [Hn Hr]. by rewrite Hn, Hr in Hskip. }
  destruct (idMappings !! relatedTable rel) as [ids|] eqn:Hmap.
  2:{ eexists [_]. split; [done|]. split; [done|].
      intros [?|(ids & ? & _)]; done. }
  destruct (decide (length ids = 0%nat)) as [Hlen|Hlen].
  { eexists [_]. split; [done|]. split; [done|].
    intros [?|(ids' & Heq & Hin)]; [done|]. injection Heq as <-.
    apply nil_length_inv in Hlen as ->. by apply elem_of_nil in Hin. }
  destruct (decide (value ∈ ids)) as [Hin|Hin].
  { exists []. rewrite app_nil_r. split; [done|]. split; [|done].
    intros _. right. by exists ids. }
  eexists [_]. split; [done|]. split; [done|].
  intros [?|(ids' & Heq & ?)]; [done|]. by injection Heq as <-.
Qed.

Lemma validateFields_grows index row : ∀ fs errors,
  ∃ extra,
    foldl (validateField valueToString idMappings index row) errors fs
    = errors ++ extra
    ∧ (extra = [] ↔ ∀ f, f ∈ fs → acceptable idMappings row f).
Proof.
  induction fs as [|f fs IH]; intros errors.
  - exists []. rewrite app_nil_r. split; [done|]. split; [|done].
    intros _ f Hf. by apply elem_of_nil in Hf.
  - simpl. destruct (validateField_grows index row errors f)
      as (e1 & -> & H1).
    destruct (IH (errors ++ e1)) as (e2 & -> & H2).
    exists (e1 ++ e2). split; [by rewrite app_assoc|].
    rewrite app_nil, H1, H2. split.
    + intros [Hf Hfs] f' Hf'.
      apply elem_of_cons in Hf' as [->|Hf']; [done|by apply Hfs].
    + intros Hall. split.
      * apply Hall, elem_of_cons. by left.
      * intros f' Hf'. apply Hall, elem_of_cons. by right.
Qed.

Lemma validateRows_grows tableSchema : ∀ (l : list (nat * Row)) errors,
  ∃ extra,
    foldl (validateRow valueToString idMappings tableSchema) errors l
    = errors ++ extra
    ∧ (extra = []
       ↔ ∀ ir f, ir ∈ l → f ∈ fields tableSchema →
           acceptable idMappings ir.2 f).
Proof.
  induction l as [|ir l IH]; intros errors.
  - exists []. rewrite app_nil_r. split; [done|]. split; [|done].
    intros _ ir f Hir. by apply elem_of_nil in Hir.
  - simpl. unfold validateRow at 2.
    destruct (validateFields_grows ir.1 ir.2 (fields tableSchema) errors)
      as (e1 & -> & H1).
    destruct (IH (errors ++ e1)) as (e2 & -> & H2).
    exists (e1 ++ e2). split; [by rewrite app_assoc|].
    rewrite app_nil, H1, H2. split.
    + intros [Hf Hfs] ir' f Hir' Hf'.
      apply elem_of_cons in Hir' as [->|Hir']; [by apply Hf|by apply Hfs].
    + intros Hall. split.
      * intros f Hf. apply Hall; [apply elem_of_cons; by left | done].
      * intros ir' f Hir' Hf. apply Hall; [|done].
        apply elem_of_cons. by right.
Qed.

Lemma validate_clean rows tableSchema :
  validateReferentialIntegrity valueToString idMappings rows tableSchema = []
  ↔ ∀ row f, row ∈ rows → f ∈ fields tableSchema →
      acceptable idMappings row f.
Proof.
  unfold validateReferentialIntegrity.
  destruct (validateRows_grows tableSchema (imap pair rows) [])
    as (extra & -> & Hextra).
  simpl. rewrite Hextra. split.
  - intros Hall row f Hrow Hf.
    apply list_elem_of_lookup in Hrow as [i Hi].
    apply (Hall (i, row)); [|done].
    apply list_elem_of_lookup. exists i.
    by rewrite list_lookup_imap, Hi.
  - intros Hall [i row] f Hir Hf. simpl.
    apply list_elem_of_lookup in Hir as [j Hj].
    rewrite list_lookup_imap in Hj.
    destruct (rows !! j) as [row'|] eqn:Hrow; [|done].
    injection Hj as <- <-. apply Hall; [|done].
    by eapply list_elem_of_lookup_2.
Qed.
End validation_facts.

Section validation_claims.
Import Transformer TransformerSpec Validation.

(** The validation reports nothing exactly when, in every row, every
    foreign-key column either is null or undefined for a field that is not
    required, or holds a member of the candidate list of the related
    table; a missing or empty candidate list is thus an error for every
    row, unless the column is empty and optional. *)
Theorem validation_passes_iff (valueToString : Value → string)
    (idMappings : IdMappings) (rows : list Row)
    (tableSchema : TableDefinition) :
  validateReferentialIntegrity valueToString idMappings rows tableSchema = []
  ↔ ∀ row f, row ∈ rows → f ∈ fields tableSchema →
      acceptable idMappings row f.
Proof. apply validate_clean. Qed.

Lemma transformForeignKeys_length random idMappings tableSchema :
  ∀ rows w,
    length (transformForeignKeys random idMappings rows tableSchema w).1
    = length rows.
Proof.
  induction rows as [|row rows IH]; intros w; [done|].
  rewrite transformForeignKeys_cons. cbn [fst length]. by rewrite IH.
Qed.

(** The field loop leaves a member of the candidate list in a foreign-key
    column that no other relation of the table uses. *)
Lemma transformRow_member random idMappings tableSchema w row
    before after field rel fk ids :
  fields tableSchema = before ++ field :: after →
  relation field = Some rel → foreignKeyField rel = Some fk → fk ≠ "" →
  (∀ f, f ∈ before ++ after → fkColumn f ≠ Some fk) →
  idMappings !! relatedTable rel = Some ids → ids ≠ [] →
  nullish (prop (content w row) fk) = false →
  (prop (content w row) fk ∈ ids →
   ∀ text, prop (content w row) fk = VStr text →
           includesBraces text = false) →
  prop (content (transformRow random idMappings tableSchema w row).2
          (length (heap w))) fk ∈ ids.
Proof.
  intros Hfields Hrel Hfk Hne Hothers Hids Hnonempty Hnull Hplain.
  unfold transformRow. cbn [snd]. rewrite Hfields, foldl_app. cbn [foldl].
  set (tr := length (heap w)).
  set (w1 := {| heap := heap w ++ [content w row];
                randomCalls := randomCalls w |}).
  set (w2 := foldl (processField random idMappings tr) w1 before).
  set (w3 := processField random idMappings tr w2 field).
  assert (Hnew : content w1 tr = content w row).
  { unfold content, w1, tr. cbn [heap]. by rewrite list_lookup_middle. }
  destruct (sameOutside_fold random idMappings tr before w1)
    as (Hlen2 & _ & Hkeys2).
  destruct (sameOutside_fold random idMappings tr after w3)
    as (_ & _ & Hkeys4).
  fold w2 in Hlen2, Hkeys2.
  assert (Hread2 : read tr fk w2 = prop (content w row) fk).
  { rewrite Hkeys2, read_content, Hnew; [done|].
    intros f Hf. apply Hothers, elem_of_app. by left. }
  rewrite <- read_content, Hkeys4.
  2:{ intros f Hf. apply Hothers, elem_of_app. by right. }
  apply (processField_member random idMappings tr w2 field rel fk);
    try done.
  - rewrite Hlen2. unfold w1, tr. cbn [heap]. rewrite length_app. simpl. lia.
  - by rewrite Hread2.
  - by rewrite Hread2.
Qed.

(** The transformer followed by the validation: when no two relations of
    the table share a foreign-key column, every related table has
    candidates, no required foreign key is missing in the input rows and no
    input value is a placeholder text that is itself a candidate, the
    validation of the transformed rows reports nothing. *)
Theorem transformed_rows_pass_validation
    (random : nat → UnitFraction) (valueToString : Value → string)
    (idMappings : IdMappings) (tableSchema : TableDefinition)
    (rows : list nat) (w : World) :
  NoDup (omap fkColumn (fields tableSchema)) →
  (∀ f rel fk,
     f ∈ fields tableSchema → relation f = Some rel → fkColumn f = Some fk →
     ∃ ids, idMappings !! relatedTable rel = Some ids ∧ ids ≠ []) →
  (∀ row, row ∈ rows → (row < length (heap w))%nat) →
  (∀ row f rel fk,
     row ∈ rows → f ∈ fields tableSchema →
     relation f = Some rel → fkColumn f = Some fk →
     (nullish (read row fk w) = true → isRequired f = false)
     ∧ ∀ ids text,
         idMappings !! relatedTable rel = Some ids →
         read row fk w = VStr text → VStr text ∈ ids →
         includesBraces text = false) →
  validateReferentialIntegrity valueToString idMappings
    (content (transformForeignKeys random idMappings rows tableSchema w).2
       <$> (transformForeignKeys random idMappings rows tableSchema w).1)
    tableSchema
  = [].
Proof.
  intros Hnd Hcand Hvalid Hrows.
  apply validate_clean. intros outRow f Hout Hf.
  apply list_elem_of_fmap in Hout as (out & -> & Hout).
  apply list_elem_of_lookup in Hout as [i Hi].
  assert (Hlt : (i < length rows)%nat).
  { rewrite <- (transformForeignKeys_length random idMappings tableSchema
                  rows w).
    by eapply lookup_lt_Some. }
  destruct (lookup_lt_is_Some_2 _ _ Hlt) as [row Hrow].
  assert (Hin : row ∈ rows) by by eapply list_elem_of_lookup_2.
  destruct (transformForeignKeys_rows random idMappings tableSchema
              (λ input output,
                 (∀ f rel fk,
                    f ∈ fields tableSchema → relation f = Some rel →
                    fkColumn f = Some fk →
                    (nullish (prop input fk) = true → isRequired f = false)
                    ∧ ∀ ids text,
                        idMappings !! relatedTable rel = Some ids →
                        prop input fk = VStr text → VStr text ∈ ids →
                        includesBraces text = false) →
                 ∀ f, f ∈ fields tableSchema →
                      acceptable idMappings output f))
    with (rows := rows) (w := w) (i := i) (row := row)
    as (out' & Hout' & _ & Hacc); [| done | by apply Hvalid |].
  2:{ rewrite Hi in Hout'. injection Hout' as <-.
      apply Hacc; [|done]. intros f' rel fk Hf' Hrel Hcol.
      by apply Hrows. }
  clear dependent w. clear dependent row. clear dependent f. clear i out Hlt.
  intros w row Hinput f Hf rel fk Hrel Hcol.
  pose proof Hcol as Hcol'.
  apply fkColumn_Some in Hcol' as (rel' & Hrel' & Hfk & Hne).
  rewrite Hrel in Hrel'. injection Hrel' as <-.
  destruct (Hinput f rel fk Hf Hrel Hcol) as [Hmissing Hplain].
  destruct (nullish (prop (content w row) fk)) eqn:Hnull.
  - left. rewrite (transformRow_keeps_nullish random idMappings tableSchema
                     w row fk Hnull).
    split; [done | by apply Hmissing].
  - right. destruct (Hcand f rel fk Hf Hrel Hcol) as (ids & Hids & Hnonempty).
    exists ids. split; [done|].
    apply list_elem_of_split in Hf as (before & after & Hfields).
    apply (transformRow_member random idMappings tableSchema w row
             before after f rel fk ids); try done.
    + rewrite Hfields, omap_app in Hnd. cbn [omap list_omap] in Hnd.
      rewrite Hcol in Hnd.
      apply NoDup_app in Hnd as (_ & Hdisj & Hright).
      apply NoDup_cons in Hright as [Hafter _].
      intros g Hg Hgcol. apply elem_of_app in Hg as [Hg|Hg].
      * apply (Hdisj fk).
        -- apply list_elem_of_omap. by exists g.
        -- apply elem_of_cons. by left.
      * apply Hafter. apply list_elem_of_omap. by exists g.
    + intros Hmember text Htext. apply (Hplain ids text); [done..|].
      by rewrite <- Htext.
Qed.
End validation_claims.

Section transformer_examples.
Import Transformer TransformerSpec Validation.

Lemma optionalAuthor_fields f rel fk :
  f ∈ fields optionalAuthor → relation f = Some rel → fkColumn f = Some fk →
  isRequired f = false ∧ relatedTable rel = "User" ∧ fk = "authorId".
Proof.
  intros Hf Hrel Hcol. unfold optionalAuthor in Hf. cbn [fields] in Hf.
  apply elem_of_cons in Hf as [->|Hf]; [done|].
  apply list_elem_of_singleton in Hf as ->.
  cbn in Hrel. injection Hrel as <-.
  vm_compute in Hcol. injection Hcol as <-. done.
Qed.

Lemma settled_rows_are_copied_witness :
  transformForeignKeys (λ _, zero) userIds [0%nat; 2%nat] optionalAuthor
    threePosts
  = ([3%nat; 4%nat],
     {| heap := heap threePosts
                ++ [[("id", VNum 1); ("authorId", VNum 20)];
                    [("id", VNum 3); ("authorId", VNull)]];
        randomCalls := 0 |}).
Proof.
  apply (settled_rows_are_copied (λ _, zero) userIds optionalAuthor
           [0%nat; 2%nat] threePosts).
  intros row Hrow. apply elem_of_cons in Hrow as [->|Hrow].
  - split; [simpl; lia|]. intros f rel fk Hf Hrel Hcol.
    destruct (optionalAuthor_fields f rel fk Hf Hrel Hcol) as (_ & -> & ->).
    right. split; [done|]. intros ids Hids.
    vm_compute in Hids. injection Hids as <-. right.
    apply elem_of_cons. right. apply elem_of_cons. by left.
  - apply list_elem_of_singleton in Hrow as ->.
    split; [simpl; lia|]. intros f rel fk Hf Hrel Hcol.
    destruct (optionalAuthor_fields f rel fk Hf Hrel Hcol) as (_ & _ & ->).
    by left.
Defined.

Lemma missing_foreign_key_is_kept_witness :
  ∃ out,
    (transformForeignKeys (λ _, zero) userIds [1%nat; 2%nat] optionalAuthor
       threePosts).1 !! 1%nat = Some out
    ∧ read out "authorId"
        (transformForeignKeys (λ _, zero) userIds [1%nat; 2%nat]
           optionalAuthor threePosts).2
      = read 2 "authorId" threePosts.
Proof.
  apply (missing_foreign_key_is_kept (λ _, zero) userIds optionalAuthor
           [1%nat; 2%nat] threePosts 1 2 "authorId").
  - reflexivity.
  - simpl. lia.
  - reflexivity.
Defined.

Lemma transformed_rows_pass_validation_witness :
  validateReferentialIntegrity (λ _, "") userIds
    (content
       (transformForeignKeys (λ _, zero) userIds [0%nat; 1%nat; 2%nat]
          optionalAuthor threePosts).2
       <$> (transformForeignKeys (λ _, zero) userIds [0%nat; 1%nat; 2%nat]
              optionalAuthor threePosts).1)
    optionalAuthor
  = [].
Proof.
  apply (transformed_rows_pass_validation (λ _, zero) (λ _, "") userIds
           optionalAuthor [0%nat; 1%nat; 2%nat] threePosts).
  - apply (bool_decide_unpack _). vm_compute. exact I.
  - intros f rel fk Hf Hrel Hcol.
    destruct (optionalAuthor_fields f rel fk Hf Hrel Hcol) as (_ & -> & _).
    by exists [VNum 10; VNum 20; VNum 30].
  - intros row Hrow.
    repeat (apply elem_of_cons in Hrow as [->|Hrow]; [simpl; lia|]).
    by apply elem_of_nil in Hrow.
  - intros row f rel fk Hrow Hf Hrel Hcol.
    destruct (optionalAuthor_fields f rel fk Hf Hrel Hcol) as (Hreq & _ & ->).
    split; [done|]. intros ids text _ Htext.
    repeat (apply elem_of_cons in Hrow as [->|Hrow]; [done|]).
    by apply elem_of_nil in Hrow.
Defined.
End transformer_examples.

(** ** More on the inserter *)

Section inserter_more.
Import Inserter InserterSpec.
Variable db : Database.
Variable tableName : string.

Lemma counted_rows : ∀ batches k,
  insertedRows db tableName k batches + failedRows db tableName k batches
  = Z.of_nat (length (concat batches)).
Proof.
  induction batches as [|batch batches IH]; intros k; [done|].
  cbn [insertedRows failedRows concat]. rewrite length_app.
  specialize (IH (S k)).
  destruct (answer db tableName k batch) as [qr|e]; lia.
Qed.

Lemma statements_sent batches :
  Forall (λ ev, isSent ev = true) (statements tableName batches).
Proof. unfold statements. apply Forall_fmap, Forall_true. done. Qed.

Lemma splitRows_chunks all batchSize :
  0 < batchSize →
  ∀ fuel i batches,
    splitRows fuel all batchSize (Z.of_nat i) = Some batches →
    (∀ k, (k < length batches)%nat →
       batches !! k
       = Some (take (Z.to_nat batchSize)
                 (drop (i + k * Z.to_nat batchSize) all)))
    ∧ Z.of_nat (length all)
      ≤ Z.of_nat i + Z.of_nat (length batches) * batchSize
    ∧ (batches ≠ [] →
       Z.of_nat i + Z.of_nat (length batches) * batchSize
       < Z.of_nat (length all) + batchSize).
Proof.
  intros Hpos. induction fuel as [|fuel IH]; intros i batches Hrun.
  - cbn [splitRows] in Hrun. destruct (decide _) as [|Hge]; [done|].
    injection Hrun as <-. split_and!; [simpl; lia | simpl; lia | done].
  - cbn [splitRows] in Hrun.
    destruct (decide (Z.of_nat i < Z.of_nat (length all))) as [Hlt|Hge].
    2:{ injection Hrun as <-. split_and!; [simpl; lia | simpl; lia | done]. }
    replace (Z.of_nat i + batchSize)
      with (Z.of_nat (i + Z.to_nat batchSize)) in Hrun by lia.
    destruct (splitRows fuel all batchSize
                (Z.of_nat (i + Z.to_nat batchSize))) as [rest|] eqn:Hrest;
      [|done].
    simpl in Hrun. injection Hrun as <-.
    destruct (IH _ _ Hrest) as (Hlookup & Hlow & Hhigh).
    assert (Hslice : slice all (Z.of_nat i) (Z.of_nat (i + Z.to_nat batchSize))
                     = take (Z.to_nat batchSize) (drop i all)).
    { unfold slice. rewrite !decide_False by lia.
      rewrite (Z.min_l (Z.of_nat i)) by lia. rewrite Nat2Z.id.
      destruct (decide (i + Z.to_nat batchSize ≤ length all)%nat).
      - rewrite Z.min_l by lia. f_equal. lia.
      - rewrite Z.min_r by lia.
        rewrite !take_ge; [done | rewrite length_drop; lia..]. }
    rewrite Hslice. split_and!.
    + intros [|k] Hk.
      * simpl. do 3 f_equal. lia.
      * simpl in Hk. simpl. rewrite Hlookup by lia. do 3 f_equal. lia.
    + cbn [length]. lia.
    + intros _. cbn [length]. destruct rest as [|b rest'].
      * simpl. lia.
      * specialize (Hhigh ltac:(done)). lia.
Qed.

Lemma insertData_run all batchSize :
  all ≠ [] → 0 < batchSize → connectError db = None →
  ∃ m batches,
    insertData db tableName all batchSize = Some m
    ∧ splitRows (S (length all)) all batchSize 0 = Some batches
    ∧ Forall (λ batch, batch ≠ []) batches
    ∧ concat batches = all
    ∧ transactionOutcome db tableName batches (m []).
Proof.
  intros Hall Hpos Hconn. unfold insertData.
  destruct all as [|row all]; [done|].
  destruct (splitRows_spec (row :: all) batchSize Hpos
              (S (length (row :: all))) 0) as (batches & Hs & Hne & Hcat);
    [simpl; lia|].
  change (Z.of_nat 0) with 0 in Hs. rewrite Hs. cbn [mbind option_bind].
  eexists _, batches. split_and!; [done | done | done | done |].
  unfold transactionOutcome, connect. rewrite Hconn.
  cbv beta iota zeta delta [bind ret finally tryCatch query throw release].
  change (sentCount []) with 0%nat.
  destruct (respond db 0 BEGIN) as [began|e].
  - rewrite insertAll_spec by done. cbv beta iota.
    rewrite sentCount_statements.
    change (sentCount ([] ++ [Sent BEGIN])) with 1%nat.
    replace (1 + length batches)%nat with (S (length batches)) by lia.
    destruct (respond db (S (length batches)) COMMIT) as [committed|e].
    + simpl. by rewrite <- !app_assoc.
    + rewrite sentCount_snoc, sentCount_statements.
      change (sentCount ([] ++ [Sent BEGIN])) with 1%nat.
      replace (S (1 + length batches))%nat with (S (S (length batches)))
        by lia.
      destruct (respond db (S (S (length batches))) ROLLBACK);
        simpl; by rewrite <- !app_assoc.
  - change (sentCount ([] ++ [Sent BEGIN])) with 1%nat.
    destruct (respond db 1 ROLLBACK); done.
Qed.

Lemma insertData_committed all batchSize :
  all ≠ [] → 0 < batchSize → connectError db = None →
  (∃ r, respond db 0 BEGIN = Returns r) →
  (∀ n, ∃ r, respond db n COMMIT = Returns r) →
  ∃ m batches,
    insertData db tableName all batchSize = Some m
    ∧ splitRows (S (length all)) all batchSize 0 = Some batches
    ∧ concat batches = all
    ∧ m [] = (Returns
                {| resultTable := tableName;
                   inserted := insertedRows db tableName 1 batches;
                   failed := failedRows db tableName 1 batches;
                   errors := messages db tableName 1 batches;
                   ids := harvested db tableName 1 batches |},
              [Sent BEGIN] ++ statements tableName batches
              ++ [Sent COMMIT; Released]).
Proof.
  intros Hall Hpos Hconn [began Hbegin] Hcommit.
  destruct (insertData_run all batchSize Hall Hpos Hconn)
    as (m & batches & Hm & Hsplit & _ & Hcat & Hout).
  exists m, batches. split_and!; [done..|].
  unfold transactionOutcome in Hout. rewrite Hbegin in Hout.
  destruct (Hcommit (S (length batches))) as [committed Hc].
  by rewrite Hc in Hout.
Qed.
End inserter_more.

Section inserter_more_claims.
Import Inserter InserterSpec.

(** Every row is accounted for: when the client connects and BEGIN and
    COMMIT succeed, the call returns, and the rows reported as inserted and
    those reported as failed add up to the number of rows given, whatever
    the store answers to the inserts. *)
Theorem every_row_is_counted (db : Database) (tableName : string)
    (all : list Row) (batchSize : Z) :
  0 < batchSize → connectError db = None →
  (∃ r, respond db 0 BEGIN = Returns r) →
  (∀ n, ∃ r, respond db n COMMIT = Returns r) →
  ∃ m result log,
    insertData db tableName all batchSize = Some m
    ∧ m [] = (Returns result, log)
    ∧ resultTable result = tableName
    ∧ inserted result + failed result = Z.of_nat (length all).
Proof.
  intros Hpos Hconn Hbegin Hcommit.
  destruct (decide (all = [])) as [->|Hall].
  { eexists _, _, _. split; [reflexivity|]. split; [reflexivity|]. done. }
  destruct (insertData_committed db tableName all batchSize Hall Hpos Hconn
              Hbegin Hcommit) as (m & batches & Hm & _ & Hcat & Hrun).
  eexists m, _, _. split; [done|]. split; [exact Hrun|].
  split; [done|]. cbn [inserted failed].
  by rewrite counted_rows, Hcat.
Qed.

Lemma every_row_is_counted_witness :
  ∃ m result log,
    insertData rejecting "User" [[("id", VNum 1)]; [("id", VNum 2)]] 500
    = Some m
    ∧ m [] = (Returns result, log)
    ∧ resultTable result = "User"
    ∧ inserted result + failed result = 2.
Proof.
  apply (every_row_is_counted rejecting "User"
           [[("id", VNum 1)]; [("id", VNum 2)]] 500).
  - lia.
  - reflexivity.
  - by eexists.
  - intros n. by eexists.
Defined.

(** The rows are sent in consecutive batches of [batchSize] rows, the last
    one holding what is left: between BEGIN and COMMIT one statement is sent
    per batch, the batch number [k] holds the rows from position
    [k * batchSize] on, at most [batchSize] of them, and the number of
    batches is the least one that covers all rows. *)
Theorem rows_are_sent_in_batches (db : Database) (tableName : string)
    (all : list Row) (batchSize : Z) :
  all ≠ [] → 0 < batchSize → connectError db = None →
  (∃ r, respond db 0 BEGIN = Returns r) →
  (∀ n, ∃ r, respond db n COMMIT = Returns r) →
  ∃ m batches,
    insertData db tableName all batchSize = Some m
    ∧ (m []).2 = [Sent BEGIN] ++ statements tableName batches
                 ++ [Sent COMMIT; Released]
    ∧ (∀ k, (k < length batches)%nat →
         batches !! k
         = Some (take (Z.to_nat batchSize)
                   (drop (k * Z.to_nat batchSize) all)))
    ∧ Z.of_nat (length all) ≤ Z.of_nat (length batches) * batchSize
      < Z.of_nat (length all) + batchSize.
Proof.
  intros Hall Hpos Hconn Hbegin Hcommit.
  destruct (insertData_committed db tableName all batchSize Hall Hpos Hconn
              Hbegin Hcommit) as (m & batches & Hm & Hsplit & Hcat & Hrun).
  exists m, batches. split; [done|]. split; [by rewrite Hrun|].
  change 0 with (Z.of_nat 0) in Hsplit.
  destruct (splitRows_chunks all batchSize Hpos _ _ _ Hsplit)
    as (Hlookup & Hlow & Hhigh).
  split; [exact Hlookup|]. split; [lia|].
  assert (Hne : batches ≠ []).
  { intros ->. simpl in Hcat. by subst all. }
  specialize (Hhigh Hne). lia.
Qed.

Lemma rows_are_sent_in_batches_witness :
  ∃ m batches,
    insertData rejecting "User"
      [[("id", VNum 1)]; [("id", VNum 2)]; [("id", VNum 3)]] 2 = Some m
    ∧ (m []).2 = [Sent BEGIN] ++ statements "User" batches
                 ++ [Sent COMMIT; Released]
    ∧ (∀ k, (k < length batches)%nat →
         batches !! k
         = Some (take (Z.to_nat 2)
                   (drop (k * Z.to_nat 2)
                      [[("id", VNum 1)]; [("id", VNum 2)];
                       [("id", VNum 3)]])))
    ∧ Z.of_nat 3 ≤ Z.of_nat (length batches) * 2 < Z.of_nat 3 + 2.
Proof.
  apply (rows_are_sent_in_batches rejecting "User"
           [[("id", VNum 1)]; [("id", VNum 2)]; [("id", VNum 3)]] 2).
  - done.
  - lia.
  - reflexivity.
  - by eexists.
  - intros n. by eexists.
Defined.

(** A batch size that is not positive makes the splitting loop run for
    ever on a non-empty list of rows: it never ends, whatever the number of
    turns allowed, and the call reaches neither the connection nor a
    result. *)
Theorem nonpositive_batch_size_never_ends (db : Database)
    (tableName : string) (all : list Row) (batchSize : Z) :
  all ≠ [] → batchSize ≤ 0 →
  (∀ fuel, splitRows fuel all batchSize 0 = None)
  ∧ insertData db tableName all batchSize = None.
Proof.
  intros Hall Hneg.
  assert (Hloop : ∀ fuel i, i ≤ 0 → splitRows fuel all batchSize i = None).
  { induction fuel as [|fuel IH]; intros i Hi; cbn [splitRows].
    - rewrite decide_True; [done|]. destruct all; [done|]. simpl. lia.
    - rewrite decide_True.
      + rewrite IH by lia. done.
      + destruct all; [done|]. simpl. lia. }
  split; [intros fuel; by apply Hloop|].
  unfold insertData. destruct all as [|row all]; [done|].
  by rewrite Hloop.
Qed.

Lemma nonpositive_batch_size_never_ends_witness :
  (∀ fuel, splitRows fuel [[("id", VNum 1)]] 0 0 = None)
  ∧ insertData rejecting "User" [[("id", VNum 1)]] 0 = None.
Proof.
  apply (nonpositive_batch_size_never_ends rejecting "User"
           [[("id", VNum 1)]] 0).
  - done.
  - lia.
Defined.

(** The client is released exactly once: when [pool.connect] fails,
    nothing is sent and the error is thrown; otherwise BEGIN is the first
    statement, and the release is the last thing done, whatever the store
    answers and whether the call returns or throws. *)
Theorem client_is_released_once (db : Database) (tableName : string)
    (all : list Row) (batchSize : Z) :
  all ≠ [] → 0 < batchSize →
  ∃ m,
    insertData db tableName all batchSize = Some m
    ∧ match connectError db with
      | Some e => m [] = (Throws e, [])
      | None =>
          ∃ sent, (m []).2 = Sent BEGIN :: sent ++ [Released]
                  ∧ Forall (λ ev, isSent ev = true) sent
      end.
Proof.
  intros Hall Hpos.
  destruct (connectError db) as [e|] eqn:Hconn.
  - unfold insertData. destruct all as [|row all]; [done|].
    destruct (splitRows_spec (row :: all) batchSize Hpos
                (S (length (row :: all))) 0) as (batches & Hs & _ & _);
      [simpl; lia|].
    change (Z.of_nat 0) with 0 in Hs. rewrite Hs. cbn [mbind option_bind].
    eexists. split; [reflexivity|].
    unfold connect. rewrite Hconn. reflexivity.
  - destruct (insertData_run db tableName all batchSize Hall Hpos Hconn)
      as (m & batches & Hm & _ & _ & _ & Hout).
    exists m. split; [done|]. unfold transactionOutcome in Hout.
    pose proof (statements_sent tableName batches) as Hsent.
    destruct (respond db 0 BEGIN) as [began|e].
    + destruct (respond db (S (length batches)) COMMIT) as [committed|e].
      * rewrite Hout. cbn [snd].
        exists (statements tableName batches ++ [Sent COMMIT]).
        split; [simpl; by rewrite <- app_assoc|].
        apply Forall_app. split; [done|]. by apply Forall_singleton.
      * rewrite Hout. cbn [snd].
        exists (statements tableName batches ++ [Sent COMMIT; Sent ROLLBACK]).
        split; [simpl; by rewrite <- app_assoc|].
        apply Forall_app. split; [done|].
        apply Forall_cons. split; [done|]. by apply Forall_singleton.
    + rewrite Hout. cbn [snd]. exists [Sent ROLLBACK].
      split; [done|]. by apply Forall_singleton.
Qed.

Lemma client_is_released_once_witness :
  ∃ m,
    insertData rejecting "User" [[("id", VNum 1)]] 500 = Some m
    ∧ match connectError rejecting with
      | Some e => m [] = (Throws e, [])
      | None =>
          ∃ sent, (m []).2 = Sent BEGIN :: sent ++ [Released]
                  ∧ Forall (λ ev, isSent ev = true) sent
      end.
Proof.
  apply (client_is_released_once rejecting "User" [[("id", VNum 1)]] 500).
  - done.
  - lia.
Defined.
End inserter_more_claims.

(** ** More on the generator *)

Section generator_more.
Import Generator GeneratorSpec.

Lemma attempts_exhausted (replies : nat → Reply)
    (context : GenerationContext) (count : Z) :
  ∀ todo attempt lastError,
    (∀ j, (j < todo)%nat →
       ∃ e, attemptOnce context count (replies (attempt + j)%nat)
            = Throws e) →
    attempts replies context count todo attempt lastError
    = Throws
        (match todo with
         | O => default noAttempt lastError
         | S k =>
             match attemptOnce context count (replies (attempt + k)%nat) with
             | Throws e => e
             | Returns _ => noAttempt
             end
         end).
Proof.
  induction todo as [|todo IH]; intros attempt lastError Hfail; [done|].
  cbn [attempts]. destruct (Hfail 0%nat) as [e He]; [lia|].
  rewrite Nat.add_0_r in He. rewrite He. rewrite IH.
  - destruct todo as [|todo].
    + rewrite Nat.add_0_r, He. done.
    + by replace (S attempt + todo)%nat with (attempt + S todo)%nat by lia.
  - intros j Hj. destruct (Hfail (S j)) as [e' He']; [lia|].
    exists e'. by replace (S attempt + j)%nat with (attempt + S j)%nat by lia.
Qed.

Lemma attempts_returned (replies : nat → Reply)
    (context : GenerationContext) (count : Z) (r : GenerationResult) :
  ∀ todo attempt lastError,
    attempts replies context count todo attempt lastError = Returns r →
    ∃ j, (j < todo)%nat
         ∧ attemptOnce context count (replies (attempt + j)%nat) = Returns r
         ∧ ∀ i, (i < j)%nat →
             ∃ e, attemptOnce context count (replies (attempt + i)%nat)
                  = Throws e.
Proof.
  induction todo as [|todo IH]; intros attempt lastError Hrun; [done|].
  cbn [attempts] in Hrun.
  destruct (attemptOnce context count (replies attempt)) as [r'|e] eqn:Hfirst.
  - injection Hrun as ->. exists 0%nat. rewrite Nat.add_0_r.
    split_and!; [lia | done | intros i Hi; lia].
  - apply IH in Hrun as (j & Hj & Hok & Hfail). exists (S j).
    split_and!; [lia | |].
    + by replace (attempt + S j)%nat with (S attempt + j)%nat by lia.
    + intros [|i] Hi.
      * exists e. by rewrite Nat.add_0_r.
      * destruct (Hfail i) as [e' He']; [lia|]. exists e'.
        by replace (attempt + S i)%nat with (S attempt + i)%nat by lia.
Qed.

Lemma attemptOnce_returned (context : GenerationContext) (count : Z)
    (reply : Reply) (r : GenerationResult) :
  attemptOnce context count reply = Returns r →
  ∃ rows, reply = RowsArray rows ∧ rows ≠ []
          ∧ r = {| genTable := tableName context;
                   genRows := slice rows 0 count;
                   genIds := extractIds rows (tableSchema context) |}.
Proof.
  destruct reply as [e| |e| |rows]; try done.
  destruct rows as [|row rows]; [done|].
  intros [= <-]. by eexists.
Qed.

(** When every request within the retry limit fails, [generateBatch]
    throws the error of the last one; the limit is 3 when [maxRetries] is
    missing or 0, and a negative [maxRetries] makes it throw [Failed to
    generate batch] without any request.  Without a client and without an
    API key it throws before any request. *)
Theorem exhausted_retries_throw_the_last_error (cached : bool)
    (apiKey : option string) (replies : nat → Reply)
    (context : GenerationContext) (count : Z) (maxRetries : option Z) :
  (∀ j, (j < Z.to_nat (retryLimit maxRetries))%nat →
     ∃ e, attemptOnce context count (replies j) = Throws e) →
  (getOpenAIClient cached apiKey = Returns () →
   ∃ e,
     lastFailure replies context count (Z.to_nat (retryLimit maxRetries))
     = Some e
     ∧ generateBatch cached apiKey replies context count maxRetries
       = Throws e)
  ∧ (cached = false → truthy apiKey = false →
     generateBatch cached apiKey replies context count maxRetries
     = Throws {| errName := "Error";
                 errMessage := "API key not provided" |}).
Proof.
  intros Hfail. split.
  - intros Hclient. unfold generateBatch. rewrite Hclient.
    rewrite attempts_exhausted by (intros j Hj; by apply Hfail).
    unfold lastFailure.
    destruct (Z.to_nat (retryLimit maxRetries)) as [|k] eqn:Hlimit.
    + by eexists.
    + destruct (Hfail k) as [e He]; [lia|]. simpl. rewrite He. by exists e.
  - intros -> Hkey. unfold generateBatch, getOpenAIClient. by rewrite Hkey.
Qed.

Lemma exhausted_retries_throw_the_last_error_witness :
  (getOpenAIClient true None = Returns () →
   ∃ e,
     lastFailure (λ _, NoContent) (request 1 5) 5
       (Z.to_nat (retryLimit (Some 0))) = Some e
     ∧ generateBatch true None (λ _, NoContent) (request 1 5) 5 (Some 0)
       = Throws e)
  ∧ (true = false → truthy (None : option string) = false →
     generateBatch true None (λ _, NoContent) (request 1 5) 5 (Some 0)
     = Throws {| errName := "Error";
                 errMessage := "API key not provided" |}).
Proof.
  apply (exhausted_retries_throw_the_last_error true None (λ _, NoContent)
           (request 1 5) 5 (Some 0)).
  intros j _. by eexists.
Defined.

(** What a successful call returns: the reply of the first request that
    did not fail, cut to the requested count.  For a positive count the
    rows are the first rows of that reply, at least one and at most the
    count. *)
Theorem returned_batch_is_a_prefix_of_the_reply (cached : bool)
    (apiKey : option string) (replies : nat → Reply)
    (context : GenerationContext) (requested : Z) (maxRetries : option Z)
    (r : GenerationResult) :
  generateBatch cached apiKey replies context requested maxRetries
  = Returns r →
  ∃ k reply,
    (k < Z.to_nat (retryLimit maxRetries))%nat
    ∧ replies k = RowsArray reply
    ∧ (∀ j, (j < k)%nat →
         ∃ e, attemptOnce context requested (replies j) = Throws e)
    ∧ genTable r = tableName context
    ∧ genIds r = extractIds reply (tableSchema context)
    ∧ (0 < requested →
       genRows r = take (Z.to_nat requested) reply
       ∧ (1 ≤ length (genRows r))%nat
       ∧ Z.of_nat (length (genRows r)) ≤ requested).
Proof.
  unfold generateBatch.
  destruct (getOpenAIClient cached apiKey) as [[]|e]; [|done].
  intros Hrun. apply attempts_returned in Hrun as (k & Hk & Hok & Hfail).
  simpl in Hok. apply attemptOnce_returned in Hok as (reply & Hreply & Hne & ->).
  exists k, reply. split_and!; [done | done | | done | done |].
  { intros j Hj. by apply (Hfail j). }
  intros Hpos. cbn [genRows].
  assert (Hslice : slice reply 0 requested = take (Z.to_nat requested) reply).
  { unfold slice. rewrite !decide_False by lia.
    rewrite (Z.min_l 0) by lia. change (Z.to_nat 0) with 0%nat.
    rewrite drop_0, Z.sub_0_r.
    destruct (decide (requested ≤ Z.of_nat (length reply))).
    - by rewrite Z.min_l by lia.
    - rewrite Z.min_r by lia. rewrite Nat2Z.id.
      rewrite !take_ge; [done | lia..]. }
  rewrite Hslice. split; [done|]. rewrite length_take.
  destruct reply; [done|]. simpl. lia.
Qed.

Lemma returned_batch_is_a_prefix_of_the_reply_witness :
  ∃ k reply,
    (k < Z.to_nat (retryLimit None))%nat
    ∧ (λ _ : nat, RowsArray threeRows) k = RowsArray reply
    ∧ (∀ j, (j < k)%nat →
         ∃ e, attemptOnce (request 1 2) 2 (RowsArray threeRows) = Throws e)
    ∧ genTable
        {| genTable := "Wide";
           genRows := [ [("c", VStr "x")]; [("c", VStr "y")] ];
           genIds := [Single (VNum 1); Single (VNum 2); Single (VNum 3)] |}
      = tableName (request 1 2)
    ∧ genIds
        {| genTable := "Wide";
           genRows := [ [("c", VStr "x")]; [("c", VStr "y")] ];
           genIds := [Single (VNum 1); Single (VNum 2); Single (VNum 3)] |}
      = extractIds reply (tableSchema (request 1 2))
    ∧ (0 < 2 →
       genRows
         {| genTable := "Wide";
            genRows := [ [("c", VStr "x")]; [("c", VStr "y")] ];
            genIds := [Single (VNum 1); Single (VNum 2); Single (VNum 3)] |}
       = take (Z.to_nat 2) reply
       ∧ (1 ≤ 2)%nat
       ∧ Z.of_nat 2 ≤ 2).
Proof.
  apply (returned_batch_is_a_prefix_of_the_reply false (Some "sk-test")
           (λ _, RowsArray threeRows) (request 1 2) 2 None).
  reflexivity.
Defined.

Lemma total_app (l1 l2 : list Z) : total (l1 ++ l2) = total l1 + total l2.
Proof.
  unfold total. induction l1 as [|x l1 IH]; simpl; [done|]. rewrite IH. lia.
Qed.

Lemma total_replicate (n : nat) (x : Z) :
  total (replicate n x) = Z.of_nat n * x.
Proof.
  unfold total. induction n as [|n IH]; [done|].
  cbn [replicate foldr]. rewrite IH. lia.
Qed.

(** The batches requested for a table ask for exactly [count] rows in
    all, whatever the count; for a positive count every batch asks for at
    least one row and at most the batch size. *)
Theorem batch_counts_add_up (context : GenerationContext) :
  ∃ sizes,
    batchCounts context = Some sizes
    ∧ total sizes = count context
    ∧ (0 < count context →
       Forall (λ size, 1 ≤ size ≤ getOptimalBatchSize context) sizes).
Proof.
  assert (Hsize : 0 < getOptimalBatchSize context).
  { unfold getOptimalBatchSize. repeat case_decide; lia. }
  unfold batchCounts.
  destruct (decide (count context ≤ getOptimalBatchSize context))
    as [Hle|Hgt].
  - eexists. split; [done|]. split; [unfold total; simpl; lia|].
    intros Hpos. apply Forall_singleton. lia.
  - rewrite (splitCount_spec _ Hsize) by lia. eexists. split; [done|].
    set (b := getOptimalBatchSize context) in *.
    set (c := count context) in *.
    pose proof (Z.div_mod c b ltac:(lia)) as Hdm.
    pose proof (Z.mod_pos_bound c b Hsize) as Hmod.
    assert (0 ≤ c / b) by (apply Z.div_pos; lia).
    split.
    + rewrite total_app, total_replicate, Z2Nat.id by done.
      destruct (decide (c `mod` b = 0)) as [H0|H0]; unfold total; simpl; lia.
    + intros _. apply Forall_app. split.
      * apply Forall_replicate. lia.
      * destruct (decide (c `mod` b = 0)); [done|].
        apply Forall_singleton. lia.
Qed.

Lemma filter_length_lt {A} (P : A → Prop) `{!∀ x, Decision (P x)}
    (l : list A) :
  (length (filter P l) < length l)%nat ↔ ∃ x, x ∈ l ∧ ¬ P x.
Proof.
  induction l as [|a l IH].
  - simpl. split; [lia|]. intros (x & Hx & _). by apply elem_of_nil in Hx.
  - rewrite filter_cons. pose proof (length_filter P l) as Hle.
    destruct (decide (P a)) as [Ha|Ha]; simpl.
    + rewrite <- Nat.succ_lt_mono, IH. split.
      * intros (x & Hx & Hnx). exists x. split; [|done].
        apply elem_of_cons. by right.
      * intros (x & Hx & Hnx). exists x. split; [|done].
        apply elem_of_cons in Hx as [->|Hx]; done.
    + split; [|lia]. intros _. exists a. split; [|done].
      apply elem_of_cons. by left.
Qed.

(** The identifiers never outnumber the rows, and they are fewer exactly
    when the table has a single identifier field that some row leaves
    undefined: the identifier of such a row is dropped, so later
    identifiers no longer stand at the position of their row. *)
Theorem identifiers_never_outnumber_rows (rows : list Row)
    (schema : TableDefinition) :
  (length (extractIds rows schema) ≤ length rows)%nat
  ∧ ((length (extractIds rows schema) < length rows)%nat
     ↔ ∃ idField row,
         filter (λ f, isId f = true) (fields schema) = [idField]
         ∧ row ∈ rows ∧ prop row (fieldName idField) = VUndefined).
Proof.
  unfold extractIds.
  destruct (filter (λ f, isId f = true) (fields schema))
    as [|idField [|second more]] eqn:Hids.
  - assert (Hall : length (match rows with
                           | [] => sequentialIds (length rows)
                           | first :: _ =>
                               if decide (prop first "id" ≠ VUndefined)
                               then (λ r, Single (prop r "id")) <$> rows
                               else sequentialIds (length rows)
                           end) = length rows).
    { destruct rows as [|first rest]; [done|]. destruct (decide _).
      - by rewrite length_fmap.
      - unfold sequentialIds. by rewrite length_fmap, length_seq. }
    rewrite Hall. split; [lia|]. split; [lia|].
    intros (f & row & Heq & _). done.
  - rewrite length_fmap.
    pose proof (length_filter (λ id, id ≠ VUndefined)
                  ((λ r, prop r (fieldName idField)) <$> rows)) as Hle.
    rewrite length_fmap in Hle. split; [done|].
    rewrite <- (length_fmap (λ r, prop r (fieldName idField)) rows).
    rewrite filter_length_lt. split.
    + intros (v & Hv & Hundef). apply list_elem_of_fmap in Hv as (row & -> & Hrow).
      exists idField, row. split_and!; [done | done |].
      destruct (decide (prop row (fieldName idField) = VUndefined)); [done|].
      by destruct Hundef.
    + intros (f & row & Heq & Hrow & Hundef). injection Heq as <-.
      exists VUndefined. split; [|by intros H; apply H].
      apply list_elem_of_fmap. by exists row.
  - rewrite length_fmap. split; [lia|]. split; [lia|].
    intros (f & row & Heq & _). done.
Qed.
End generator_more.

(** ** The placeholder pattern *)

Section placeholder_facts.
Import Transformer TransformerSpec.

Lemma append_cons c (s t : string) : String c s +:+ t = String c (s +:+ t).
Proof. reflexivity. Qed.

Lemma append_empty_l (t : string) : "" +:+ t = t.
Proof. reflexivity. Qed.

Lemma append_empty_r (s : string) : s +:+ "" = s.
Proof.
  induction s as [|c s IH]; [done|]. by rewrite append_cons, IH.
Qed.

Lemma append_assoc (a b c : string) : (a +:+ b) +:+ c = a +:+ (b +:+ c).
Proof.
  induction a as [|x a IH]; [done|]. by rewrite !append_cons, IH.
Qed.

Lemma every_app p (a b : string) :
  every p (a +:+ b) = every p a && every p b.
Proof.
  induction a as [|c a IH]; [done|].
  rewrite append_cons. simpl. by rewrite IH, andb_assoc.
Qed.

(** The longest run wins when no longer one is accepted. *)
Lemma greedyPlus_reach {R} (p : ascii → bool)
    (k : string → string → option R) (r : R) : ∀ a taken b,
  a ≠ "" → every p a = true →
  greedyPlus p k (taken +:+ a) b = None →
  k (taken +:+ a) b = Some r →
  greedyPlus p k taken (a +:+ b) = Some r.
Proof.
  induction a as [|c a IH]; intros taken b Hne Hev Hlonger Hk; [done|].
  simpl in Hev. apply andb_true_iff in Hev as [Hc Hev].
  rewrite append_cons. cbn [greedyPlus]. rewrite Hc.
  destruct a as [|c' a'].
  - rewrite append_empty_l, Hlonger. exact Hk.
  - rewrite (IH (taken +:+ String c "") b); [done | done | done | |].
    + by rewrite append_assoc.
    + by rewrite append_assoc.
Qed.

Lemma greedyPlus_none {R} (p : ascii → bool)
    (k : string → string → option R) : ∀ s taken,
  (∀ a b, s = a +:+ b → a ≠ "" → every p a = true →
          k (taken +:+ a) b = None) →
  greedyPlus p k taken s = None.
Proof.
  induction s as [|c s IH]; intros taken Hfail; [done|].
  cbn [greedyPlus]. destruct (p c) eqn:Hc; [|done].
  rewrite IH.
  - apply (Hfail (String c "") s); [done | done |].
    simpl. by rewrite Hc.
  - intros a b -> Hne Hev. rewrite append_assoc.
    apply Hfail; [done | done |]. simpl. by rewrite Hc.
Qed.

Lemma greedyPlus_sound {R} (p : ascii → bool)
    (k : string → string → option R) (r : R) : ∀ s taken,
  greedyPlus p k taken s = Some r →
  ∃ a b, s = a +:+ b ∧ a ≠ "" ∧ every p a = true
         ∧ k (taken +:+ a) b = Some r.
Proof.
  induction s as [|c s IH]; intros taken Hrun; [done|].
  cbn [greedyPlus] in Hrun. destruct (p c) eqn:Hc; [|done].
  destruct (greedyPlus p k (taken +:+ String c "") s) as [r'|] eqn:Hlonger.
  - injection Hrun as ->.
    apply IH in Hlonger as (a & b & -> & _ & Hev & Hk).
    exists (String c a), b. split_and!; [done | done | |].
    + simpl. by rewrite Hc.
    + by rewrite append_assoc in Hk.
  - exists (String c ""), s. split_and!; [done | done | | done].
    simpl. by rewrite Hc.
Qed.

Lemma word_prefix_split : ∀ (X a b tail : string),
  a +:+ b = X +:+ String "}" tail →
  every isWordChar a = true →
  ∃ X2, X = a +:+ X2 ∧ b = X2 +:+ String "}" tail.
Proof.
  induction X as [|x X IH]; intros a b tail Heq Hev.
  - destruct a as [|c a].
    + exists "". by rewrite append_empty_l in Heq.
    + rewrite append_cons, append_empty_l in Heq. injection Heq as -> _.
      done.
  - destruct a as [|c a].
    + exists (String x X). by rewrite append_empty_l in Heq.
    + rewrite !append_cons in Heq. injection Heq as -> Heq.
      simpl in Hev. apply andb_true_iff in Hev as [_ Hev].
      destruct (IH a b tail Heq Hev) as (X2 & -> & ->).
      by exists X2.
Qed.

Lemma digit_is_no_separator c :
  isDigit c = true → ¬ (c = "_"%char ∨ c = "."%char).
Proof. intros Hd [->| ->]; done. Qed.

Lemma parseDigits_nonneg : ∀ s acc, 0 ≤ acc → 0 ≤ parseDigits acc s.
Proof.
  induction s as [|c s IH]; intros acc Hacc; [done|].
  cbn [parseDigits]. apply IH. lia.
Qed.

Lemma includesBraces_found : ∀ before r : string,
  includesBraces (before +:+ String "{" (String "{" r)) = true.
Proof.
  intros before r. unfold includesBraces. apply bool_decide_eq_true.
  induction before as [|c before IH].
  - rewrite append_empty_l. exists 0%nat. cbn [String.index].
    assert (Hp : String.prefix "{{" (String "{" (String "{" r)) = true).
    { apply String.prefix_correct. simpl. by destruct r. }
    by rewrite Hp.
  - rewrite append_cons. destruct IH as [n Hn].
    cbn [String.index]. rewrite Hn.
    destruct (String.prefix _ _); by eexists.
Qed.

(** The digits of the index, tried on [D] followed by the closing
    braces. *)
Lemma digits_reach {R} (k : string → string → option R) (D tail : string)
    (r : R) :
  D ≠ "" → every isDigit D = true →
  k D (String "}" tail) = Some r →
  greedyPlus isDigit k "" (D +:+ String "}" tail) = Some r.
Proof.
  intros Hne Hev Hk.
  apply greedyPlus_reach; [done | done | done |].
  by rewrite append_empty_l.
Qed.

Lemma matchHere_placeholder (T : string) (sep : ascii) (D rest : string) :
  T ≠ "" → every isWordChar T = true →
  D ≠ "" → every isDigit D = true →
  sep = "_"%char ∨ sep = "."%char →
  matchHere (placeholderText T sep D rest) = Some (T, D).
Proof.
  intros HT HTw HD HDd Hsep.
  unfold placeholderText.
  change ("{{" +:+ T +:+ String sep (D +:+ "}}" +:+ rest))
    with (String "{" (String "{"
            (T +:+ String sep (D +:+ String "}" (String "}" rest))))).
  cbn [matchHere].
  apply greedyPlus_reach; [done | done | |].
  - (* no longer name is followed by a separator *)
    rewrite append_empty_l. destruct Hsep as [->| ->].
    + apply greedyPlus_none. intros a b Heq Hne Hev.
      destruct (word_prefix_split (String "_" D) a b (String "}" rest))
        as (X2 & HX & ->); [by rewrite append_cons | done |].
      destruct a as [|c a]; [done|].
      rewrite append_cons in HX. injection HX as <- ->.
      rewrite every_app in HDd. apply andb_true_iff in HDd as [_ HX2].
      destruct X2 as [|d X2].
      * rewrite append_empty_l. by rewrite bool_decide_false by (by intros []).
      * rewrite append_cons. simpl in HX2.
        apply andb_true_iff in HX2 as [Hd _].
        by rewrite bool_decide_false by (by apply digit_is_no_separator).
    + done.
  - rewrite append_empty_l. rewrite bool_decide_true by done.
    by apply digits_reach.
Qed.

Lemma matchHere_sound (s T D : string) :
  matchHere s = Some (T, D) →
  ∃ sep rest,
    s = placeholderText T sep D rest
    ∧ (sep = "_"%char ∨ sep = "."%char)
    ∧ T ≠ "" ∧ every isWordChar T = true
    ∧ D ≠ "" ∧ every isDigit D = true.
Proof.
  intros Hm.
  destruct s as [|c1 s]; [done|].
  destruct c1 as [[] [] [] [] [] [] [] []]; try (simpl in Hm; discriminate).
  destruct s as [|c2 s]; [done|].
  destruct c2 as [[] [] [] [] [] [] [] []]; try (simpl in Hm; discriminate).
  cbn [matchHere] in Hm.
  apply greedyPlus_sound in Hm as (a & b & -> & Ha & Haw & Hk).
  rewrite append_empty_l in Hk.
  destruct b as [|sep r2]; [done|].
  case_bool_decide as Hsep; [|done].
  apply greedyPlus_sound in Hk as (d & b2 & -> & Hd & Hdd & Hk).
  rewrite append_empty_l in Hk.
  destruct b2 as [|c3 b2]; [done|].
  destruct c3 as [[] [] [] [] [] [] [] []]; try discriminate.
  destruct b2 as [|c4 rest]; [done|].
  destruct c4 as [[] [] [] [] [] [] [] []]; try discriminate.
  injection Hk as <- <-.
  exists sep, rest. split_and!; [|done..].
  reflexivity.
Qed.
End placeholder_facts.

Section placeholder_claims.
Import Transformer TransformerSpec.

(** A well-formed placeholder at the start of a text is recognised with
    its table name and its index: two opening braces, a name of letters,
    digits and underscores, an underscore or a dot, decimal digits and two
    closing braces.  The name may itself hold underscores and digits: the
    index is the last run of digits before the closing braces. *)
Theorem placeholder_is_recognised (T : string) (sep : ascii)
    (D rest : string) :
  T ≠ "" → every isWordChar T = true →
  D ≠ "" → every isDigit D = true →
  sep = "_"%char ∨ sep = "."%char →
  matchPlaceholder (placeholderText T sep D rest) = Some (T, D)
  ∧ includesBraces (placeholderText T sep D rest) = true.
Proof.
  intros HT HTw HD HDd Hsep. split.
  - pose proof (matchHere_placeholder T sep D rest HT HTw HD HDd Hsep) as Hm.
    unfold placeholderText in *.
    change ("{{" +:+ T +:+ String sep (D +:+ "}}" +:+ rest))
      with (String "{" (String "{"
              (T +:+ String sep (D +:+ "}}" +:+ rest)))) in *.
    cbn [matchPlaceholder]. by rewrite Hm.
  - apply (includesBraces_found "").
Qed.

Lemma placeholder_is_recognised_witness :
  matchPlaceholder (placeholderText "Order_Item2" "_" "12" " and more")
  = Some ("Order_Item2", "12")
  ∧ includesBraces (placeholderText "Order_Item2" "_" "12" " and more")
    = true.
Proof.
  apply (placeholder_is_recognised "Order_Item2" "_" "12" " and more").
  - done.
  - reflexivity.
  - done.
  - reflexivity.
  - by left.
Defined.

(** Whatever the pattern matches is a placeholder: the text holds, at the
    place of the match, two opening braces, the captured name (not empty,
    made of letters, digits and underscores), an underscore or a dot, the
    captured index (not empty, made of digits) and two closing braces; the
    text then contains two opening braces, and the index read from the
    digits is not negative. *)
Theorem placeholder_match_is_sound (text T D : string) :
  matchPlaceholder text = Some (T, D) →
  ∃ before sep rest,
    text = before +:+ placeholderText T sep D rest
    ∧ (sep = "_"%char ∨ sep = "."%char)
    ∧ T ≠ "" ∧ every isWordChar T = true
    ∧ D ≠ "" ∧ every isDigit D = true
    ∧ includesBraces text = true
    ∧ 0 ≤ parseInt D.
Proof.
  intros Hm.
  assert (Hfound : ∃ before sep rest,
            text = before +:+ placeholderText T sep D rest
            ∧ (sep = "_"%char ∨ sep = "."%char)
            ∧ T ≠ "" ∧ every isWordChar T = true
            ∧ D ≠ "" ∧ every isDigit D = true).
  { induction text as [|c text IH].
    - simpl in Hm. discriminate.
    - cbn [matchPlaceholder] in Hm.
      destruct (matchHere (String c text)) as [[T' D']|] eqn:Hhere.
      + injection Hm as -> ->.
        apply matchHere_sound in Hhere as (sep & rest & Heq & Hrest).
        exists "", sep, rest. by rewrite append_empty_l.
      + destruct (IH Hm) as (before & sep & rest & -> & Hrest).
        by exists (String c before), sep, rest. }
  destruct Hfound as (before & sep & rest & -> & Hsep & HT & HTw & HD & HDd).
  exists before, sep, rest. split_and!; [done..| |].
  - apply includesBraces_found.
  - by apply parseDigits_nonneg.
Qed.

Lemma placeholder_match_is_sound_witness :
  ∃ before sep rest,
    "see {{User.7}}" = before +:+ placeholderText "User" sep "7" rest
    ∧ (sep = "_"%char ∨ sep = "."%char)
    ∧ "User" ≠ "" ∧ every isWordChar "User" = true
    ∧ "7" ≠ "" ∧ every isDigit "7" = true
    ∧ includesBraces "see {{User.7}}" = true
    ∧ 0 ≤ parseInt "7".
Proof.
  apply (placeholder_match_is_sound "see {{User.7}}" "User" "7").
  reflexivity.
Defined.
End placeholder_claims.
